(** * mq: a line-oriented front end to a POSIX message queue

    Shallow embedding of the session engine of [mq-template.cpp]
    ([sendHandler], [doReceive], [receiveHandler], [consumeHandler],
    [countHandler], [msgsizeHandler], [maxmsgHandler], [closeHandler],
    [serve]) and the properties of it that the specification states;
    then of what surrounds the engine: the command line ([checkArgs],
    [parseOptions], [openQueue], [main]), the consumer thread ([consume]),
    [repr] of [repr.cpp] and the tool of [splice-readme.cpp], with
    properties read off their code.

    Conventions of the embedding.
    - C integers are [Z]; [unsigned] is 32 bits wide and [ssize_t] is the
      64-bit [long] (the LP64 platforms on which [<mqueue.h>] is found).
    - Byte strings ([std::string], buffers, the bytes of standard input) are
      [list ascii].
    - Every call into the operating system takes its answer from a script
      held in the environment [Env]; a blocking call whose script is empty
      never returns ([Blocked]).
    - Every observable action is appended to a log of [event]s, in program
      order. *)

From Stdlib Require Import String ZArith List Ascii Bool Lia.
Import ListNotations.
Open Scope Z_scope.

(* ------------------------------------------------------------------ *)
(** ** Bytes and decimal text *)
(* ------------------------------------------------------------------ *)

Definition bytes (s : string) : list ascii := list_ascii_of_string s.

Definition len (l : list ascii) : Z := Z.of_nat (length l).

Definition NUL : ascii := "000"%char.
Definition SP : ascii := " "%char.
Definition NL : ascii := "010"%char.

Fixpoint bytes_eqb (a b : list ascii) : bool :=
  match a, b with
  | [], [] => true
  | x :: a', y :: b' => Ascii.eqb x y && bytes_eqb a' b'
  | _, _ => false
  end.

Definition code (c : ascii) : Z := Z.of_nat (nat_of_ascii c).

Definition digit_char (d : Z) : ascii := ascii_of_nat (48 + Z.to_nat d).

(** Number of decimal digits of [n] after the first one, that is
    floor(log10 n) for [n >= 1]. *)
Fixpoint log10_fuel (fuel : nat) (n : Z) : Z :=
  match fuel with
  | O => 0
  | S f => if n <? 10 then 0 else 1 + log10_fuel f (n / 10)
  end.

Definition log10_floor (n : Z) : Z := log10_fuel (S (Z.to_nat (Z.log2 n))) n.

Fixpoint decimal_fuel (fuel : nat) (n : Z) (acc : list ascii) : list ascii :=
  match fuel with
  | O => digit_char (n mod 10) :: acc
  | S f =>
      if n <? 10 then digit_char (n mod 10) :: acc
      else decimal_fuel f (n / 10) (digit_char (n mod 10) :: acc)
  end.

(** The decimal numeral of a non-negative integer, as [printf("%u")] and
    [operator<<] print it. *)
Definition decimal (n : Z) : list ascii :=
  decimal_fuel (S (Z.to_nat (Z.log2 n))) n [].

(** Signed decimal text ([%lld], [operator<<(long)]). *)
Definition print_Z (n : Z) : list ascii :=
  if n <? 0 then "-"%char :: decimal (- n) else decimal n.

(** libc's table of error messages is no part of the program; the text is
    rendered symbolically. *)
Definition strerror (e : Z) : list ascii :=
  bytes "errno " ++ print_Z e.

(* ------------------------------------------------------------------ *)
(** ** Numeric limits of the platform *)
(* ------------------------------------------------------------------ *)

(** [std::numeric_limits<T>::digits]: the number of value bits of [T]. *)
Definition unsigned_digits : Z := 32.
Definition ssize_t_digits : Z := 63.

Definition UINT_MAX : Z := 2 ^ unsigned_digits - 1.
Definition SSIZE_MAX : Z := 2 ^ ssize_t_digits - 1.
Definition SSIZE_MIN : Z := - 2 ^ ssize_t_digits.

(** [std::numeric_limits<T>::digits10]: the number of decimal digits that
    every value of [T] can hold, floor(digits * log10 2).  As no power of two
    is a power of ten this is floor(log10 (2 ^ digits)). *)
Definition digits10 (digits : Z) : Z := log10_floor (2 ^ digits).

(* ------------------------------------------------------------------ *)
(** ** Standard input: [std::istream] *)
(* ------------------------------------------------------------------ *)

Module IStream.

Record t := mk {
  data : list ascii;   (* the bytes not yet extracted *)
  eofbit : bool;
  failbit : bool
}.

Definition of_bytes (l : list ascii) : t := mk l false false.

Definition good (s : t) : bool := negb (eofbit s) && negb (failbit s).

(** [!stream] *)
Definition fail (s : t) : bool := failbit s.

Definition set_fail (s : t) : t := mk (data s) (eofbit s) true.
Definition set_eof (s : t) : t := mk (data s) true (failbit s).

(** [std::isspace] in the "C" locale. *)
Definition isspace (c : ascii) : bool :=
  let n := code c in (n =? 32) || ((9 <=? n) && (n <=? 13)).

Definition isdigit (c : ascii) : bool :=
  let n := code c in (48 <=? n) && (n <=? 57).

Fixpoint skipws (l : list ascii) : list ascii :=
  match l with
  | c :: l' => if isspace c then skipws l' else l
  | [] => []
  end.

(** Longest prefix of characters satisfying [p], and the rest. *)
Fixpoint span (p : ascii -> bool) (l : list ascii)
  : list ascii * list ascii :=
  match l with
  | c :: l' =>
      if p c then let (a, b) := span p l' in (c :: a, b) else ([], l)
  | [] => ([], [])
  end.

(** [istream::sentry]: fails, setting [failbit], on a stream that is not
    good; a formatted extraction ([noskipws = false]) first discards
    white space and fails with [eofbit | failbit] when nothing follows. *)
Definition sentry (noskipws : bool) (s : t) : bool * t :=
  if good s then
    if noskipws then (true, s)
    else
      match skipws (data s) with
      | [] => (false, mk [] true true)
      | rest => (true, mk rest (eofbit s) (failbit s))
      end
  else (false, set_fail s).

(** [stream >> str]: the next white-space delimited word.  [None] when the
    stream has failed, in which case [str] keeps its value. *)
Definition read_word (s : t) : option (list ascii) * t :=
  match sentry false s with
  | (false, s') => (None, s')
  | (true, s') =>
      let (w, rest) := span (fun c => negb (isspace c)) (data s') in
      (Some w,
       mk rest (match rest with [] => true | _ => eofbit s' end) (failbit s'))
  end.

Definition digits_value (ds : list ascii) : Z :=
  fold_left (fun acc c => 10 * acc + (code c - 48)) ds 0.

(** Integer extraction in base ten ([num_get], "C" locale): an optional
    sign, then digits.  No digit, or a value out of range, sets [failbit].
    A negative numeral read into an unsigned type wraps around. *)
Definition read_int (signed : bool) (lo hi : Z) (s : t) : option Z * t :=
  match sentry false s with
  | (false, s') => (None, s')
  | (true, s') =>
      let (negative, after_sign) :=
        match data s' with
        | c :: l =>
            if Ascii.eqb c "-" then (true, l)
            else if Ascii.eqb c "+" then (false, l)
            else (false, c :: l)
        | [] => (false, [])
        end in
      let (ds, rest) := span isdigit after_sign in
      let eof := match rest with [] => true | _ => eofbit s' end in
      let magnitude := digits_value ds in
      let limit := if negative && signed then - lo else hi in
      match ds with
      | [] => (None, mk rest eof true)
      | _ =>
          if limit <? magnitude then (None, mk rest eof true)
          else
            (Some (if negative
                   then (if signed then - magnitude
                         else (hi + 1 - magnitude) mod (hi + 1))
                   else magnitude),
             mk rest eof (failbit s'))
      end
  end.

(** [stream >> (unsigned&)] and [stream >> (ssize_t&)]. *)
Definition read_unsigned : t -> option Z * t := read_int false 0 UINT_MAX.
Definition read_ssize_t : t -> option Z * t :=
  read_int true SSIZE_MIN SSIZE_MAX.

(** [stream.ignore()]: discard one character. *)
Definition ignore (s : t) : t :=
  match sentry true s with
  | (false, s') => s'
  | (true, s') =>
      match data s' with
      | _ :: rest => mk rest (eofbit s') (failbit s')
      | [] => set_eof s'
      end
  end.

(** [stream.read(buf, n)]: the bytes stored and the stream afterwards;
    [gcount()] is the number of bytes stored. *)
Definition read (n : Z) (s : t) : list ascii * t :=
  match sentry true s with
  | (false, s') => ([], s')
  | (true, s') =>
      let got := firstn (Z.to_nat n) (data s') in
      let rest := skipn (Z.to_nat n) (data s') in
      if len got <? n then (got, mk rest true true)
      else (got, mk rest (eofbit s') (failbit s'))
  end.

End IStream.

(* ------------------------------------------------------------------ *)
(** ** The operating system, as the program sees it *)
(* ------------------------------------------------------------------ *)

(** [errno] values (Linux numbering). *)
Definition EINTR : Z := 4.
Definition EBADF : Z := 9.
Definition EMSGSIZE : Z := 90.

Record mq_attr := mk_attr {
  mq_maxmsg : Z;
  mq_msgsize : Z;
  mq_curmsgs : Z
}.

(** What one [mq_receive] brings back. *)
Inductive received :=
| Message (payload : list ascii) (priority : Z)
| ReceiveError (errno : Z).

(** The answers of the operating system, one list per call, consumed in
    order: a pair is (return value, [errno]).  [memory] is the size of the
    largest allocation that succeeds. *)
Record Env := mkEnv {
  mq_send_script : list (Z * Z);
  mq_receive_script : list received;
  write_script : list (Z * Z);
  mq_getattr_script : list (Z * Z * mq_attr);
  mq_close_script : list (Z * Z);
  pthread_create_script : list (Z * Z * Z);  (* rc, errno, thread id *)
  memory : Z
}.

Inductive mutex := stoppedMutex | stdoutMutex | stderrMutex.

(** Observable actions.  [HandlerResult] and [UnknownCommand] record the
    decisions of the dispatch loop of [serve]; the others are calls into the
    system or the C++ streams. *)
Inductive event :=
| Acquire (m : mutex)                 (* pthread_mutex_lock *)
| Release (m : mutex)                 (* pthread_mutex_unlock *)
| Cout (text : list ascii)            (* std::cout << ... << std::endl *)
| Cerr (text : list ascii)            (* std::cerr << ... << std::endl *)
| SysWrite (buf : list ascii) (rc : Z)  (* write(1, buf, |buf|) = rc *)
| MqSend (payload : list ascii) (priority : Z) (rc : Z)
| MqReceive (msgBufferSize : Z) (rc : Z)
| MqGetattr (rc : Z)
| MqClose (rc : Z)
| SetStopped                          (* shared.stopped = true *)
| Sigaction                           (* sigaction(SIGUSR1, &doNothing, 0) *)
| PthreadCreate (rc : Z) (thread : Z)
| PthreadKill (thread : Z)
| PthreadJoin (thread : Z)
| HandlerResult (verb : list ascii) (rc : Z)
| UnknownCommand (verb : list ascii).

(** How a computation over a state [S] ends. *)
Inductive outcome (A S : Type) :=
| Ret (a : A) (log : list event) (s : S)
| Blocked (log : list event)     (* a system call never returned *)
| Crash (log : list event)       (* failed assert, uncaught exception or
                                    store outside the buffer *)
| OutOfFuel.

Arguments Ret {A S} a log s.
Arguments Blocked {A S} log.
Arguments Crash {A S} log.
Arguments OutOfFuel {A S}.

Definition log_then {A S} (l : list event) (o : outcome A S) : outcome A S :=
  match o with
  | Ret a l' s => Ret a (l ++ l') s
  | Blocked l' => Blocked (l ++ l')
  | Crash l' => Crash (l ++ l')
  | OutOfFuel => OutOfFuel
  end.

(* ------------------------------------------------------------------ *)
(** ** Session state *)
(* ------------------------------------------------------------------ *)

Inductive Operation := READ_ONLY | WRITE_ONLY | READ_WRITE.
Inductive OpenMode := OPEN_ONLY | CREATE_ONLY | OPEN_CREATE.

Record Options := mkOptions {
  operation : Operation;
  open : OpenMode;
  filePermissions : Z;
  maxesSpecified : bool;
  maxmsg : Z;
  opt_msgsize : Z;
  unlink : bool;
  debug : bool;
  queueName : list ascii
}.

(** [struct Shared]; the three mutexes are followed through [Acquire] and
    [Release] events. *)
Record Shared := mkShared {
  stopped : bool;
  queue : Z;
  msgsize : Z;
  consumerThreadExists : bool;
  consumerThread : Z;
  options : Options
}.

(** [Shared::Shared] *)
Definition Shared_new (messageQueue messageSize : Z) (o : Options) : Shared :=
  mkShared false messageQueue messageSize false 0 o.

(** What a handler can reach: [shared], the string it is handed by
    reference ([chunk] of [serve]), standard input and the system. *)
Record St := mkSt {
  shared : Shared;
  chunk : list ascii;
  cin : IStream.t;
  env : Env
}.

Definition M (A : Type) : Type := St -> outcome A St.

Definition ret {A} (a : A) : M A := fun s => Ret a [] s.

Definition bind {A B} (m : M A) (k : A -> M B) : M B :=
  fun s =>
    match m s with
    | Ret a l s' => log_then l (k a s')
    | Blocked l => Blocked l
    | Crash l => Crash l
    | OutOfFuel => OutOfFuel
    end.

Declare Scope m_scope.
Delimit Scope m_scope with m.
Notation "x <- m ;; k" := (bind m (fun x => k))
  (at level 61, m at next level, right associativity) : m_scope.
Notation "m ;; k" := (bind m (fun _ => k))
  (at level 61, right associativity) : m_scope.
Open Scope m_scope.

Definition emit (e : event) : M unit := fun s => Ret tt [e] s.
Definition crash {A} : M A := fun _ => Crash [].
Definition assert (b : bool) : M unit := if b then ret tt else crash.
Definition when (b : bool) (m : M unit) : M unit := if b then m else ret tt.

Definition get_shared : M Shared := fun s => Ret (shared s) [] s.
Definition modify_shared (f : Shared -> Shared) : M unit :=
  fun s => Ret tt [] (mkSt (f (shared s)) (chunk s) (cin s) (env s)).
Definition get_chunk : M (list ascii) := fun s => Ret (chunk s) [] s.
Definition set_chunk (c : list ascii) : M unit :=
  fun s => Ret tt [] (mkSt (shared s) c (cin s) (env s)).
Definition get_env : M Env := fun s => Ret (env s) [] s.
Definition set_env (e : Env) : M unit :=
  fun s => Ret tt [] (mkSt (shared s) (chunk s) (cin s) e).

(** Run an operation of [std::cin]. *)
Definition input {A} (f : IStream.t -> A * IStream.t) : M A :=
  fun s => let (a, c) := f (cin s) in Ret a [] (mkSt (shared s) (chunk s) c (env s)).
Definition cin_fail : M bool := fun s => Ret (IStream.fail (cin s)) [] s.

Definition set_stopped (b : bool) (sh : Shared) : Shared :=
  mkShared b (queue sh) (msgsize sh) (consumerThreadExists sh)
           (consumerThread sh) (options sh).
Definition set_consumerThreadExists (b : bool) (sh : Shared) : Shared :=
  mkShared (stopped sh) (queue sh) (msgsize sh) b (consumerThread sh)
           (options sh).
Definition set_consumerThread (t : Z) (sh : Shared) : Shared :=
  mkShared (stopped sh) (queue sh) (msgsize sh) (consumerThreadExists sh) t
           (options sh).

Definition set_mq_send_script (l : list (Z * Z)) (e : Env) : Env :=
  mkEnv l (mq_receive_script e) (write_script e) (mq_getattr_script e)
        (mq_close_script e) (pthread_create_script e) (memory e).
Definition set_mq_receive_script (l : list received) (e : Env) : Env :=
  mkEnv (mq_send_script e) l (write_script e) (mq_getattr_script e)
        (mq_close_script e) (pthread_create_script e) (memory e).
Definition set_write_script (l : list (Z * Z)) (e : Env) : Env :=
  mkEnv (mq_send_script e) (mq_receive_script e) l (mq_getattr_script e)
        (mq_close_script e) (pthread_create_script e) (memory e).
Definition set_mq_getattr_script (l : list (Z * Z * mq_attr)) (e : Env) : Env :=
  mkEnv (mq_send_script e) (mq_receive_script e) (write_script e) l
        (mq_close_script e) (pthread_create_script e) (memory e).
Definition set_mq_close_script (l : list (Z * Z)) (e : Env) : Env :=
  mkEnv (mq_send_script e) (mq_receive_script e) (write_script e)
        (mq_getattr_script e) l (pthread_create_script e) (memory e).
Definition set_pthread_create_script (l : list (Z * Z * Z)) (e : Env) : Env :=
  mkEnv (mq_send_script e) (mq_receive_script e) (write_script e)
        (mq_getattr_script e) (mq_close_script e) l (memory e).

(** The next answer of a script; the call blocks for ever when there is
    none. *)
Definition ask {A} (script : Env -> list A) (rest : list A -> Env -> Env)
  : M A :=
  fun s =>
    match script (env s) with
    | [] => Blocked []
    | a :: l => Ret a [] (mkSt (shared s) (chunk s) (cin s) (rest l (env s)))
    end.

(** Run a loop that consumes a script of its own. *)
Definition zoom {A T} (script : Env -> list T) (rest : list T -> Env -> Env)
  (f : list T -> outcome A (list T)) : M A :=
  fun s =>
    match f (script (env s)) with
    | Ret a l r => Ret a l (mkSt (shared s) (chunk s) (cin s) (rest r (env s)))
    | Blocked l => Blocked l
    | Crash l => Crash l
    | OutOfFuel => OutOfFuel
    end.

(* ------------------------------------------------------------------ *)
(** ** [class Lock] *)
(* ------------------------------------------------------------------ *)

Record Lock := mkLock {
  lock_mutex : mutex;
  holding : bool
}.

Definition Lock_acquire (l : Lock) : M Lock :=
  if holding l then ret l
  else emit (Acquire (lock_mutex l)) ;; ret (mkLock (lock_mutex l) true).

Definition Lock_release (l : Lock) : M Lock :=
  if negb (holding l) then ret l
  else emit (Release (lock_mutex l)) ;; ret (mkLock (lock_mutex l) false).

(** [Lock::Lock(mutex, lockOnInit)] *)
Definition Lock_new (m : mutex) (lockOnInit : bool) : M Lock :=
  if lockOnInit then Lock_acquire (mkLock m false) else ret (mkLock m false).

(** [Lock::~Lock] *)
Definition Lock_delete (l : Lock) : M unit :=
  if holding l then Lock_release l ;; ret tt else ret tt.

(** A block that declares
    [Lock lock(mutex, shared.consumerThreadExists)] first and runs [body]
    to its end. *)
Definition locked {A} (m : mutex) (body : M A) : M A :=
  sh <- get_shared ;;
  lock <- Lock_new m (consumerThreadExists sh) ;;
  a <- body ;;
  Lock_delete lock ;;
  ret a.

Definition DQ : ascii := "034"%char.

(** One line on a stream: the pieces, then [std::endl]. *)
Definition line (pieces : list (list ascii)) : list ascii :=
  concat pieces ++ [NL].

Definition cerr (pieces : list (list ascii)) : M unit := emit (Cerr (line pieces)).
Definition cout (pieces : list (list ascii)) : M unit := emit (Cout (line pieces)).

(** [std::string::resize]: keeps a prefix, pads with NUL. *)
Definition resize (s : list ascii) (n : Z) : list ascii :=
  firstn (Z.to_nat n) s ++ repeat NUL (Z.to_nat n - length s).

(** A store of [bs] at offset [off] of a buffer; nothing is defined outside
    the buffer. *)
Definition store (buf : list ascii) (off : Z) (bs : list ascii)
  : option (list ascii) :=
  if (0 <=? off) && (off + len bs <=? len buf) then
    Some (firstn (Z.to_nat off) buf ++ bs
          ++ skipn (Z.to_nat (off + len bs)) buf)
  else None.

(** The [n] bytes at offset [off]. *)
Definition slice (buf : list ascii) (off n : Z) : list ascii :=
  firstn (Z.to_nat n) (skipn (Z.to_nat off) buf).

Definition store_chunk (off : Z) (bs : list ascii) : M unit :=
  buf <- get_chunk ;;
  match store buf off bs with
  | Some buf' => set_chunk buf'
  | None => crash
  end.

Notation "' pat <- m ;; k" :=
  (bind m (fun x => match x with pat => k end))
  (at level 61, pat pattern, m at next level, right associativity) : m_scope.

(* ------------------------------------------------------------------ *)
(** ** [sendHandler] *)
(* ------------------------------------------------------------------ *)

(** The loop around [mq_send]: [None] once a call succeeded, [Some error]
    after a failure other than [EINTR]. *)
Fixpoint mq_send_retry (payload : list ascii) (priority : Z)
  (script : list (Z * Z)) : outcome (option Z) (list (Z * Z)) :=
  match script with
  | [] => Blocked []
  | (rc, error) :: rest =>
      log_then [MqSend payload priority rc]
        (if rc =? -1 then
           if negb (error =? EINTR) then Ret (Some error) [] rest
           else mq_send_retry payload priority rest
         else Ret None [] rest)
  end.

Definition sendHandler : M Z :=
  priority <- input IStream.read_unsigned ;;
  match priority with
  | None =>
      locked stderrMutex
        (cerr [bytes "Unable to read message priority from "; [DQ];
               bytes "send"; [DQ]; bytes " command."]) ;;
      ret 1
  | Some priority =>
  size <- input IStream.read_ssize_t ;;
  match size with
  | None =>
      locked stderrMutex
        (cerr [bytes "Unable to read message size from "; [DQ];
               bytes "send"; [DQ]; bytes " command."]) ;;
      ret 2
  | Some size =>
  if size <? 0 then
    locked stderrMutex
      (cerr [bytes "Messages must have a non-negative size. Size ";
             print_Z size; bytes " is not permitted."]) ;;
    ret 4
  else
  input (fun c => (tt, IStream.ignore c)) ;;
  complete <-
    (if negb (size =? 0) then
       e <- get_env ;;
       (* chunk.resize(size); nothing catches its std::bad_alloc *)
       assert (size <=? memory e) ;;
       c <- get_chunk ;;
       set_chunk (resize c size) ;;
       got <- input (IStream.read size) ;;
       c <- get_chunk ;;
       set_chunk (got ++ skipn (length got) c) ;;
       failed <- cin_fail ;;
       if failed || negb (len got =? size) then
         locked stderrMutex
           (cerr [bytes "Unable to read from input all of the supposed ";
                  print_Z size; bytes " byte message. "; print_Z (len got);
                  bytes " were read instead."]) ;;
         ret false
       else ret true
     else ret true) ;;
  if negb complete then ret 5
  else
  c <- get_chunk ;;
  sent <- zoom mq_send_script set_mq_send_script
            (mq_send_retry (firstn (Z.to_nat size) c) priority) ;;
  match sent with
  | Some error =>
      locked stderrMutex
        (cerr [bytes "Unable to send message for "; [DQ]; bytes "send";
               [DQ]; bytes " command: "; strerror error]) ;;
      ret 3
  | None =>
      locked stdoutMutex (cout [bytes "ack "; print_Z size]) ;;
      ret 0
  end
  end
  end.

(* ------------------------------------------------------------------ *)
(** ** [doReceive] and [receiveHandler] *)
(* ------------------------------------------------------------------ *)

Definition FAIL_RECEIVE : Z := 1.
Definition FAIL_WRITE : Z := 2.
Definition FAIL_ALLOC : Z := 3.
Definition FAIL_INTERRUPTED_OR_CLOSED : Z := 4.

Definition numbersMaxSize : Z :=
  digits10 unsigned_digits    (* priority *)
  + 1                         (* separating whitespace *)
  + 1                         (* minus sign for the ssize_t *)
  + digits10 ssize_t_digits   (* message size *)
  + 1.                        (* null terminator, which becomes a space *)

(** [SizeBase10::operator()].  The source computes
    [floor(1 + log10(number)) + int(number < 0)] on [double]; here the
    logarithm is exact.  The source has no value for a negative argument
    (the logarithm is not a number); [doReceive] passes none. *)
Definition sizeBase10 (number : Z) : Z :=
  if number =? 0 then 1
  else (1 + log10_floor number) + (if number <? 0 then 1 else 0).

(** [mq_receive(queue, chunk + msgBegin, msgBufferSize, &priority)]:
    the value returned, [errno] and the priority.  A message longer than the
    room offered is refused with [EMSGSIZE]. *)
Definition mq_receive (msgBegin msgBufferSize : Z) : M (Z * Z * Z) :=
  r <- ask mq_receive_script set_mq_receive_script ;;
  match r with
  | Message payload priority =>
      if len payload <=? msgBufferSize then
        store_chunk msgBegin payload ;;
        emit (MqReceive msgBufferSize (len payload)) ;;
        ret (len payload, 0, priority)
      else
        emit (MqReceive msgBufferSize (-1)) ;;
        ret (-1, EMSGSIZE, 0)
  | ReceiveError errno =>
      emit (MqReceive msgBufferSize (-1)) ;;
      ret (-1, errno, 0)
  end.

(** [snprintf(chunk + off, n, ...)] where the formatted text is [text]:
    at most [n - 1] characters and a NUL are stored; the length of the whole
    text is returned. *)
Definition snprintf (off n : Z) (text : list ascii) : M Z :=
  when (0 <? n) (store_chunk off (firstn (Z.to_nat (n - 1)) text ++ [NUL])) ;;
  ret (len text).

(** The loop around [write]: always [write(stdoutFd, outputBegin,
    outputSize)], whose buffer is [region].  [None] when the loop ended,
    [Some error] after a failure other than [EINTR]. *)
Fixpoint write_loop (region : list ascii) (outputSize written : Z)
  (script : list (Z * Z)) : outcome (option Z) (list (Z * Z)) :=
  if written =? outputSize then Ret None [] script
  else
    match script with
    | [] => Blocked []
    | (rc, error) :: rest =>
        log_then [SysWrite region rc]
          (if rc =? -1 then
             if error =? EINTR then write_loop region outputSize written rest
             else Ret (Some error) [] rest
           else write_loop region outputSize (written + rc) rest)
    end.

(** [if (shared.options.debug) { Lock lock(...); std::cerr << ... }] *)
Definition debug_line (pieces : list (list ascii)) : M unit :=
  sh <- get_shared ;;
  when (debug (options sh)) (locked stderrMutex (cerr pieces)).

Definition doReceive : M Z :=
  sh <- get_shared ;;
  e <- get_env ;;
  buffer <- get_chunk ;;
  let newSize := numbersMaxSize + msgsize sh + 1 in
  (* a negative size wraps around in size_t: std::length_error *)
  assert (0 <=? newSize) ;;
  if memory e <? newSize then
    locked stderrMutex
      (cerr [bytes "Failed to allocate memory for consuming messages."]) ;;
    ret FAIL_ALLOC
  else
  set_chunk (resize buffer newSize) ;;
  assert (negb (newSize =? 0)) ;;
  let msgBegin := numbersMaxSize in
  assert (numbersMaxSize <=? newSize) ;;
  let msgBufferSize := (newSize - numbersMaxSize - 1) mod 2 ^ 64 in
  debug_line [bytes "About to receive with buffer.size()="; print_Z newSize;
              bytes " numbersMaxSize="; print_Z numbersMaxSize;
              bytes " msgBufferSize="; print_Z msgBufferSize;
              bytes " shared.msgsize="; print_Z (msgsize sh)] ;;
  '(msgSize, error, priority) <- mq_receive msgBegin msgBufferSize ;;
  if msgSize =? -1 then
    if (error =? EINTR) || (error =? EBADF) then
      ret FAIL_INTERRUPTED_OR_CLOSED
    else
      locked stderrMutex
        (cerr [bytes "Failed to receive message: "; strerror error]) ;;
      ret FAIL_RECEIVE
  else
  debug_line [bytes "received a priority "; print_Z priority;
              bytes " message of size "; print_Z msgSize] ;;
  assert (0 <=? msgSize) ;;
  store_chunk (msgBegin + msgSize) [NL] ;;
  let numbersExpectedSize :=
    sizeBase10 priority + 1 + sizeBase10 msgSize + 1 in
  debug_line [bytes "calculated numbersExpectedSize=";
              print_Z numbersExpectedSize] ;;
  let numbersBegin := numbersMaxSize - numbersExpectedSize in
  let spaceRemaining := newSize - numbersBegin in
  n <- snprintf numbersBegin spaceRemaining
         (decimal priority ++ [SP] ++ print_Z msgSize) ;;
  let numbersSize := n + 1 in
  debug_line [bytes "measured numbersSize="; print_Z numbersSize] ;;
  assert (numbersSize =? numbersExpectedSize) ;;
  store_chunk (numbersBegin + numbersSize - 1) [SP] ;;
  let outputBegin := numbersBegin in
  let outputSize := numbersSize + msgSize + 1 in
  stdoutLock <- Lock_new stdoutMutex (consumerThreadExists sh) ;;
  buffer <- get_chunk ;;
  w <- zoom write_script set_write_script
         (write_loop (slice buffer outputBegin outputSize) outputSize 0) ;;
  match w with
  | Some error =>
      stdoutLock <- Lock_release stdoutLock ;;
      locked stderrMutex
        (cerr [bytes "Failed to return message: "; strerror error]) ;;
      Lock_delete stdoutLock ;;
      ret FAIL_WRITE
  | None =>
      Lock_delete stdoutLock ;;
      ret 0
  end.

(** The [for (;;)] of [receiveHandler]. *)
Fixpoint receiveHandler_loop (fuel : nat) : M Z :=
  match fuel with
  | O => fun _ => OutOfFuel
  | S f =>
      rc <- doReceive ;;
      if negb (rc =? FAIL_INTERRUPTED_OR_CLOSED) then ret rc
      else receiveHandler_loop f
  end.

(** Every turn of the loop but the last takes one answer of [mq_receive]:
    one turn more than there are answers is fuel enough. *)
Definition receiveHandler : M Z :=
  fun s => receiveHandler_loop (S (length (mq_receive_script (env s)))) s.

(* ------------------------------------------------------------------ *)
(** ** [consumeHandler], the attribute handlers and [closeHandler] *)
(* ------------------------------------------------------------------ *)

Definition consumeHandler : M Z :=
  emit Sigaction ;;
  modify_shared (set_consumerThreadExists true) ;;
  '(rc, error, thread) <- ask pthread_create_script set_pthread_create_script ;;
  emit (PthreadCreate rc thread) ;;
  (* pthread_create stores the new thread's id when it succeeds *)
  when (rc =? 0) (modify_shared (set_consumerThread thread)) ;;
  when (negb (rc =? 0))
    (modify_shared (set_consumerThreadExists false) ;;
     cerr [bytes "Unable to create consumer thread: "; strerror error]) ;;
  ret rc.

Definition mq_getattr : M (Z * Z * mq_attr) :=
  '(rc, error, attributes) <- ask mq_getattr_script set_mq_getattr_script ;;
  emit (MqGetattr rc) ;;
  ret (rc, error, attributes).

Definition countHandler : M Z :=
  '(rc, error, attributes) <- mq_getattr ;;
  if negb (rc =? 0) then
    cerr [bytes "Unable to get queue attributes to query message count: ";
          strerror error] ;;
    ret rc
  else
    locked stdoutMutex (cout [bytes "count "; print_Z (mq_curmsgs attributes)]) ;;
    ret 0.

Definition msgsizeHandler : M Z :=
  '(rc, error, attributes) <- mq_getattr ;;
  if negb (rc =? 0) then
    locked stderrMutex
      (cerr [bytes "Unable to get queue attributes to report msgsize: ";
             strerror error]) ;;
    ret rc
  else
    locked stdoutMutex
      (cout [bytes "msgsize "; print_Z (mq_msgsize attributes)]) ;;
    ret 0.

Definition maxmsgHandler : M Z :=
  '(rc, error, attributes) <- mq_getattr ;;
  if negb (rc =? 0) then
    locked stderrMutex
      (cerr [bytes "Unable to get queue attributes to report maxmsg: ";
             strerror error]) ;;
    ret rc
  else
    locked stdoutMutex
      (cout [bytes "maxmsg "; print_Z (mq_maxmsg attributes)]) ;;
    ret 0.

Definition closeHandler : M Z :=
  sh <- get_shared ;;
  stoppedLock <- Lock_new stoppedMutex (consumerThreadExists sh) ;;
  modify_shared (set_stopped true) ;;
  emit SetStopped ;;
  '(rc, error) <- ask mq_close_script set_mq_close_script ;;
  emit (MqClose rc) ;;
  when (negb (rc =? 0))
    (locked stderrMutex
       (cerr [bytes "Unable to close the message queue: "; strerror error])) ;;
  when (consumerThreadExists sh) (emit (PthreadKill (consumerThread sh))) ;;
  Lock_delete stoppedLock ;;
  ret rc.

(* ------------------------------------------------------------------ *)
(** ** [repr] *)
(* ------------------------------------------------------------------ *)

Definition hex_digit (d : Z) : ascii :=
  if d <? 10 then digit_char d else ascii_of_nat (87 + Z.to_nat d).

Definition BSL : ascii := "092"%char.

(** [std::isgraph] in the "C" locale. *)
Definition isgraph (c : ascii) : bool := (33 <=? code c) && (code c <=? 126).

(** The text appended for one character; [None] where [assert(rc == 2)]
    fails: [char] is signed, and a negative one prints as eight hexadecimal
    digits. *)
Definition repr_char (ch : ascii) : option (list ascii) :=
  if isgraph ch then
    Some ((if Ascii.eqb ch DQ then [BSL] else []) ++ [ch])
  else
    let n := code ch in
    if n =? 32 then Some [ch]
    else if n =? 7 then Some ([BSL; "a"%char])
    else if n =? 8 then Some ([BSL; "b"%char])
    else if n =? 12 then Some ([BSL; "f"%char])
    else if n =? 10 then Some ([BSL; "n"%char])
    else if n =? 13 then Some ([BSL; "r"%char])
    else if n =? 9 then Some ([BSL; "t"%char])
    else if n =? 11 then Some ([BSL; "v"%char])
    else if n <? 128 then
      Some ([BSL; "x"%char] ++ [hex_digit (n / 16); hex_digit (n mod 16)])
    else None.

Fixpoint repr_body (input : list ascii) : option (list ascii) :=
  match input with
  | [] => Some [DQ]
  | ch :: rest =>
      match repr_char ch, repr_body rest with
      | Some a, Some b => Some (a ++ b)
      | _, _ => None
      end
  end.

Definition repr (input : list ascii) : option (list ascii) :=
  match repr_body input with
  | Some r => Some (DQ :: r)
  | None => None
  end.

(* ------------------------------------------------------------------ *)
(** ** [serve] *)
(* ------------------------------------------------------------------ *)

(** [HANDLE_COMMAND(MSG_NAME)], once [chunk == #MSG_NAME] holds: a result
    other than zero is the command result and ends the loop. *)
Definition HANDLE_COMMAND (name : list ascii) (handler : M Z) (again : M Z)
  : M Z :=
  rc <- handler ;;
  emit (HandlerResult name rc) ;;
  if negb (rc =? 0) then ret rc else again.

(** The [while (std::cin >> chunk)] loop; its value is [commandResult]. *)
Fixpoint dispatch (fuel : nat) : M Z :=
  match fuel with
  | O => fun _ => OutOfFuel
  | S f =>
      word <- input IStream.read_word ;;
      match word with
      | None => ret 0
      | Some w =>
          set_chunk w ;;
          if bytes_eqb w (bytes "send") then
            HANDLE_COMMAND w sendHandler (dispatch f)
          else if bytes_eqb w (bytes "receive") then
            HANDLE_COMMAND w receiveHandler (dispatch f)
          else if bytes_eqb w (bytes "consume") then
            HANDLE_COMMAND w consumeHandler (dispatch f)
          else if bytes_eqb w (bytes "count") then
            HANDLE_COMMAND w countHandler (dispatch f)
          else if bytes_eqb w (bytes "msgsize") then
            HANDLE_COMMAND w msgsizeHandler (dispatch f)
          else if bytes_eqb w (bytes "maxmsg") then
            HANDLE_COMMAND w maxmsgHandler (dispatch f)
          else if bytes_eqb w (bytes "close") then
            ret 0
          else
            emit (UnknownCommand w) ;;
            locked stderrMutex
              (cerr [bytes "Unknown command "; [DQ]; w; [DQ]]) ;;
            ret 1
      end
  end.

(** What is left of the world when [serve] returns. *)
Record World := mkWorld {
  w_cin : IStream.t;
  w_env : Env
}.

(** [serve].  Every turn of the loop extracts a word, at least one byte of
    input: one turn more than there are bytes is fuel enough. *)
Definition serve (mq : Z) (o : Options) (w : World) : outcome Z World :=
  match mq_getattr_script (w_env w) with
  | [] => Blocked []
  | (rc, error, attributes) :: rest =>
      let e := set_mq_getattr_script rest (w_env w) in
      if negb (rc =? 0) then
        Ret rc
            [MqGetattr rc;
             Cerr (line [bytes "Unable to get queue attributes initially: ";
                         strerror error])]
            (mkWorld (w_cin w) e)
      else
        let body : M Z :=
          (if debug o then
             match repr (queueName o) with
             | Some name =>
                 cerr [bytes "Got the following attributes for message queue ";
                       name; bytes ":  mq_maxmsg=";
                       print_Z (mq_maxmsg attributes);
                       bytes " mq_msgsize="; print_Z (mq_msgsize attributes);
                       bytes " mq_curmsgs="; print_Z (mq_curmsgs attributes)]
             | None => crash
             end
           else ret tt) ;;
          commandResult <- dispatch (S (length (IStream.data (w_cin w)))) ;;
          closeResult <- closeHandler ;;
          (* ThreadJoinGuard::~ThreadJoinGuard *)
          sh <- get_shared ;;
          when (consumerThreadExists sh)
            (emit (PthreadJoin (consumerThread sh))) ;;
          ret (if negb (commandResult =? 0) then commandResult
               else closeResult) in
        match
          log_then [MqGetattr rc]
            (body (mkSt (Shared_new mq (mq_msgsize attributes) o) []
                        (w_cin w) e))
        with
        | Ret a l s => Ret a l (mkWorld (cin s) (env s))
        | Blocked l => Blocked l
        | Crash l => Crash l
        | OutOfFuel => OutOfFuel
        end
  end.

(* ------------------------------------------------------------------ *)
(** ** Reading a log *)
(* ------------------------------------------------------------------ *)

(** The events of a block run under
    [Lock lock(mutex, consumerThreadExists)]. *)
Definition guarded (b : bool) (m : mutex) (evs : list event) : list event :=
  (if b then [Acquire m] else []) ++ evs ++ (if b then [Release m] else []).

Definition debug_log (sh : Shared) (pieces : list (list ascii)) : list event :=
  if debug (options sh)
  then guarded (consumerThreadExists sh) stderrMutex [Cerr (line pieces)]
  else [].

(** The bytes that reached standard output. *)
Fixpoint stdout_bytes (log : list event) : list ascii :=
  match log with
  | [] => []
  | Cout text :: l => text ++ stdout_bytes l
  | SysWrite buf rc :: l =>
      (if rc <? 0 then [] else firstn (Z.to_nat rc) buf) ++ stdout_bytes l
  | _ :: l => stdout_bytes l
  end.

Definition is_Cerr (e : event) : bool :=
  match e with Cerr _ => true | _ => false end.
Definition is_Cout (e : event) : bool :=
  match e with Cout _ => true | _ => false end.
Definition is_MqSend (e : event) : bool :=
  match e with MqSend _ _ _ => true | _ => false end.
Definition is_MqReceive (e : event) : bool :=
  match e with MqReceive _ _ => true | _ => false end.
Definition is_MqClose (e : event) : bool :=
  match e with MqClose _ => true | _ => false end.
Definition is_Sigaction (e : event) : bool :=
  match e with Sigaction => true | _ => false end.
Definition is_PthreadCreate (e : event) : bool :=
  match e with PthreadCreate _ _ => true | _ => false end.
Definition is_task_created (e : event) : bool :=
  match e with PthreadCreate rc _ => rc =? 0 | _ => false end.
Definition is_consume_result (e : event) : bool :=
  match e with
  | HandlerResult verb _ => bytes_eqb verb (bytes "consume")
  | _ => false
  end.

Definition count (p : event -> bool) (log : list event) : nat :=
  length (filter p log).

Definition mutex_eqb (a b : mutex) : bool :=
  match a, b with
  | stoppedMutex, stoppedMutex | stdoutMutex, stdoutMutex
  | stderrMutex, stderrMutex => true
  | _, _ => false
  end.

(** Is mutex [m] held by the foreground thread after [log]?  [before] tells
    whether it was held at the start. *)
Fixpoint held (m : mutex) (before : bool) (log : list event) : bool :=
  match log with
  | [] => before
  | Acquire m' :: l => held m (if mutex_eqb m m' then true else before) l
  | Release m' :: l => held m (if mutex_eqb m m' then false else before) l
  | _ :: l => held m before l
  end.

(** The results of the handlers the dispatch loop ran, in order. *)
Fixpoint handler_results (log : list event) : list Z :=
  match log with
  | [] => []
  | HandlerResult _ rc :: l => rc :: handler_results l
  | _ :: l => handler_results l
  end.

Fixpoint close_results (log : list event) : list Z :=
  match log with
  | [] => []
  | MqClose rc :: l => rc :: close_results l
  | _ :: l => close_results l
  end.

Definition first_nonzero (l : list Z) : option Z :=
  find (fun rc => negb (rc =? 0)) l.

(** [commandResult] as the log shows it: the first handler result other
    than zero, or 1 at an unknown command; 0 when the loop met neither. *)
Fixpoint primary (log : list event) : Z :=
  match log with
  | [] => 0
  | HandlerResult _ rc :: l => if rc =? 0 then primary l else rc
  | UnknownCommand _ :: _ => 1
  | _ :: l => primary l
  end.

(** Events of the dispatch loop itself and of the shutdown that follows
    it. *)
Definition loop_event (e : event) : bool :=
  match e with HandlerResult _ _ | UnknownCommand _ => true | _ => false end.
Definition shutdown_event (e : event) : bool :=
  match e with
  | SetStopped | MqClose _ | PthreadKill _ | PthreadJoin _ => true
  | Acquire stoppedMutex | Release stoppedMutex => true
  | _ => false
  end.

(** What the command handlers other than [consume] do: locks on the two
    streams, stream output, and calls on the queue. *)
Definition io_event (e : event) : bool :=
  match e with
  | Acquire stdoutMutex | Acquire stderrMutex
  | Release stdoutMutex | Release stderrMutex => true
  | Cout _ | Cerr _ | SysWrite _ _ | MqSend _ _ _ | MqReceive _ _
  | MqGetattr _ => true
  | _ => false
  end.

(* ------------------------------------------------------------------ *)
(** ** Predicates of the statements below *)
(* ------------------------------------------------------------------ *)

Definition is_SetStopped (e : event) : bool :=
  match e with SetStopped => true | _ => false end.
Definition is_consume_ok (e : event) : bool :=
  match e with
  | HandlerResult verb rc => bytes_eqb verb (bytes "consume") && (rc =? 0)
  | _ => false
  end.

(** Does every event that satisfies [p] happen while the foreground thread
    holds mutex [m]?  [before] tells whether it holds [m] at the start. *)
Fixpoint under_lock (m : mutex) (p : event -> bool) (before : bool)
  (log : list event) : bool :=
  match log with
  | [] => true
  | e :: l =>
      (if p e then before else true) && under_lock m p (held m before [e]) l
  end.

(** What the log of one command handler looks like to the dispatch loop:
    nothing of the loop's own, nothing of the shutdown, and the signal
    handler and the thread only where the command is [consume]. *)
Definition handler_log (consume : bool) (rc : Z) (lh : list event) : Prop :=
  Forall (fun e => loop_event e = false /\ shutdown_event e = false) lh /\
  count is_Sigaction lh = (if consume then 1 else 0)%nat /\
  count is_PthreadCreate lh = (if consume then 1 else 0)%nat /\
  count is_task_created lh = (if consume && (rc =? 0)%Z then 1 else 0)%nat.

(** What the log of the dispatch loop looks like when it ends with
    [commandResult = cr]. *)
Definition loop_log (cr : Z) (log : list event) : Prop :=
  primary log = cr /\
  Forall (fun e => shutdown_event e = false) log /\
  count is_Sigaction log = count is_consume_result log /\
  count is_PthreadCreate log = count is_consume_result log /\
  count is_task_created log = count is_consume_ok log.

(** The input and the answers of [mq_receive] that are left do not grow. *)
Definition shrinks (s s' : St) : Prop :=
  (length (IStream.data (cin s')) <= length (IStream.data (cin s)))%nat /\
  (length (mq_receive_script (env s')) <= length (mq_receive_script (env s)))%nat.

(** A computation is [quiet] when it emits input/output events only, leaves
    [shared] as it is, and takes from standard input and from the answers of
    [mq_receive] without adding to them. *)
Definition quiet {A} (m : M A) : Prop :=
  forall s a l s', m s = Ret a l s' ->
    Forall (fun e => io_event e = true) l /\ shared s' = shared s /\ shrinks s s'.

(** A computation that never runs out of fuel. *)
Definition fueled {A} (m : M A) : Prop := forall s, m s <> OutOfFuel.

(** Every value the computation returns satisfies [P]. *)
Definition returns {A} (P : A -> Prop) (m : M A) : Prop :=
  forall s a l s', m s = Ret a l s' -> P a.


(** An answer of [mq_send] that is a transient interruption. *)
Definition interrupted (o : Z * Z) : bool := (fst o =? -1) && (snd o =? EINTR).

(** How many answers at the head of a script are interruptions. *)
Fixpoint interruptions (script : list (Z * Z)) : nat :=
  match script with
  | o :: l => if interrupted o then S (interruptions l) else O
  | [] => O
  end.

(** The ways in which the tail of a [send] command can be malformed, and
    the value [sendHandler] returns for each. *)
Inductive send_failure :=
| UnreadablePriority | UnreadableSize | NegativeSize | ShortPayload.

Definition failure_code (k : send_failure) : Z :=
  match k with
  | UnreadablePriority => 1
  | UnreadableSize => 2
  | NegativeSize => 4
  | ShortPayload => 5
  end.

(** The value [sendHandler] returns when [mq_send] fails. *)
Definition ENQUEUE_FAILED : Z := 3.

(** The tail of a [send] command as the protocol reads it: a priority, a
    size, one separator and [size] bytes of payload.  It is malformed in one
    of the four ways, or declares a payload for which [memory] has no room,
    or is well formed: then it gives the priority, the size, the payload and
    the input left over. *)
Inductive request :=
| Malformed (k : send_failure)
| TooLarge
| WellFormed (priority size : Z) (payload : list ascii) (rest : IStream.t).

Definition send_request (memory : Z) (c : IStream.t) : request :=
  match IStream.read_unsigned c with
  | (None, _) => Malformed UnreadablePriority
  | (Some priority, c1) =>
      match IStream.read_ssize_t c1 with
      | (None, _) => Malformed UnreadableSize
      | (Some size, c2) =>
          if size <? 0 then Malformed NegativeSize
          else if size =? 0 then WellFormed priority size [] (IStream.ignore c2)
          else if memory <? size then TooLarge
          else
            let (got, c4) := IStream.read size (IStream.ignore c2) in
            if IStream.fail c4 || negb (len got =? size)
            then Malformed ShortPayload
            else WellFormed priority size got c4
      end
  end.

(* ------------------------------------------------------------------ *)
(** ** Sample sessions *)
(* ------------------------------------------------------------------ *)

Definition sample_options : Options :=
  mkOptions READ_WRITE OPEN_CREATE 384 false (-1) (-1) false false
            (bytes "/q").

Definition sample_attr : mq_attr := mk_attr 10 8 3.

(** A session state with no background task: message size 8, the given
    input and answers of the system. *)
Definition sample_state (input : string) (e : Env) : St :=
  mkSt (Shared_new 3 8 sample_options) (bytes "verb")
       (IStream.of_bytes (bytes input)) e.

Definition no_input : string := EmptyString.

Definition sample_world (input : string) (e : Env) : World :=
  mkWorld (IStream.of_bytes (bytes input)) e.

(** The system answers every call with success. *)
Definition calm : Env :=
  mkEnv [(0, 0)] [Message (bytes "hello") 2] [(10, 0)]
        [(0, 0, sample_attr); (0, 0, sample_attr)] [(0, 0)]
        [(0, 0, 7); (0, 0, 8)] 4096.

(** A signal interrupts the first dequeue, a message arrives at the
    second. *)
Definition interrupted_once : Env :=
  set_mq_receive_script [ReceiveError EINTR; Message (bytes "hello") 2] calm.

(** [write] accepts four bytes, then six. *)
Definition partial_write : Env := set_write_script [(4, 0); (6, 0)] calm.

(** [mq_send] is interrupted twice, then succeeds. *)
Definition interrupted_twice : Env :=
  set_mq_send_script [(-1, EINTR); (-1, EINTR); (0, 0)] calm.

(* ------------------------------------------------------------------ *)
(** ** Statements of the specification that the program does not meet *)
(* ------------------------------------------------------------------ *)

(** Specification: the exit code is the first handler result other than
    zero if there is one, the result of the close handler otherwise. *)
Definition exit_code_first_failure_else_close : Prop :=
  forall mq o w code log w',
    serve mq o w = Ret code log w' ->
    (exists error a rest, mq_getattr_script (w_env w) = (0, error, a) :: rest) ->
    exists cl,
      close_results log = [cl] /\
      code = match first_nonzero (handler_results log) with
             | Some rc => rc
             | None => cl
             end.

(** Specification: a session never creates a second background task and
    installs the signal handler once. *)
Definition at_most_one_background_task : Prop :=
  forall mq o w code log w',
    serve mq o w = Ret code log w' ->
    (count is_task_created log <= 1)%nat /\ (count is_Sigaction log <= 1)%nat.

(** Specification: when the query of the attributes fails, the handler
    returns the underlying error code. *)
Definition returns_error_code_of_query (h : M Z) : Prop :=
  forall s rc error attributes rest,
    mq_getattr_script (env s) = (rc, error, attributes) :: rest ->
    rc <> 0 ->
    exists log s', h s = Ret error log s'.

(* ------------------------------------------------------------------ *)
(** ** The command line: [usage], [help], [FindArgs] and [checkArgs] *)
(* ------------------------------------------------------------------ *)

(** The command line is [argv0 :: args]: the name of the program, which the
    system always passes, and the arguments [argv + 1 .. argv + argc]. *)

Definition blank : string := EmptyString.

(** A text given line by line: every line is followed by a newline. *)
Definition text (lines : list string) : list ascii :=
  concat (map (fun l => bytes l ++ [NL]) lines).

(** What [usage] and [help] write to [out]. *)
Definition usage (argv0 : list ascii) : list ascii :=
  bytes "usage: " ++ argv0 ++ bytes "  <options ...>  <message queue>" ++ [NL]
  ++ bytes "       " ++ argv0 ++ bytes " --help" ++ [NL].

Definition help (argv0 : list ascii) : list ascii :=
  argv0 ++
  text
    ["  <Options ...>  <Message Queue>";
     blank;
     "Options:";
     "--help      print this prompt to standard output";
     "--readme    print the README file for this utility";
     "--read      open the queue receiving messages";
     "--write     open the queue for sending messages";
     "--open      open the queue (if without --create, then only if existing)";
     "--create    create the queue (if without --open, then exclusively)";
     "--permissions <octal>    Unix file permissions to use if creating queue ";
     "--maxmsg    maximum number of messages to allow in the queue, if possible";
     "--msgsize   maximum size of any message in the queue, if possible";
     "--unlink    unlink the specified message queue (see MQ_UNLINK(3))";
     "--debug     print to stderr trace useful when debugging";
     blank;
     "If --unlink is specified, the only other option that may be specified is";
     "--debug.";
     blank;
     "Otherwise, at least one of --create and/or --open must be specified, and at";
     "least one of --read and/or --write must be specified.  If either of";
     "--maxmsg or --msgsize is specified, then the other must be specified as";
     "well.";
     blank;
     "Message Queue:";
     "The name of the POSIX local message queue to open (and possibly create).";
     "Note that on many systems, message queue names are required to begin with a";
     "forward slash.  Also note that message queues are not necessarily visible";
     "on the file system."]%string.

(** The template's [README], before the build splices the file in. *)
Definition README : list ascii := bytes "<make, insert README here>".

(** [FindArgs::operator()]: the place of the first argument equal to
    [argument], counted from [argv + 1]; [None] is the null pointer. *)
Fixpoint FindArgs (args : list (list ascii)) (argument : string) : option nat :=
  match args with
  | [] => None
  | a :: rest =>
      if bytes_eqb a (bytes argument) then Some O
      else option_map S (FindArgs rest argument)
  end.

(** A [find(...)] used as a condition. *)
Definition given (args : list (list ascii)) (argument : string) : bool :=
  match FindArgs args argument with Some _ => true | None => false end.

(** How [checkArgs] ends: it returns to [main], it ends the process through
    [std::exit], or an [assert] of [repr] aborts it.  What the streams hold
    at an abort is not followed. *)
Inductive verdict :=
| Returned (rc : Z)
| Exited (status : Z)
| Aborted.

Definition flags : list string :=
  ["read"; "write"; "open"; "create"; "msgsize"; "maxmsg"; "readme";
   "debug"]%string.

(** The test of the [for] loop of [checkArgs]: [arg] looks like a flag and
    what follows its two dashes is none of [flags]. *)
Definition unsupported (arg : list ascii) : bool :=
  (2 <? len arg)
  && bytes_eqb (firstn 2 arg) (bytes "--")
  && negb (existsb (fun flag => bytes_eqb (bytes flag) (skipn 2 arg)) flags).

(** [argv[argc - 1][0] == '-'] *)
Definition dashed (arg : list ascii) : bool :=
  match arg with
  | c :: _ => Ascii.eqb c "-"
  | [] => false
  end.

(** [checkArgs]: its verdict and what it wrote. *)
Definition checkArgs (argv0 : list ascii) (args : list (list ascii))
  : verdict * list event :=
  let argc := 1 + Z.of_nat (length args) in
  if argc <? 2 then (Returned 1, [Cerr (usage argv0)])
  else if given args "--help" || given args "-h" then
    (Exited 0, [Cout (help argv0)])
  else if given args "--readme" then (Exited 0, [Cout README])
  else if dashed (last args argv0) then
    (Returned 6,
     [Cerr (bytes "Final argument must be a non-option (the queue name)." ++ [NL])])
  else
  let unlink := given args "--unlink" in
  if unlink
     && ((given args "--debug" && negb (argc =? 4)) || negb (argc =? 3))
  then
    (Returned 2, [Cerr (bytes "--unlink must be alone or with --debug." ++ [NL])])
  else if unlink then (Returned 0, [])
  else if negb (given args "--read") && negb (given args "--write") then
    (Returned 3,
     [Cerr (bytes "One or both of --read and --write must be specified." ++ [NL])])
  else if negb (given args "--open") && negb (given args "--create") then
    (Returned 4,
     [Cerr (bytes "One or both of --open and --create must be specified." ++ [NL])])
  else if negb (Bool.eqb (given args "--msgsize") (given args "--maxmsg"))
  then
    (Returned 5,
     [Cerr (bytes "Specify neither of both of --msgsize and --maxmsg." ++ [NL])])
  else
    (* every argument but the last *)
    match List.find unsupported (removelast args) with
    | Some arg =>
        match repr arg with
        | Some quoted =>
            (Returned 6,
             [Cerr (bytes "Unrecognized option " ++ quoted ++ [NL])])
        | None => (Aborted, [])
        end
    | None => (Returned 0, [])
    end.

(* ------------------------------------------------------------------ *)
(** ** [parseOptions] *)
(* ------------------------------------------------------------------ *)

(** [Options::Options]; [0600] is 384. *)
Definition Options_new : Options :=
  mkOptions READ_WRITE OPEN_CREATE 384 false (-1) (-1) false false [].

(** [ToSsize::operator()]: the number a string stream extracts from the
    text.  When the extraction fails the language gives [result] no value
    that all its revisions agree on (none before C++11; zero or a limit of
    the type since): [None]. *)
Definition toSsize (string : list ascii) : option Z :=
  fst (IStream.read_ssize_t (IStream.of_bytes string)).

(** [toSsize( *(option + 1))] for an option found at [place].  After the
    last argument comes the null pointer [argv[argc]], from which nothing
    is extracted. *)
Definition value_after (args : list (list ascii)) (place : nat) : option Z :=
  match nth_error args (S place) with
  | Some string => toSsize string
  | None => None
  end.

(** [parseOptions]; [None] where a number the command line was to give
    has no value (see [toSsize]). *)
Definition parseOptions (argv0 : list ascii) (args : list (list ascii))
  : option Options :=
  let options := Options_new in
  let debug := given args "--debug" in
  let queueName := last args argv0 in
  if given args "--unlink" then
    Some (mkOptions (operation options) (open options)
            (filePermissions options) (maxesSpecified options)
            (maxmsg options) (opt_msgsize options) true debug queueName)
  else
  let read := given args "--read" in
  let write := given args "--write" in
  let operation :=
    if read && write then READ_WRITE
    else if read then READ_ONLY else WRITE_ONLY in
  let open_ := given args "--open" in
  let create := given args "--create" in
  let open :=
    if open_ && create then OPEN_CREATE
    else if open_ then OPEN_ONLY else CREATE_ONLY in
  let maxmsgOption := FindArgs args "--maxmsg" in
  let msgsizeOption := FindArgs args "--msgsize" in
  match
    match maxmsgOption with
    | Some place => value_after args place
    | None => Some (maxmsg options)
    end,
    match msgsizeOption with
    | Some place => value_after args place
    | None => Some (opt_msgsize options)
    end
  with
  | Some maxmsg, Some msgsize =>
      Some (mkOptions operation open (filePermissions options)
              (given args "--maxmsg" || given args "--msgsize")
              maxmsg msgsize (unlink options) debug queueName)
  | _, _ => None
  end.

(* ------------------------------------------------------------------ *)
(** ** [openQueue] and [main] *)
(* ------------------------------------------------------------------ *)

(** [<fcntl.h>] (Linux numbering). *)
Definition O_RDONLY : Z := 0.
Definition O_WRONLY : Z := 1.
Definition O_RDWR : Z := 2.
Definition O_CREAT : Z := 64.
Definition O_EXCL : Z := 128.

(** What [main] does before the session: output, and the two calls that
    name the queue.  [attributes] of [MqOpen] is the pair
    [(mq_maxmsg, mq_msgsize)] behind the pointer passed to [mq_open], [None]
    for the null pointer. *)
Inductive action :=
| Say (e : event)
| MqUnlink (name : list ascii) (rc : Z)
| MqOpen (name : list ascii) (oflag mode : Z) (attributes : option (Z * Z))
         (mqd : Z).

(** [openQueue], where [mq_open] returns [mqd]: what it does; [None] where
    an [assert] of [repr] aborts it. *)
Definition openQueue (options : Options) (mqd : Z) : option (list action) :=
  let openFlags := 0 in
  let openFlags :=
    match operation options with
    | READ_ONLY => Z.lor openFlags O_RDONLY
    | WRITE_ONLY => Z.lor openFlags O_WRONLY
    | READ_WRITE => Z.lor openFlags O_RDWR
    end in
  let openFlags :=
    match open options with
    | OPEN_ONLY => openFlags
    | CREATE_ONLY => Z.lor openFlags (Z.lor O_EXCL O_CREAT)
    | OPEN_CREATE => Z.lor openFlags O_CREAT
    end in
  let attributesPtr :=
    if maxesSpecified options
    then Some (maxmsg options, opt_msgsize options) else None in
  let call :=
    MqOpen (queueName options) openFlags (filePermissions options)
           attributesPtr mqd in
  if debug options then
    match repr (queueName options) with
    | Some name =>
        Some [Say (Cerr (line [bytes "Attempting to open a message queue named ";
                               name]));
              call]
    | None => None
    end
  else Some [call].

(** What the system answers to [main]: the value and [errno] of
    [mq_unlink] and of [mq_open], and the world of the session. *)
Record Host := mkHost {
  mq_unlink_answer : Z * Z;
  mq_open_answer : Z * Z;
  host_world : World
}.

(** [main]: what it does before the session, then the outcome of the
    process, which is the outcome of [serve] once the queue is open.
    [errno] is read after the diagnostic is written; it is taken to be what
    the failed call left.  [None] where [parseOptions] has no value. *)
Definition main (argv0 : list ascii) (args : list (list ascii)) (h : Host)
  : option (list action * outcome Z World) :=
  let w := host_world h in
  match checkArgs argv0 args with
  | (Exited status, out) => Some (map Say out, Ret status [] w)
  | (Aborted, out) => Some (map Say out, Crash [])
  | (Returned rc, out) =>
      if negb (rc =? 0) then Some (map Say out, Ret rc [] w)
      else
        match parseOptions argv0 args with
        | None => None
        | Some options =>
            if unlink options then
              let (rc, error) := mq_unlink_answer h in
              let call := MqUnlink (queueName options) rc in
              if rc =? -1 then
                match repr (queueName options) with
                | Some name =>
                    Some (map Say out
                          ++ [call;
                              Say (Cerr (bytes "Unable to unlink queue "
                                         ++ name ++ bytes ": "
                                         ++ strerror error ++ [NL]))],
                          Ret error [] w)
                | None => Some (map Say out ++ [call], Crash [])
                end
              else Some (map Say out ++ [call], Ret 0 [] w)
            else
              let (mq, error) := mq_open_answer h in
              match openQueue options mq with
              | None => Some (map Say out, Crash [])
              | Some opening =>
                  if mq =? -1 then
                    match repr (queueName options) with
                    | Some name =>
                        Some (map Say out ++ opening
                              ++ [Say (Cerr (bytes "Unable to open queue named "
                                             ++ name ++ bytes ": "
                                             ++ strerror error ++ [NL]))],
                              Ret error [] w)
                    | None => Some (map Say out ++ opening, Crash [])
                    end
                  else Some (map Say out ++ opening, serve mq options w)
              end
        end
  end.

(* ------------------------------------------------------------------ *)
(** ** The consumer thread: [consume] *)
(* ------------------------------------------------------------------ *)

(** What the thread returns: the null pointer when it is done, [data] after
    an error. *)
Inductive pointer := null | data.

(** The [for (;;)] of [consume].  The thread is followed on its own: the
    state is what it reaches, [chunk] being its local [buffer]. *)
Fixpoint consume_loop (fuel : nat) : M pointer :=
  match fuel with
  | O => fun _ => OutOfFuel
  | S f =>
      rc <- doReceive ;;
      if rc =? FAIL_INTERRUPTED_OR_CLOSED then
        lock <- Lock_new stoppedMutex true ;;
        sh <- get_shared ;;
        if stopped sh then
          when (debug (options sh))
            (lock' <- Lock_new stderrMutex true ;;
             cerr [bytes "Consumer thread is finishing."] ;;
             Lock_delete lock') ;;
          Lock_delete lock ;;
          ret null
        else
          Lock_delete lock ;;
          consume_loop f
      else if negb (rc =? 0) then ret data
      else consume_loop f
  end.

(** Every turn of the loop that is followed by another takes one answer of
    [mq_receive]: one turn more than there are answers is fuel enough. *)
Definition consume : M pointer :=
  set_chunk [] ;;
  (fun s => consume_loop (S (length (mq_receive_script (env s)))) s).

(* ------------------------------------------------------------------ *)
(** ** [splice-readme.cpp] *)
(* ------------------------------------------------------------------ *)

Module SpliceReadme.

(** The lines [std::getline] extracts from a file until it fails: a newline
    ends a line and is dropped; what follows the last newline is a line
    when it is not empty.  [acc] is the line being read, backwards. *)
Fixpoint getlines (acc : list ascii) (file : list ascii)
  : list (list ascii) :=
  match file with
  | [] => match acc with [] => [] | _ => [rev acc] end
  | c :: rest =>
      if Ascii.eqb c NL then rev acc :: getlines [] rest
      else getlines (c :: acc) rest
  end.

(** The line of the source that stands for the README. *)
Definition placeholder : list ascii :=
  [DQ] ++ bytes "<make, insert README here>" ++ [DQ].

(** The inner loop: every line of the README, its newline put back, as a
    string literal on a line of its own. *)
Fixpoint quote (lines : list (list ascii)) : option (list ascii) :=
  match lines with
  | [] => Some []
  | line :: rest =>
      match repr (line ++ [NL]), quote rest with
      | Some literal, Some more => Some (literal ++ [NL] ++ more)
      | _, _ => None
      end
  end.

(** The outer loop over the lines of the source. *)
Fixpoint splice (lines : list (list ascii)) (readme : list ascii)
  : option (list ascii) :=
  match lines with
  | [] => Some []
  | line :: rest =>
      if negb (bytes_eqb line placeholder) then
        match splice rest readme with
        | Some more => Some (line ++ [NL] ++ more)
        | None => None
        end
      else
        match quote (getlines [] readme), repr [NL], splice rest readme with
        | Some literals, Some last_, Some more =>
            Some (literals ++ last_ ++ [NL] ++ more)
        | _, _, _ => None
        end
  end.

(** [main], for the contents of the two files: what it writes to standard
    output, [None] where an [assert] of [repr] aborts it. *)
Definition main (source readme : list ascii) : option (list ascii) :=
  splice (getlines [] source) readme.

End SpliceReadme.

(* ------------------------------------------------------------------ *)
(** ** Sample states of a session with a consumer thread *)
(* ------------------------------------------------------------------ *)

(** A consumer thread, number 7, exists; [stop] is the shutdown flag. *)
Definition background (stop : bool) : Shared :=
  mkShared stop 3 8 true 7 sample_options.

(** The state the consumer thread starts in. *)
Definition consumer_state (stop : bool) (e : Env) : St :=
  mkSt (background stop) [] (IStream.of_bytes []) e.

(** The state a handler of the foreground thread runs in meanwhile. *)
Definition foreground_state (verb : string) (e : Env) : St :=
  mkSt (background false) (bytes verb) (IStream.of_bytes []) e.

(** One message arrives, then the queue is closed. *)
Definition closing : Env :=
  set_mq_receive_script [Message (bytes "hello") 2; ReceiveError EBADF] calm.

(** The query of the attributes fails. *)
Definition no_attributes : Env :=
  set_mq_getattr_script [(-1, EBADF, sample_attr)] calm.

(* ------------------------------------------------------------------ *)
(** ** Predicates on text *)
(* ------------------------------------------------------------------ *)

(** A character that shows on a terminal as itself: [std::isprint]. *)
Definition printable (c : ascii) : bool := (32 <=? code c) && (code c <=? 126).

(** A character that [repr] copies as it is. *)
Definition plain (c : ascii) : bool :=
  printable c && negb (Ascii.eqb c DQ).

(** A byte that is negative as a [char]. *)
Definition high (c : ascii) : bool := 128 <=? code c.

(** A text that is empty or ends with a newline. *)
Definition terminated (file : list ascii) : bool :=
  match rev file with
  | [] => true
  | c :: _ => Ascii.eqb c NL
  end.

(** Where a numeral ends: at the end of the input or before a character
    that is no digit. *)
Definition ends_numeral (rest : list ascii) : Prop :=
  match rest with
  | [] => True
  | c :: _ => IStream.isdigit c = false
  end.

(** What [doReceive] writes to standard output for a message: the
    priority, the size and the payload, and a newline. *)
Definition printed (payload : list ascii) (priority : Z) : list ascii :=
  decimal priority ++ [SP] ++ decimal (len payload) ++ [SP]
  ++ payload ++ [NL].

(** A computation that returns a failure only right after a diagnostic that
    tells it, which all begin with the same words;
    [FAIL_INTERRUPTED_OR_CLOSED] is no failure yet. *)
Definition reports (m : M Z) : Prop :=
  forall s rc l s',
    m s = Ret rc l s' ->
    rc = 0 \/ rc = FAIL_INTERRUPTED_OR_CLOSED \/
    exists before b text,
      l = before
          ++ guarded b stderrMutex [Cerr (bytes "Failed to " ++ text)].

(** The consumer thread that [shared] records after a log, from what it
    recorded before: [consumerThreadExists] and [consumerThread] as the
    last [pthread_create] of the log left them. *)
Fixpoint thread_after (exists_ : bool) (thread : Z) (log : list event)
  : bool * Z :=
  match log with
  | [] => (exists_, thread)
  | PthreadCreate rc created :: l =>
      thread_after (rc =? 0) (if rc =? 0 then created else thread) l
  | _ :: l => thread_after exists_ thread l
  end.

(** The two calls that end a consumer thread. *)
Definition is_thread_end (e : event) : bool :=
  match e with
  | PthreadKill _ | PthreadJoin _ => true
  | _ => false
  end.

(* ------------------------------------------------------------------ *)
(** ** Lock discipline *)
(* ------------------------------------------------------------------ *)

(** The one nesting the program uses: [stderrMutex] taken while
    [stoppedMutex] is held. *)
Definition may_nest (outer inner : mutex) : bool :=
  match outer, inner with
  | stoppedMutex, stderrMutex => true
  | _, _ => false
  end.

Definition holds (held_ : list mutex) (m : mutex) : bool :=
  existsb (mutex_eqb m) held_.

Definition drop (m : mutex) (held_ : list mutex) : list mutex :=
  filter (fun x => negb (mutex_eqb m x)) held_.

(** Follow the mutexes a thread holds along its log and check its
    discipline.  A mutex is acquired only over mutexes it may nest in (so
    never twice) and released only when held; [mq_send], [mq_receive] and
    [pthread_join], which can block for long, are called with no mutex
    held.  [strict] checks moreover that the thread writes to standard
    output holding [stdoutMutex] and to the diagnostics holding
    [stderrMutex].  [None] at the first breach, else the mutexes held at the
    end. *)
Fixpoint discipline (strict : bool) (held_ : list mutex) (log : list event)
  : option (list mutex) :=
  match log with
  | [] => Some held_
  | e :: l =>
      let ok :=
        match e with
        | Acquire m => forallb (fun outer => may_nest outer m) held_
        | Release m => holds held_ m
        | MqSend _ _ _ | MqReceive _ _ | PthreadJoin _ =>
            match held_ with [] => true | _ => false end
        | Cout _ | SysWrite _ _ => negb strict || holds held_ stdoutMutex
        | Cerr _ => negb strict || holds held_ stderrMutex
        | _ => true
        end in
      let held' :=
        match e with
        | Acquire m => m :: held_
        | Release m => drop m held_
        | _ => held_
        end in
      if ok then discipline strict held' l else None
  end.

(** A computation that keeps the discipline: started with [before] held it
    returns with [after] held.  The strict discipline is asked of the states
    in which a consumer thread exists, and the computation leaves it in
    existence. *)
Definition keeps {A} (strict : bool) (before : list mutex) (m : M A)
  (after : list mutex) : Prop :=
  forall s a l s',
    m s = Ret a l s' ->
    (strict = true -> consumerThreadExists (shared s) = true) ->
    discipline strict before l = Some after /\
    (strict = true -> consumerThreadExists (shared s') = true).

(** A computation that leaves an observation [f] of the state as it is. *)
Definition preserves {A T} (f : St -> T) (m : M A) : Prop :=
  forall s a l s', m s = Ret a l s' -> f s' = f s.

(* ------------------------------------------------------------------ *)
(** ** Sessions that show the defects *)
(* ------------------------------------------------------------------ *)

(** [pthread_create] fails with [EAGAIN] for want of resources. *)
Definition EAGAIN : Z := 11.

(** A descriptor that is not open for reading, as [--write] alone leaves
    it: [mq_receive] fails with [EBADF] each of the [n] times it is
    called. *)
Definition not_open_for_reading (n : nat) : Env :=
  set_mq_receive_script (repeat (ReceiveError EBADF) n) calm.

(** The first thread is created, number 7; the second creation fails. *)
Definition second_creation_fails : Env :=
  set_pthread_create_script [(0, 0, 7); (EAGAIN, EAGAIN, 0)] calm.

(** The state in which the foreground thread reads the rest of a [send]
    command while a consumer thread exists. *)
Definition sending_state (input : string) (e : Env) : St :=
  mkSt (background false) (bytes "send") (IStream.of_bytes (bytes input)) e.

(* ------------------------------------------------------------------ *)
(** * Reasoning about computations *)
(* ------------------------------------------------------------------ *)

Lemma log_then_nil {A S} (o : outcome A S) : log_then [] o = o.
Proof. destruct o; reflexivity. Qed.

Lemma log_then_app {A S} l1 l2 (o : outcome A S) :
  log_then l1 (log_then l2 o) = log_then (l1 ++ l2) o.
Proof. destruct o; simpl; rewrite ?app_assoc; reflexivity. Qed.

Lemma Ret_inj {A S} (a a' : A) l l' (s s' : S) :
  Ret a l s = Ret a' l' s' -> a = a' /\ l = l' /\ s = s'.
Proof. intros H; inversion H; auto. Qed.

Lemma log_then_Ret_inv {A S} l (o : outcome A S) a l' s :
  log_then l o = Ret a l' s -> exists l2, o = Ret a l2 s /\ l' = l ++ l2.
Proof.
  destruct o; simpl; intros H; try discriminate.
  inversion H; subst. eauto.
Qed.

Lemma bind_Ret_inv {A B} (m : M A) (k : A -> M B) s b l s' :
  bind m k s = Ret b l s' ->
  exists a l1 s1 l2,
    m s = Ret a l1 s1 /\ k a s1 = Ret b l2 s' /\ l = l1 ++ l2.
Proof.
  unfold bind. destruct (m s) as [a l1 s1| | |]; try discriminate.
  intros H. apply log_then_Ret_inv in H as (l2 & H & ->).
  exists a, l1, s1, l2. auto.
Qed.

Lemma bind_assoc {A B C} (m : M A) (f : A -> M B) (g : B -> M C) s :
  bind (bind m f) g s = bind m (fun x => bind (f x) g) s.
Proof.
  unfold bind. destruct (m s) as [a l1 s1| | |]; try reflexivity.
  destruct (f a s1) as [b l2 s2| | |]; simpl; try reflexivity.
  rewrite log_then_app. reflexivity.
Qed.

(** ** One step of a computation *)

Lemma bind_ret {A B} (a : A) (k : A -> M B) s : bind (ret a) k s = k a s.
Proof. unfold bind, ret. apply log_then_nil. Qed.

Lemma bind_get_shared {B} (k : Shared -> M B) s :
  bind get_shared k s = k (shared s) s.
Proof. unfold bind, get_shared. apply log_then_nil. Qed.

Lemma bind_get_env {B} (k : Env -> M B) s : bind get_env k s = k (env s) s.
Proof. unfold bind, get_env. apply log_then_nil. Qed.

Lemma bind_get_chunk {B} (k : list ascii -> M B) s :
  bind get_chunk k s = k (chunk s) s.
Proof. unfold bind, get_chunk. apply log_then_nil. Qed.

Lemma bind_cin_fail {B} (k : bool -> M B) s :
  bind cin_fail k s = k (IStream.fail (cin s)) s.
Proof. unfold bind, cin_fail. apply log_then_nil. Qed.

Lemma bind_set_chunk {B} c (k : unit -> M B) s :
  bind (set_chunk c) k s = k tt (mkSt (shared s) c (cin s) (env s)).
Proof. unfold bind, set_chunk. apply log_then_nil. Qed.

Lemma bind_modify_shared {B} f (k : unit -> M B) s :
  bind (modify_shared f) k s = k tt (mkSt (f (shared s)) (chunk s) (cin s) (env s)).
Proof. unfold bind, modify_shared. apply log_then_nil. Qed.

Lemma bind_input {A B} (f : IStream.t -> A * IStream.t) (k : A -> M B) s :
  bind (input f) k s =
  k (fst (f (cin s))) (mkSt (shared s) (chunk s) (snd (f (cin s))) (env s)).
Proof.
  unfold bind, input. destruct (f (cin s)); simpl. apply log_then_nil.
Qed.

Lemma bind_emit {B} e (k : unit -> M B) s :
  bind (emit e) k s = log_then [e] (k tt s).
Proof. reflexivity. Qed.

Lemma bind_assert {B} b (k : unit -> M B) s :
  bind (assert b) k s = if b then k tt s else Crash [].
Proof. destruct b; [apply bind_ret | reflexivity]. Qed.

Lemma bind_ask {A B} script rest (k : A -> M B) s :
  bind (ask script rest) k s =
  match script (env s) with
  | [] => Blocked []
  | a :: l => k a (mkSt (shared s) (chunk s) (cin s) (rest l (env s)))
  end.
Proof.
  unfold bind, ask. destruct (script (env s)); [reflexivity|].
  apply log_then_nil.
Qed.

Lemma locked_emit m e s :
  locked m (emit e) s = Ret tt (guarded (consumerThreadExists (shared s)) m [e]) s.
Proof.
  unfold locked, Lock_new, Lock_delete, Lock_acquire, Lock_release, guarded.
  rewrite bind_get_shared.
  destruct (consumerThreadExists (shared s)); reflexivity.
Qed.

Lemma bind_locked_emit {B} m e (k : unit -> M B) s :
  bind (locked m (emit e)) k s =
  log_then (guarded (consumerThreadExists (shared s)) m [e]) (k tt s).
Proof. unfold bind at 1. rewrite locked_emit. reflexivity. Qed.

Lemma debug_line_eq pieces s :
  debug_line pieces s = Ret tt (debug_log (shared s) pieces) s.
Proof.
  unfold debug_line, debug_log, when, cerr. rewrite bind_get_shared.
  destruct (debug (options (shared s))); [apply locked_emit | reflexivity].
Qed.

Lemma bind_debug_line {B} pieces (k : unit -> M B) s :
  bind (debug_line pieces) k s = log_then (debug_log (shared s) pieces) (k tt s).
Proof. unfold bind at 1. rewrite debug_line_eq. reflexivity. Qed.

Lemma bind_Lock_new {B} m b (k : Lock -> M B) s :
  bind (Lock_new m b) k s =
  log_then (if b then [Acquire m] else []) (k (mkLock m b) s).
Proof.
  unfold Lock_new, Lock_acquire. destruct b; simpl.
  - rewrite bind_assoc, bind_emit, bind_ret. reflexivity.
  - rewrite bind_ret, log_then_nil. reflexivity.
Qed.

Lemma bind_Lock_release {B} m b (k : Lock -> M B) s :
  bind (Lock_release (mkLock m b)) k s =
  log_then (if b then [Release m] else []) (k (mkLock m false) s).
Proof.
  unfold Lock_release. destruct b; simpl.
  - rewrite bind_assoc, bind_emit, bind_ret. reflexivity.
  - rewrite bind_ret, log_then_nil. reflexivity.
Qed.

Lemma bind_Lock_delete {B} m b (k : unit -> M B) s :
  bind (Lock_delete (mkLock m b)) k s =
  log_then (if b then [Release m] else []) (k tt s).
Proof.
  unfold Lock_delete, Lock_release. destruct b; simpl.
  - rewrite !bind_assoc, bind_emit, !bind_ret. reflexivity.
  - rewrite bind_ret, log_then_nil. reflexivity.
Qed.

Lemma bind_zoom {A T B} script rest (f : list T -> outcome A (list T))
  (k : A -> M B) s :
  bind (zoom script rest f) k s =
  match f (script (env s)) with
  | Ret a l r =>
      log_then l (k a (mkSt (shared s) (chunk s) (cin s) (rest r (env s))))
  | Blocked l => Blocked l
  | Crash l => Crash l
  | OutOfFuel => OutOfFuel
  end.
Proof. unfold bind, zoom. destruct (f (script (env s))); reflexivity. Qed.

(** ** Standard input only shrinks *)

Module IStreamFacts.
Import IStream.

Lemma skipws_length l : (length (skipws l) <= length l)%nat.
Proof.
  induction l as [|c l IH]; simpl; [lia|].
  destruct (isspace c); simpl; lia.
Qed.

Lemma span_length p l : (length (snd (span p l)) <= length l)%nat.
Proof.
  induction l as [|c l IH]; simpl; [lia|].
  destruct (p c); simpl; [|lia].
  destruct (span p l); simpl in *; lia.
Qed.

Lemma span_first p c l : p c = true -> (length (snd (span p (c :: l))) < length (c :: l))%nat.
Proof.
  intros H. simpl. rewrite H.
  pose proof (span_length p l). destruct (span p l); simpl in *; lia.
Qed.

Lemma skipws_head c l : skipws (c :: l) = c :: l -> isspace c = false.
Proof.
  simpl. destruct (isspace c); [|reflexivity].
  intros H. pose proof (skipws_length l). rewrite H in H0. simpl in H0. lia.
Qed.

Lemma skipws_no_space l c r : skipws l = c :: r -> isspace c = false.
Proof.
  induction l as [|x l IH]; simpl; [discriminate|].
  destruct (isspace x) eqn:E; [exact IH|].
  intros H; inversion H; subst; exact E.
Qed.

Lemma sentry_length b s :
  (length (data (snd (sentry b s))) <= length (data s))%nat.
Proof.
  unfold sentry. destruct (good s); [|simpl; lia].
  destruct b; [simpl; lia|].
  pose proof (skipws_length (data s)).
  destruct (skipws (data s)); simpl in *; lia.
Qed.

Lemma read_int_length sg lo hi s :
  (length (data (snd (read_int sg lo hi s))) <= length (data s))%nat.
Proof.
  unfold read_int.
  pose proof (sentry_length false s) as Hs.
  destruct (sentry false s) as [[|] s1]; simpl in *; [|lia].
  assert (Hsign : forall neg after,
    (length after <= length (data s1))%nat ->
    (length (data (snd (
       let (ds, rest) := span isdigit after in
       let eof := match rest with [] => true | _ => eofbit s1 end in
       let magnitude := digits_value ds in
       let limit := if (neg : bool) && sg then (- lo)%Z else hi in
       match ds with
       | [] => (@None Z, mk rest eof true)
       | _ =>
         if (limit <? magnitude)%Z then (None, mk rest eof true)
         else (Some (if neg then (if sg then (- magnitude)%Z else ((hi + 1 - magnitude) mod (hi + 1))%Z) else magnitude),
               mk rest eof (failbit s1))
       end))) <= length (data s))%nat).
  { intros neg after Ha. pose proof (span_length isdigit after) as Hp.
    destruct (span isdigit after) as [ds rest]; simpl in *.
    destruct ds; simpl; [lia|].
    match goal with |- context [if ?c then _ else _] => destruct c end; simpl; lia. }
  destruct (data s1) as [|c l] eqn:E.
  - apply Hsign. simpl; lia.
  - destruct (Ascii.eqb c "-"); [apply Hsign; simpl; lia|].
    destruct (Ascii.eqb c "+"); apply Hsign; simpl; lia.
Qed.

Lemma ignore_length s : (length (data (ignore s)) <= length (data s))%nat.
Proof.
  unfold ignore.
  pose proof (sentry_length true s) as Hs.
  destruct (sentry true s) as [[|] s1]; simpl in *; [|lia].
  unfold set_eof. destruct (data s1) eqn:E; simpl in *; rewrite ?E; simpl; lia.
Qed.

Lemma read_length n s :
  (length (data (snd (read n s))) <= length (data s))%nat.
Proof.
  unfold read.
  pose proof (sentry_length true s) as Hs.
  destruct (sentry true s) as [[|] s1]; simpl in *; [|lia].
  pose proof (length_skipn (Z.to_nat n) (data s1)).
  match goal with |- context [if ?c then _ else _] => destruct c end; simpl; lia.
Qed.

Lemma read_word_length s :
  (length (data (snd (read_word s))) <= length (data s))%nat.
Proof.
  unfold read_word.
  pose proof (sentry_length false s) as Hs.
  destruct (sentry false s) as [[|] s1]; simpl in *; [|lia].
  pose proof (span_length (fun c => negb (isspace c)) (data s1)).
  destruct (span _ (data s1)); simpl in *; lia.
Qed.

(** A word that is extracted takes at least one byte. *)
Lemma read_word_consumes s w :
  fst (read_word s) = Some w ->
  (length (data (snd (read_word s))) < length (data s))%nat.
Proof.
  unfold read_word, sentry.
  destruct (good s); [|discriminate].
  pose proof (skipws_length (data s)) as Hk.
  destruct (skipws (data s)) as [|c r] eqn:E; [discriminate|].
  apply skipws_no_space in E.
  cbn [data fst snd]. intros _.
  pose proof (span_first (fun c => negb (isspace c)) c r) as Hf.
  cbv beta in Hf. rewrite E in Hf. specialize (Hf eq_refl).
  destruct (span _ (c :: r)); simpl in *; lia.
Qed.

End IStreamFacts.

(** ** What the input/output handlers leave alone *)

Lemma shrinks_refl s : shrinks s s.
Proof. split; lia. Qed.

Lemma shrinks_trans s1 s2 s3 : shrinks s1 s2 -> shrinks s2 s3 -> shrinks s1 s3.
Proof. unfold shrinks; intros [] []; split; lia. Qed.

Lemma quiet_ret {A} (a : A) : quiet (ret a).
Proof.
  intros s a' l s' H. inversion H; subst.
  split; [constructor | split; [reflexivity | apply shrinks_refl]].
Qed.

Lemma quiet_bind {A B} (m : M A) (k : A -> M B) :
  quiet m -> (forall a, quiet (k a)) -> quiet (bind m k).
Proof.
  intros Hm Hk s b l s' H.
  apply bind_Ret_inv in H as (a & l1 & s1 & l2 & H1 & H2 & ->).
  apply Hm in H1 as (F1 & E1 & S1). apply Hk in H2 as (F2 & E2 & S2).
  split; [apply Forall_app; auto | split; [congruence | eapply shrinks_trans; eauto]].
Qed.

Lemma quiet_crash {A} : quiet (@crash A).
Proof. intros s a l s' H; discriminate. Qed.

Lemma quiet_emit e : io_event e = true -> quiet (emit e).
Proof.
  intros He s a l s' H. inversion H; subst.
  split; [repeat constructor; exact He | split; [reflexivity | apply shrinks_refl]].
Qed.

Lemma quiet_same {A} (m : M A) :
  (forall s, exists a, m s = Ret a [] s) -> quiet m.
Proof.
  intros Hm s a l s' H. destruct (Hm s) as [a' E]. rewrite E in H.
  inversion H; subst.
  split; [constructor | split; [reflexivity | apply shrinks_refl]].
Qed.

Lemma quiet_set_chunk c : quiet (set_chunk c).
Proof.
  intros s a l s' H. inversion H; subst.
  split; [constructor | split; [reflexivity | split; simpl; lia]].
Qed.

Lemma quiet_input {A} (f : IStream.t -> A * IStream.t) :
  (forall c, (length (IStream.data (snd (f c))) <= length (IStream.data c))%nat) ->
  quiet (input f).
Proof.
  intros Hf s a l s' H. unfold input in H. specialize (Hf (cin s)).
  destruct (f (cin s)) as [a' c']. inversion H; subst.
  split; [constructor | split; [reflexivity | split; simpl in *; lia]].
Qed.

Lemma quiet_ask_receive : quiet (ask mq_receive_script set_mq_receive_script).
Proof.
  intros s a l s' H. unfold ask in H.
  destruct (mq_receive_script (env s)) eqn:E; [discriminate|].
  inversion H; subst.
  split; [constructor | split; [reflexivity | split; simpl; rewrite ?E; simpl; lia]].
Qed.

Lemma quiet_ask_getattr : quiet (ask mq_getattr_script set_mq_getattr_script).
Proof.
  intros s a l s' H. unfold ask in H.
  destruct (mq_getattr_script (env s)) eqn:E; [discriminate|].
  inversion H; subst.
  split; [constructor | split; [reflexivity | split; simpl; lia]].
Qed.

Lemma mq_send_retry_log payload priority script :
  match mq_send_retry payload priority script with
  | Ret _ l _ => Forall (fun e => io_event e = true) l
  | OutOfFuel => False
  | _ => True
  end.
Proof.
  induction script as [|[rc error] rest IH]; simpl; [exact I|].
  destruct (rc =? -1); [destruct (negb (error =? EINTR))|];
    try (simpl; repeat constructor; fail).
  destruct (mq_send_retry payload priority rest); simpl; auto.
Qed.

Lemma write_loop_log region outputSize script : forall written,
  match write_loop region outputSize written script with
  | Ret _ l _ => Forall (fun e => io_event e = true) l
  | OutOfFuel => False
  | _ => True
  end.
Proof.
  induction script as [|[rc error] rest IH]; intros written; simpl.
  - destruct (written =? outputSize); [constructor | exact I].
  - destruct (written =? outputSize); [constructor|].
    destruct (rc =? -1).
    + destruct (error =? EINTR); [|simpl; repeat constructor; fail].
      specialize (IH written).
      destruct (write_loop region outputSize written rest); simpl; auto.
    + specialize (IH (written + rc)).
      destruct (write_loop region outputSize (written + rc) rest); simpl; auto.
Qed.

Lemma quiet_zoom_send payload priority :
  quiet (zoom mq_send_script set_mq_send_script (mq_send_retry payload priority)).
Proof.
  intros s a l s' H. unfold zoom in H.
  pose proof (mq_send_retry_log payload priority (mq_send_script (env s))) as L.
  destruct (mq_send_retry _ _ _); try discriminate.
  inversion H; subst.
  split; [exact L | split; [reflexivity | split; simpl; lia]].
Qed.

Lemma quiet_zoom_write region outputSize written :
  quiet (zoom write_script set_write_script (write_loop region outputSize written)).
Proof.
  intros s a l s' H. unfold zoom in H.
  pose proof (write_loop_log region outputSize (write_script (env s)) written) as L.
  destruct (write_loop _ _ _ _); try discriminate.
  inversion H; subst.
  split; [exact L | split; [reflexivity | split; simpl; lia]].
Qed.

Lemma fueled_ret {A} (a : A) : fueled (ret a).
Proof. intros s; discriminate. Qed.

Lemma fueled_bind {A B} (m : M A) (k : A -> M B) :
  fueled m -> (forall a, fueled (k a)) -> fueled (bind m k).
Proof.
  intros Hm Hk s. unfold bind. specialize (Hm s).
  destruct (m s) as [a l s1| | |]; try discriminate; [|congruence].
  specialize (Hk a s1). destruct (k a s1); simpl; congruence.
Qed.

Lemma fueled_zoom_send payload priority :
  fueled (zoom mq_send_script set_mq_send_script (mq_send_retry payload priority)).
Proof.
  intros s. unfold zoom.
  pose proof (mq_send_retry_log payload priority (mq_send_script (env s))) as L.
  destruct (mq_send_retry _ _ _); try discriminate. contradiction.
Qed.

Lemma fueled_zoom_write region outputSize written :
  fueled (zoom write_script set_write_script (write_loop region outputSize written)).
Proof.
  intros s. unfold zoom.
  pose proof (write_loop_log region outputSize (write_script (env s)) written) as L.
  destruct (write_loop _ _ _ _); try discriminate. contradiction.
Qed.

Lemma fueled_ask {A} script rest : fueled (@ask A script rest).
Proof. intros s. unfold ask. destruct (script (env s)); discriminate. Qed.

Lemma fueled_input {A} (f : IStream.t -> A * IStream.t) : fueled (input f).
Proof. intros s. unfold input. destruct (f (cin s)); discriminate. Qed.

Lemma quiet_of_eq {A} (m : M A) a (l : St -> list event) :
  (forall s, m s = Ret a (l s) s) ->
  (forall s, Forall (fun e => io_event e = true) (l s)) -> quiet m.
Proof.
  intros E F s a' l' s' H. rewrite E in H. inversion H; subst.
  split; [apply F | split; [reflexivity | apply shrinks_refl]].
Qed.

Lemma quiet_bind_Lock_new {B} m b (k : Lock -> M B) :
  m <> stoppedMutex -> quiet (k (mkLock m b)) -> quiet (bind (Lock_new m b) k).
Proof.
  intros Hm Hk s a l s' H. rewrite bind_Lock_new in H.
  apply log_then_Ret_inv in H as (l2 & H & ->).
  apply Hk in H as (F & E & S).
  split; [|auto]. apply Forall_app; split; [|exact F].
  destruct b; [|constructor]. destruct m; try contradiction; repeat constructor.
Qed.

Lemma quiet_bind_Lock_release {B} m b (k : Lock -> M B) :
  m <> stoppedMutex -> quiet (k (mkLock m false)) ->
  quiet (bind (Lock_release (mkLock m b)) k).
Proof.
  intros Hm Hk s a l s' H. rewrite bind_Lock_release in H.
  apply log_then_Ret_inv in H as (l2 & H & ->).
  apply Hk in H as (F & E & S).
  split; [|auto]. apply Forall_app; split; [|exact F].
  destruct b; [|constructor]. destruct m; try contradiction; repeat constructor.
Qed.

Lemma quiet_bind_Lock_delete {B} m b (k : unit -> M B) :
  m <> stoppedMutex -> quiet (k tt) ->
  quiet (bind (Lock_delete (mkLock m b)) k).
Proof.
  intros Hm Hk s a l s' H. rewrite bind_Lock_delete in H.
  apply log_then_Ret_inv in H as (l2 & H & ->).
  apply Hk in H as (F & E & S).
  split; [|auto]. apply Forall_app; split; [|exact F].
  destruct b; [|constructor]. destruct m; try contradiction; repeat constructor.
Qed.

Lemma quiet_locked {A} m (body : M A) :
  m <> stoppedMutex -> quiet body -> quiet (locked m body).
Proof.
  intros Hm Hb. unfold locked.
  apply quiet_bind; [apply quiet_same; intros; eexists; reflexivity|].
  intros sh. apply quiet_bind_Lock_new; [exact Hm|].
  apply quiet_bind; [exact Hb|]. intros a.
  apply quiet_bind_Lock_delete; [exact Hm | apply quiet_ret].
Qed.

Ltac quiet_step :=
  match goal with
  | |- quiet (bind (Lock_new _ _) _) =>
      apply quiet_bind_Lock_new; [discriminate|]
  | |- quiet (bind (Lock_release (mkLock _ _)) _) =>
      apply quiet_bind_Lock_release; [discriminate|]
  | |- quiet (bind (Lock_delete (mkLock _ _)) _) =>
      apply quiet_bind_Lock_delete; [discriminate|]
  | |- quiet (locked _ _) => apply quiet_locked; [discriminate|]
  | |- quiet (bind _ _) => apply quiet_bind; [|intros]
  | |- quiet (ret _) => apply quiet_ret
  | |- quiet crash => apply quiet_crash
  | |- quiet (emit _) => apply quiet_emit; reflexivity
  | |- quiet (set_chunk _) => apply quiet_set_chunk
  | |- quiet get_shared => apply quiet_same; intros; eexists; reflexivity
  | |- quiet get_env => apply quiet_same; intros; eexists; reflexivity
  | |- quiet get_chunk => apply quiet_same; intros; eexists; reflexivity
  | |- quiet cin_fail => apply quiet_same; intros; eexists; reflexivity
  | |- quiet (ask mq_receive_script _) => apply quiet_ask_receive
  | |- quiet (ask mq_getattr_script _) => apply quiet_ask_getattr
  | |- quiet (zoom mq_send_script _ _) => apply quiet_zoom_send
  | |- quiet (zoom write_script _ _) => apply quiet_zoom_write
  | |- quiet (input _) => apply quiet_input; intros
  | |- quiet (if ?b then _ else _) => destruct b
  | |- quiet (match ?x with _ => _ end) => destruct x
  end.

Ltac quiet_tac :=
  repeat first
    [ quiet_step
    | progress unfold cerr, cout, debug_line, when, assert, mq_getattr,
        mq_receive, snprintf, store_chunk ].

Ltac fueled_step :=
  match goal with
  | |- fueled (bind _ _) => apply fueled_bind; [|intros]
  | |- fueled (ret _) => apply fueled_ret
  | |- fueled (zoom mq_send_script _ _) => apply fueled_zoom_send
  | |- fueled (zoom write_script _ _) => apply fueled_zoom_write
  | |- fueled (ask _ _) => apply fueled_ask
  | |- fueled (input _) => apply fueled_input
  | |- fueled (if ?b then _ else _) => destruct b
  | |- fueled (match ?x with _ => _ end) => destruct x
  | |- fueled _ => solve [intros ?; discriminate]
  end.

Ltac fueled_tac :=
  repeat first
    [ progress unfold locked, cerr, cout, debug_line, when, assert,
        mq_getattr, mq_receive, snprintf, store_chunk, Lock_new, Lock_delete,
        Lock_acquire, Lock_release
    | fueled_step ].

Lemma quiet_sendHandler : quiet sendHandler.
Proof.
  unfold sendHandler. quiet_tac.
  - apply IStreamFacts.read_int_length.
  - apply IStreamFacts.read_int_length.
  - apply IStreamFacts.ignore_length.
  - apply IStreamFacts.read_length.
Qed.

Lemma fueled_sendHandler : fueled sendHandler.
Proof. unfold sendHandler. fueled_tac. Qed.

Lemma quiet_doReceive : quiet doReceive.
Proof. unfold doReceive. cbv zeta. quiet_tac. Qed.

Lemma fueled_doReceive : fueled doReceive.
Proof. unfold doReceive. cbv zeta. fueled_tac. Qed.

Lemma quiet_countHandler : quiet countHandler.
Proof. unfold countHandler. quiet_tac. Qed.

Lemma quiet_msgsizeHandler : quiet msgsizeHandler.
Proof. unfold msgsizeHandler. quiet_tac. Qed.

Lemma quiet_maxmsgHandler : quiet maxmsgHandler.
Proof. unfold maxmsgHandler. quiet_tac. Qed.

Lemma fueled_countHandler : fueled countHandler.
Proof. unfold countHandler. fueled_tac. Qed.

Lemma fueled_msgsizeHandler : fueled msgsizeHandler.
Proof. unfold msgsizeHandler. fueled_tac. Qed.

Lemma fueled_maxmsgHandler : fueled maxmsgHandler.
Proof. unfold maxmsgHandler. fueled_tac. Qed.

Lemma fueled_consumeHandler : fueled consumeHandler.
Proof. unfold consumeHandler. fueled_tac. Qed.

Lemma fueled_closeHandler : fueled closeHandler.
Proof. unfold closeHandler. fueled_tac. Qed.

(** ** What a computation can return *)

Lemma returns_ret {A} (P : A -> Prop) a : P a -> returns P (ret a).
Proof. intros Ha s a' l s' H. inversion H; subst; exact Ha. Qed.

Lemma returns_bind {A B} (P : B -> Prop) (m : M A) (k : A -> M B) :
  (forall a, returns P (k a)) -> returns P (bind m k).
Proof.
  intros Hk s b l s' H.
  apply bind_Ret_inv in H as (a & l1 & s1 & l2 & _ & H2 & _).
  exact (Hk a _ _ _ _ H2).
Qed.

Ltac returns_tac :=
  repeat match goal with
  | |- returns _ (bind _ _) => apply returns_bind; intros
  | |- returns _ (ret _) => apply returns_ret
  | |- returns _ (if ?b then _ else _) => destruct b
  | |- returns _ (match ?x with _ => _ end) => destruct x
  end.

(** ** [doReceive] *)

Lemma doReceive_retryable s l s' :
  doReceive s = Ret FAIL_INTERRUPTED_OR_CLOSED l s' ->
  exists e,
    mq_receive_script (env s) = ReceiveError e :: mq_receive_script (env s')
    /\ (e = EINTR \/ e = EBADF).
Proof.
  unfold doReceive. cbv zeta. intros H.
  rewrite bind_get_shared, bind_get_env, bind_get_chunk, bind_assert in H.
  destruct (0 <=? _); [|discriminate].
  destruct (memory _ <? _).
  { unfold cerr in H. rewrite bind_locked_emit in H.
    apply log_then_Ret_inv in H as (l2 & H & _). discriminate. }
  rewrite bind_set_chunk, bind_assert in H.
  destruct (negb _); [|discriminate].
  rewrite bind_assert in H.
  destruct (numbersMaxSize <=? _); [|discriminate].
  rewrite bind_debug_line in H.
  apply log_then_Ret_inv in H as (l2 & H & _).
  unfold mq_receive in H. rewrite bind_assoc, bind_ask in H. cbn [env] in H.
  destruct (mq_receive_script (env s)) as [|r rest]; [discriminate|].
  destruct r as [payload priority | e].
  - destruct (len payload <=? _).
    + exfalso. revert H.
      unfold store_chunk. rewrite !bind_assoc, bind_get_chunk.
      cbn [chunk].
      destruct (store _ _ _); [|discriminate].
      rewrite bind_set_chunk, bind_assoc, bind_emit.
      intros H. apply log_then_Ret_inv in H as (l3 & H & _).
      rewrite bind_ret in H.
      assert (E : (len payload =? -1) = false) by (apply Z.eqb_neq; unfold len; lia).
      rewrite E in H. revert H.
      match goal with |- ?k ?st = _ -> _ =>
        assert (R : returns (fun rc => rc = FAIL_WRITE \/ rc = 0) k)
      end.
      { returns_tac; auto. }
      intros H. apply R in H. unfold FAIL_WRITE, FAIL_INTERRUPTED_OR_CLOSED in H.
      lia.
    + rewrite bind_assoc, bind_emit in H.
      apply log_then_Ret_inv in H as (l3 & H & _).
      rewrite bind_ret in H. cbn in H.
      unfold cerr in H. rewrite bind_locked_emit in H.
      apply log_then_Ret_inv in H as (l4 & H & _). discriminate.
  - rewrite bind_assoc, bind_emit in H.
    apply log_then_Ret_inv in H as (l3 & H & _).
    rewrite bind_ret in H.
    change (-1 =? -1) with true in H. cbv iota in H.
    destruct ((e =? EINTR) || (e =? EBADF)) eqn:E.
    + apply Ret_inj in H as (_ & _ & <-). cbn [env set_mq_receive_script mq_receive_script].
      exists e. split; [reflexivity|].
      apply orb_true_iff in E. destruct E as [E|E]; apply Z.eqb_eq in E; auto.
    + unfold cerr in H. rewrite bind_locked_emit in H.
      apply log_then_Ret_inv in H as (l4 & H & _). discriminate.
Qed.

Lemma numbersMaxSize_eq : numbersMaxSize = 30.
Proof. vm_compute. reflexivity. Qed.

(** When the dequeue is reached and fails, [doReceive] classifies the
    failure. *)
Lemma doReceive_dequeue_failed s e rest :
  mq_receive_script (env s) = ReceiveError e :: rest ->
  0 <= msgsize (shared s) ->
  numbersMaxSize + msgsize (shared s) + 1 <= memory (env s) ->
  let newSize := numbersMaxSize + msgsize (shared s) + 1 in
  let msgBufferSize := (newSize - numbersMaxSize - 1) mod 2 ^ 64 in
  let s1 := mkSt (shared s) (resize (chunk s) newSize) (cin s)
                 (set_mq_receive_script rest (env s)) in
  let tried :=
    debug_log (shared s)
      [bytes "About to receive with buffer.size()="; print_Z newSize;
       bytes " numbersMaxSize="; print_Z numbersMaxSize;
       bytes " msgBufferSize="; print_Z msgBufferSize;
       bytes " shared.msgsize="; print_Z (msgsize (shared s))]
    ++ [MqReceive msgBufferSize (-1)] in
  doReceive s =
  if (e =? EINTR) || (e =? EBADF)
  then Ret FAIL_INTERRUPTED_OR_CLOSED tried s1
  else Ret FAIL_RECEIVE
         (tried ++ guarded (consumerThreadExists (shared s)) stderrMutex
                     [Cerr (line [bytes "Failed to receive message: ";
                                  strerror e])])
         s1.
Proof.
  intros Hs Hm Hmem. cbv zeta.
  pose proof numbersMaxSize_eq as N.
  unfold doReceive. cbv zeta.
  rewrite bind_get_shared, bind_get_env, bind_get_chunk, bind_assert.
  replace (0 <=? numbersMaxSize + msgsize (shared s) + 1) with true
    by (symmetry; apply Z.leb_le; lia).
  replace (memory (env s) <? numbersMaxSize + msgsize (shared s) + 1) with false
    by (symmetry; apply Z.ltb_ge; lia).
  rewrite bind_set_chunk, bind_assert.
  replace (numbersMaxSize + msgsize (shared s) + 1 =? 0) with false
    by (symmetry; apply Z.eqb_neq; lia).
  cbn [negb].
  rewrite bind_assert.
  replace (numbersMaxSize <=? numbersMaxSize + msgsize (shared s) + 1) with true
    by (symmetry; apply Z.leb_le; lia).
  rewrite bind_debug_line. cbn [shared].
  unfold mq_receive. rewrite bind_assoc, bind_ask. cbn [env shared chunk cin].
  rewrite Hs. rewrite bind_assoc, bind_emit, bind_ret.
  change (-1 =? -1) with true. cbv iota.
  destruct ((e =? EINTR) || (e =? EBADF)).
  - unfold ret. cbn [log_then]. rewrite app_nil_r. reflexivity.
  - unfold cerr. rewrite bind_locked_emit. unfold ret. cbn [log_then shared].
    rewrite ?app_nil_r, <- ?app_assoc. reflexivity.
Qed.

(** ** [receiveHandler] *)

Lemma receiveHandler_loop_enough fuel1 : forall fuel2 s,
  (length (mq_receive_script (env s)) < fuel1)%nat ->
  (length (mq_receive_script (env s)) < fuel2)%nat ->
  receiveHandler_loop fuel1 s = receiveHandler_loop fuel2 s.
Proof.
  induction fuel1 as [|f1 IH]; intros fuel2 s H1 H2; [lia|].
  destruct fuel2 as [|f2]; [lia|].
  cbn [receiveHandler_loop]. unfold bind.
  destruct (doReceive s) as [rc l s1| | |] eqn:D; try reflexivity.
  destruct (rc =? FAIL_INTERRUPTED_OR_CLOSED) eqn:E; [|reflexivity].
  apply Z.eqb_eq in E; subst rc.
  apply doReceive_retryable in D as (e & D & _).
  rewrite D in H1, H2. simpl in H1, H2.
  cbn [negb]. f_equal. apply IH; lia.
Qed.

(** The loop of [receiveHandler], free of fuel. *)
Lemma receiveHandler_unfold s :
  receiveHandler s =
  match doReceive s with
  | Ret rc l s1 =>
      if rc =? FAIL_INTERRUPTED_OR_CLOSED
      then log_then l (receiveHandler s1)
      else Ret rc l s1
  | Blocked l => Blocked l
  | Crash l => Crash l
  | OutOfFuel => OutOfFuel
  end.
Proof.
  unfold receiveHandler at 1. cbn [receiveHandler_loop]. unfold bind.
  destruct (doReceive s) as [rc l s1| | |] eqn:D; try reflexivity.
  destruct (rc =? FAIL_INTERRUPTED_OR_CLOSED) eqn:E; cbn [negb].
  - apply Z.eqb_eq in E; subst rc.
    apply doReceive_retryable in D as (e & D & _).
    f_equal. unfold receiveHandler. rewrite D. simpl length.
    apply receiveHandler_loop_enough; lia.
  - unfold ret. simpl. rewrite app_nil_r. reflexivity.
Qed.

Lemma quiet_receiveHandler_loop fuel : quiet (receiveHandler_loop fuel).
Proof.
  induction fuel as [|f IH]; [intros s a l s' H; discriminate|].
  cbn [receiveHandler_loop].
  apply quiet_bind; [apply quiet_doReceive|]. intros rc.
  destruct (negb _); [apply quiet_ret | exact IH].
Qed.

Lemma quiet_receiveHandler : quiet receiveHandler.
Proof. intros s a l s' H. exact (quiet_receiveHandler_loop _ _ _ _ _ H). Qed.

Lemma fueled_receiveHandler_loop fuel : forall s,
  (length (mq_receive_script (env s)) < fuel)%nat ->
  receiveHandler_loop fuel s <> OutOfFuel.
Proof.
  induction fuel as [|f IH]; intros s H; [lia|].
  cbn [receiveHandler_loop]. unfold bind.
  pose proof (fueled_doReceive s) as F.
  destruct (doReceive s) as [rc l s1| | |] eqn:D;
    [| intros X; discriminate X | intros X; discriminate X | exact F].
  clear F.
  destruct (rc =? FAIL_INTERRUPTED_OR_CLOSED) eqn:E; cbn [negb];
    [| intros X; discriminate X].
  apply Z.eqb_eq in E; subst rc.
  apply doReceive_retryable in D as (e & D & _).
  rewrite D in H. simpl in H.
  specialize (IH s1).
  destruct (receiveHandler_loop f s1); simpl;
    try (intros X; discriminate X).
  apply IH; lia.
Qed.

Lemma fueled_receiveHandler : fueled receiveHandler.
Proof. intros s. unfold receiveHandler. apply fueled_receiveHandler_loop. lia. Qed.

(** ** The handlers without a loop, computed *)

Lemma consumeHandler_eq s :
  consumeHandler s =
  match pthread_create_script (env s) with
  | [] => Blocked [Sigaction]
  | (rc, error, thread) :: rest =>
      let e := set_pthread_create_script rest (env s) in
      if rc =? 0 then
        Ret rc [Sigaction; PthreadCreate rc thread]
            (mkSt (set_consumerThread thread
                     (set_consumerThreadExists true (shared s)))
                  (chunk s) (cin s) e)
      else
        Ret rc
            [Sigaction; PthreadCreate rc thread;
             Cerr (line [bytes "Unable to create consumer thread: ";
                         strerror error])]
            (mkSt (set_consumerThreadExists false
                     (set_consumerThreadExists true (shared s)))
                  (chunk s) (cin s) e)
  end.
Proof.
  unfold consumeHandler.
  rewrite bind_emit, bind_modify_shared, bind_ask. cbn [env].
  destruct (pthread_create_script (env s)) as [|[[rc error] thread] rest];
    [reflexivity|].
  rewrite bind_emit. unfold when.
  destruct (rc =? 0); cbn [negb].
  - rewrite bind_modify_shared, bind_ret. reflexivity.
  - rewrite bind_ret, bind_assoc, bind_modify_shared.
    unfold cerr. rewrite bind_emit. reflexivity.
Qed.

Lemma closeHandler_eq s :
  closeHandler s =
  let exists_ := consumerThreadExists (shared s) in
  (if exists_ then log_then [Acquire stoppedMutex] else fun o => o)
  match mq_close_script (env s) with
  | [] => Blocked [SetStopped]
  | (rc, error) :: rest =>
      Ret rc
          ([SetStopped; MqClose rc]
           ++ (if rc =? 0 then []
               else guarded exists_ stderrMutex
                      [Cerr (line [bytes "Unable to close the message queue: ";
                                   strerror error])])
           ++ (if exists_
               then [PthreadKill (consumerThread (shared s));
                     Release stoppedMutex]
               else []))
          (mkSt (set_stopped true (shared s)) (chunk s) (cin s)
                (set_mq_close_script rest (env s)))
  end.
Proof.
  unfold closeHandler. cbv zeta.
  rewrite bind_get_shared, bind_Lock_new, bind_modify_shared, bind_emit,
    bind_ask.
  cbn [env].
  destruct (mq_close_script (env s)) as [|[rc error] rest].
  - destruct (consumerThreadExists (shared s)); reflexivity.
  - rewrite bind_emit. unfold when, cerr.
    destruct (rc =? 0); cbn [negb].
    + rewrite bind_ret.
      destruct (consumerThreadExists (shared s)).
      * rewrite bind_emit, bind_Lock_delete. reflexivity.
      * rewrite bind_ret, bind_Lock_delete. reflexivity.
    + rewrite bind_locked_emit. cbn [shared set_stopped consumerThreadExists].
      destruct (consumerThreadExists (shared s)).
      * rewrite bind_emit, bind_Lock_delete. reflexivity.
      * rewrite bind_ret, bind_Lock_delete. reflexivity.
Qed.

Lemma bind_mq_getattr {B} (k : Z * Z * mq_attr -> M B) s :
  bind mq_getattr k s =
  match mq_getattr_script (env s) with
  | [] => Blocked []
  | (rc, error, attributes) :: rest =>
      log_then [MqGetattr rc]
        (k (rc, error, attributes)
           (mkSt (shared s) (chunk s) (cin s)
                 (set_mq_getattr_script rest (env s))))
  end.
Proof.
  unfold mq_getattr. rewrite bind_assoc, bind_ask.
  destruct (mq_getattr_script (env s)) as [|[[rc error] attributes] rest];
    [reflexivity|].
  rewrite bind_assoc, bind_emit, bind_ret. reflexivity.
Qed.

Lemma countHandler_eq s :
  countHandler s =
  match mq_getattr_script (env s) with
  | [] => Blocked []
  | (rc, error, attributes) :: rest =>
      let s1 := mkSt (shared s) (chunk s) (cin s)
                     (set_mq_getattr_script rest (env s)) in
      if rc =? 0 then
        Ret 0 (MqGetattr rc
               :: guarded (consumerThreadExists (shared s)) stdoutMutex
                    [Cout (line [bytes "count ";
                                 print_Z (mq_curmsgs attributes)])]) s1
      else
        Ret rc [MqGetattr rc;
                Cerr (line [bytes "Unable to get queue attributes to query message count: ";
                            strerror error])] s1
  end.
Proof.
  unfold countHandler. rewrite bind_mq_getattr.
  destruct (mq_getattr_script (env s)) as [|[[rc error] attributes] rest];
    [reflexivity|].
  cbv zeta. unfold cerr, cout.
  destruct (rc =? 0); cbn [negb].
  - rewrite bind_locked_emit. unfold ret. cbn [log_then shared app].
    rewrite app_nil_r. reflexivity.
  - rewrite bind_emit. reflexivity.
Qed.

Lemma msgsizeHandler_eq s :
  msgsizeHandler s =
  match mq_getattr_script (env s) with
  | [] => Blocked []
  | (rc, error, attributes) :: rest =>
      let s1 := mkSt (shared s) (chunk s) (cin s)
                     (set_mq_getattr_script rest (env s)) in
      if rc =? 0 then
        Ret 0 (MqGetattr rc
               :: guarded (consumerThreadExists (shared s)) stdoutMutex
                    [Cout (line [bytes "msgsize ";
                                 print_Z (mq_msgsize attributes)])]) s1
      else
        Ret rc (MqGetattr rc
                :: guarded (consumerThreadExists (shared s)) stderrMutex
                     [Cerr (line [bytes "Unable to get queue attributes to report msgsize: ";
                                  strerror error])]) s1
  end.
Proof.
  unfold msgsizeHandler. rewrite bind_mq_getattr.
  destruct (mq_getattr_script (env s)) as [|[[rc error] attributes] rest];
    [reflexivity|].
  cbv zeta. unfold cerr, cout.
  destruct (rc =? 0); cbn [negb];
    rewrite bind_locked_emit; unfold ret; cbn [log_then shared app];
    rewrite app_nil_r; reflexivity.
Qed.

Lemma maxmsgHandler_eq s :
  maxmsgHandler s =
  match mq_getattr_script (env s) with
  | [] => Blocked []
  | (rc, error, attributes) :: rest =>
      let s1 := mkSt (shared s) (chunk s) (cin s)
                     (set_mq_getattr_script rest (env s)) in
      if rc =? 0 then
        Ret 0 (MqGetattr rc
               :: guarded (consumerThreadExists (shared s)) stdoutMutex
                    [Cout (line [bytes "maxmsg ";
                                 print_Z (mq_maxmsg attributes)])]) s1
      else
        Ret rc (MqGetattr rc
                :: guarded (consumerThreadExists (shared s)) stderrMutex
                     [Cerr (line [bytes "Unable to get queue attributes to report maxmsg: ";
                                  strerror error])]) s1
  end.
Proof.
  unfold maxmsgHandler. rewrite bind_mq_getattr.
  destruct (mq_getattr_script (env s)) as [|[[rc error] attributes] rest];
    [reflexivity|].
  cbv zeta. unfold cerr, cout.
  destruct (rc =? 0); cbn [negb];
    rewrite bind_locked_emit; unfold ret; cbn [log_then shared app];
    rewrite app_nil_r; reflexivity.
Qed.

(** ** [sendHandler], computed *)

Lemma sendHandler_eq s :
  sendHandler s =
  let exists_ := consumerThreadExists (shared s) in
  let at_cin c := mkSt (shared s) (chunk s) c (env s) in
  let enqueue size priority (s1 : St) :=
    match mq_send_retry (firstn (Z.to_nat size) (chunk s1)) priority
            (mq_send_script (env s1)) with
    | Ret sent l rest =>
        let s2 := mkSt (shared s1) (chunk s1) (cin s1)
                       (set_mq_send_script rest (env s1)) in
        match sent with
        | Some error =>
            Ret 3 (l ++ guarded exists_ stderrMutex
                          [Cerr (line [bytes "Unable to send message for ";
                                       [DQ]; bytes "send"; [DQ];
                                       bytes " command: "; strerror error])])
                s2
        | None =>
            Ret 0 (l ++ guarded exists_ stdoutMutex
                          [Cout (line [bytes "ack "; print_Z size])])
                s2
        end
    | Blocked l => Blocked l
    | Crash l => Crash l
    | OutOfFuel => OutOfFuel
    end in
  match IStream.read_unsigned (cin s) with
  | (None, c1) =>
      Ret 1 (guarded exists_ stderrMutex
               [Cerr (line [bytes "Unable to read message priority from ";
                            [DQ]; bytes "send"; [DQ]; bytes " command."])])
          (at_cin c1)
  | (Some priority, c1) =>
  match IStream.read_ssize_t c1 with
  | (None, c2) =>
      Ret 2 (guarded exists_ stderrMutex
               [Cerr (line [bytes "Unable to read message size from ";
                            [DQ]; bytes "send"; [DQ]; bytes " command."])])
          (at_cin c2)
  | (Some size, c2) =>
  if size <? 0 then
    Ret 4 (guarded exists_ stderrMutex
             [Cerr (line [bytes "Messages must have a non-negative size. Size ";
                          print_Z size; bytes " is not permitted."])])
        (at_cin c2)
  else if size =? 0 then enqueue size priority (at_cin (IStream.ignore c2))
  else if size <=? memory (env s) then
    let got := fst (IStream.read size (IStream.ignore c2)) in
    let c4 := snd (IStream.read size (IStream.ignore c2)) in
    let s1 := mkSt (shared s)
                   (got ++ skipn (length got) (resize (chunk s) size))
                   c4 (env s) in
    if IStream.fail c4 || negb (len got =? size) then
      Ret 5 (guarded exists_ stderrMutex
               [Cerr (line [bytes "Unable to read from input all of the supposed ";
                            print_Z size; bytes " byte message. ";
                            print_Z (len got); bytes " were read instead."])])
          s1
    else enqueue size priority s1
  else Crash []
  end
  end.
Proof.
  cbv zeta.
  assert (Enq : forall size priority s1,
    consumerThreadExists (shared s1) = consumerThreadExists (shared s) ->
    (c <- get_chunk;;
     sent <- zoom mq_send_script set_mq_send_script
               (mq_send_retry (firstn (Z.to_nat size) c) priority);;
     match sent with
     | Some error =>
         locked stderrMutex
           (cerr [bytes "Unable to send message for "; [DQ]; bytes "send";
                  [DQ]; bytes " command: "; strerror error]);;
         ret 3
     | None => locked stdoutMutex (cout [bytes "ack "; print_Z size]);; ret 0
     end) s1 =
    match mq_send_retry (firstn (Z.to_nat size) (chunk s1)) priority
            (mq_send_script (env s1)) with
    | Ret sent l rest =>
        match sent with
        | Some error =>
            Ret 3 (l ++ guarded (consumerThreadExists (shared s)) stderrMutex
                          [Cerr (line [bytes "Unable to send message for ";
                                       [DQ]; bytes "send"; [DQ];
                                       bytes " command: "; strerror error])])
                (mkSt (shared s1) (chunk s1) (cin s1)
                      (set_mq_send_script rest (env s1)))
        | None =>
            Ret 0 (l ++ guarded (consumerThreadExists (shared s)) stdoutMutex
                          [Cout (line [bytes "ack "; print_Z size])])
                (mkSt (shared s1) (chunk s1) (cin s1)
                      (set_mq_send_script rest (env s1)))
        end
    | Blocked l => Blocked l
    | Crash l => Crash l
    | OutOfFuel => OutOfFuel
    end).
  { intros size priority s1 E.
    rewrite bind_get_chunk, bind_zoom.
    destruct (mq_send_retry _ _ _) as [[error|] l rest| | |]; try reflexivity;
      unfold cerr, cout; rewrite bind_locked_emit; unfold ret;
      cbn [log_then shared]; rewrite E, app_nil_r; reflexivity. }
  unfold sendHandler. rewrite bind_input.
  destruct (IStream.read_unsigned (cin s)) as [[priority|] c1]; cbn [fst snd].
  2: { unfold cerr. rewrite bind_locked_emit. unfold ret.
       cbn [log_then shared]. rewrite app_nil_r. reflexivity. }
  rewrite bind_input. cbn [cin shared chunk env].
  destruct (IStream.read_ssize_t c1) as [[size|] c2]; cbn [fst snd].
  2: { unfold cerr. rewrite bind_locked_emit. unfold ret.
       cbn [log_then shared]. rewrite app_nil_r. reflexivity. }
  destruct (size <? 0).
  { unfold cerr. rewrite bind_locked_emit. unfold ret.
    cbn [log_then shared]. rewrite app_nil_r. reflexivity. }
  rewrite bind_input. cbn [cin shared chunk env fst snd].
  destruct (size =? 0); cbn [negb].
  { rewrite bind_ret. cbn [negb]. rewrite Enq by reflexivity. reflexivity. }
  rewrite !bind_assoc, bind_get_env, !bind_assoc, bind_assert.
  cbn [env].
  destruct (size <=? memory (env s)); [|reflexivity].
  rewrite !bind_assoc, bind_get_chunk, !bind_assoc, bind_set_chunk,
    !bind_assoc, bind_input, !bind_assoc, bind_get_chunk, !bind_assoc,
    bind_set_chunk, !bind_assoc, bind_cin_fail.
  cbn [cin shared chunk env].
  destruct (IStream.fail _ || negb _).
  - rewrite !bind_assoc. unfold cerr. rewrite bind_locked_emit, !bind_ret.
    cbn [negb]. unfold ret. cbn [log_then shared]. rewrite app_nil_r.
    reflexivity.
  - rewrite !bind_ret. cbn [negb]. rewrite Enq by reflexivity. reflexivity.
Qed.

(** ** Logs *)

Lemma bytes_eqb_eq a : forall b, bytes_eqb a b = true -> a = b.
Proof.
  induction a as [|x a IH]; intros [|y b]; simpl; try discriminate; auto.
  intros H. apply andb_true_iff in H as [H1 H2].
  apply Ascii.eqb_eq in H1. apply IH in H2. congruence.
Qed.

Lemma count_app p l1 l2 : count p (l1 ++ l2) = (count p l1 + count p l2)%nat.
Proof. unfold count. rewrite filter_app, length_app. reflexivity. Qed.

Lemma count_none p l : Forall (fun e => p e = false) l -> count p l = 0%nat.
Proof.
  unfold count. induction 1 as [|e l He _ IH]; simpl; [reflexivity|].
  rewrite He. exact IH.
Qed.

Lemma primary_app l1 l2 :
  Forall (fun e => loop_event e = false) l1 -> primary (l1 ++ l2) = primary l2.
Proof.
  induction 1 as [|e l He _ IH]; simpl; [reflexivity|].
  destruct e; simpl in He; try discriminate; exact IH.
Qed.

Lemma close_results_app l1 l2 :
  close_results (l1 ++ l2) = close_results l1 ++ close_results l2.
Proof.
  induction l1 as [|e l IH]; simpl; [reflexivity|].
  destruct e; simpl; rewrite ?IH; reflexivity.
Qed.

Lemma close_results_none l :
  Forall (fun e => shutdown_event e = false) l -> close_results l = [].
Proof.
  induction 1 as [|e l He _ IH]; simpl; [reflexivity|].
  destruct e; simpl in He; try discriminate; exact IH.
Qed.

Lemma io_handler_log rc lh :
  Forall (fun e => io_event e = true) lh -> handler_log false rc lh.
Proof.
  intros F. unfold handler_log.
  repeat split.
  - eapply Forall_impl; [|exact F]. intros e He.
    destruct e as [[]|[]| | | | | | | | | | | | | |]; simpl in He;
      try discriminate; auto.
  - apply count_none. eapply Forall_impl; [|exact F]. intros e He.
    destruct e; simpl in He; try discriminate; reflexivity.
  - apply count_none. eapply Forall_impl; [|exact F]. intros e He.
    destruct e; simpl in He; try discriminate; reflexivity.
  - apply count_none. eapply Forall_impl; [|exact F]. intros e He.
    destruct e; simpl in He; try discriminate; reflexivity.
Qed.

Lemma consume_handler_log s rc lh s' :
  consumeHandler s = Ret rc lh s' -> handler_log true rc lh.
Proof.
  rewrite consumeHandler_eq.
  destruct (pthread_create_script (env s)) as [|[[rc' error] thread] rest];
    [intros X; discriminate X|].
  cbv zeta. destruct (rc' =? 0) eqn:E; intros H;
    apply Ret_inj in H as (<- & <- & _); unfold handler_log, count; simpl;
    rewrite E; repeat split; repeat constructor.
Qed.

Lemma count_cons p e l :
  count p (e :: l) = ((if p e then 1 else 0) + count p l)%nat.
Proof. unfold count. simpl. destruct (p e); reflexivity. Qed.

Lemma handler_log_quiet consume rc lh :
  handler_log consume rc lh ->
  Forall (fun e => loop_event e = false) lh /\
  Forall (fun e => shutdown_event e = false) lh /\
  count is_consume_result lh = 0%nat /\ count is_consume_ok lh = 0%nat.
Proof.
  intros (F & _). repeat split.
  - eapply Forall_impl; [|exact F]; intros e [? ?]; auto.
  - eapply Forall_impl; [|exact F]; intros e [? ?]; auto.
  - apply count_none. eapply Forall_impl; [|exact F]. intros e [? ?].
    destruct e; simpl in *; try discriminate; reflexivity.
  - apply count_none. eapply Forall_impl; [|exact F]. intros e [? ?].
    destruct e; simpl in *; try discriminate; reflexivity.
Qed.

Lemma loop_log_done consume rc lh w :
  handler_log consume rc lh ->
  bytes_eqb w (bytes "consume") = consume ->
  rc <> 0 ->
  loop_log rc (lh ++ [HandlerResult w rc]).
Proof.
  intros H Hw Hrc.
  destruct (handler_log_quiet _ _ _ H) as (FL & FS & K1 & K2).
  destruct H as (_ & C1 & C2 & C3).
  apply Z.eqb_neq in Hrc. unfold loop_log.
  rewrite primary_app by exact FL.
  rewrite !count_app, !count_cons, C1, C2, C3, K1, K2.
  cbn [primary is_Sigaction is_PthreadCreate is_task_created
       is_consume_result is_consume_ok count filter length].
  rewrite Hrc, Hw, andb_false_r.
  repeat split;
    try (apply Forall_app; split; [exact FS | repeat constructor]);
    destruct consume; reflexivity.
Qed.

Lemma loop_log_more consume lh w cr lr :
  handler_log consume 0 lh ->
  bytes_eqb w (bytes "consume") = consume ->
  loop_log cr lr ->
  loop_log cr (lh ++ HandlerResult w 0 :: lr).
Proof.
  intros H Hw (P & FS' & R1 & R2 & R3).
  destruct (handler_log_quiet _ _ _ H) as (FL & FS & K1 & K2).
  destruct H as (_ & C1 & C2 & C3).
  unfold loop_log.
  rewrite primary_app by exact FL.
  rewrite !count_app, !count_cons, C1, C2, C3, K1, K2, R1, R2, R3.
  cbn [primary is_Sigaction is_PthreadCreate is_task_created
       is_consume_result is_consume_ok].
  change (0 =? 0) with true. cbv iota. rewrite Hw, andb_true_r.
  split; [exact P|].
  split; [apply Forall_app; split;
          [exact FS | constructor; [reflexivity | exact FS']]|].
  repeat split; destruct consume; simpl; lia.
Qed.

Lemma loop_log_nil : loop_log 0 [].
Proof. unfold loop_log, count. simpl. repeat split; constructor. Qed.

Lemma loop_log_unknown w b text :
  loop_log 1 (UnknownCommand w :: guarded b stderrMutex [Cerr text]).
Proof.
  unfold loop_log, count, guarded.
  destruct b; simpl; repeat split; repeat constructor.
Qed.

(** ** The dispatch loop *)

Lemma HANDLE_COMMAND_inv name (h again : M Z) s cr log s' :
  HANDLE_COMMAND name h again s = Ret cr log s' ->
  exists rc lh s1,
    h s = Ret rc lh s1 /\
    ((rc <> 0 /\ cr = rc /\ log = lh ++ [HandlerResult name rc] /\ s' = s1) \/
     (rc = 0 /\ exists lr,
        again s1 = Ret cr lr s' /\ log = lh ++ HandlerResult name 0 :: lr)).
Proof.
  unfold HANDLE_COMMAND. intros H.
  apply bind_Ret_inv in H as (rc & lh & s1 & l2 & Hh & H & ->).
  exists rc, lh, s1. split; [exact Hh|].
  rewrite bind_emit in H. apply log_then_Ret_inv in H as (l3 & H & ->).
  destruct (rc =? 0) eqn:E; cbn [negb] in H.
  - apply Z.eqb_eq in E. subst rc. right. split; [reflexivity|].
    exists l3. split; [exact H | reflexivity].
  - apply Z.eqb_neq in E. left. apply Ret_inj in H as (<- & <- & <-).
    repeat split; auto.
Qed.

Lemma dispatch_log fuel : forall s cr log s',
  dispatch fuel s = Ret cr log s' -> loop_log cr log.
Proof.
  induction fuel as [|f IH]; intros s cr log s' H; [discriminate H|].
  cbn [dispatch] in H. rewrite bind_input in H.
  destruct (IStream.read_word (cin s)) as [[w|] c1]; cbn [fst snd] in H.
  2: { apply Ret_inj in H as (<- & <- & _). apply loop_log_nil. }
  rewrite bind_set_chunk in H.
  assert (Step : forall consume (h : M Z) s0,
    (forall s rc lh s1, h s = Ret rc lh s1 -> handler_log consume rc lh) ->
    bytes_eqb w (bytes "consume") = consume ->
    HANDLE_COMMAND w h (dispatch f) s0 = Ret cr log s' -> loop_log cr log).
  { intros consume h s0 Hh Hw H0.
    apply HANDLE_COMMAND_inv in H0
      as (rc & lh & s1 & Hrun & [(Hrc & -> & -> & _) | (-> & lr & Hr & ->)]).
    - eapply loop_log_done; eauto.
    - eapply loop_log_more; eauto. }
  destruct (bytes_eqb w (bytes "send")) eqn:E1.
  { apply bytes_eqb_eq in E1. subst w.
    eapply (Step false); [| reflexivity | exact H].
    intros. apply io_handler_log. eapply quiet_sendHandler; eauto. }
  destruct (bytes_eqb w (bytes "receive")) eqn:E2.
  { apply bytes_eqb_eq in E2. subst w.
    eapply (Step false); [| reflexivity | exact H].
    intros. apply io_handler_log. eapply quiet_receiveHandler; eauto. }
  destruct (bytes_eqb w (bytes "consume")) eqn:E3.
  { eapply (Step true); [| reflexivity | exact H].
    intros. eapply consume_handler_log; eauto. }
  destruct (bytes_eqb w (bytes "count")) eqn:E4.
  { eapply (Step false); [| reflexivity | exact H].
    intros. apply io_handler_log. eapply quiet_countHandler; eauto. }
  destruct (bytes_eqb w (bytes "msgsize")) eqn:E5.
  { eapply (Step false); [| reflexivity | exact H].
    intros. apply io_handler_log. eapply quiet_msgsizeHandler; eauto. }
  destruct (bytes_eqb w (bytes "maxmsg")) eqn:E6.
  { eapply (Step false); [| reflexivity | exact H].
    intros. apply io_handler_log. eapply quiet_maxmsgHandler; eauto. }
  destruct (bytes_eqb w (bytes "close")) eqn:E7.
  { apply Ret_inj in H as (<- & <- & _). apply loop_log_nil. }
  rewrite bind_emit in H. apply log_then_Ret_inv in H as (l2 & H & ->).
  unfold cerr in H. rewrite bind_locked_emit in H.
  apply log_then_Ret_inv in H as (l3 & H & ->).
  apply Ret_inj in H as (<- & <- & _).
  rewrite app_nil_r. apply loop_log_unknown.
Qed.

(** The loop never runs out of the fuel [serve] gives it. *)
Lemma dispatch_fueled fuel : forall s,
  (length (IStream.data (cin s)) < fuel)%nat -> dispatch fuel s <> OutOfFuel.
Proof.
  induction fuel as [|f IH]; intros s Hlen; [lia|].
  cbn [dispatch]. rewrite bind_input.
  pose proof (IStreamFacts.read_word_consumes (cin s)) as Hw.
  destruct (IStream.read_word (cin s)) as [[w|] c1]; cbn [fst snd] in *;
    [| intros X; discriminate X].
  specialize (Hw w eq_refl).
  rewrite bind_set_chunk.
  assert (Step : forall (h : M Z) s0,
    fueled h ->
    (forall rc lh s1, h s0 = Ret rc lh s1 ->
       (length (IStream.data (cin s1)) <= length (IStream.data (cin s0)))%nat) ->
    (length (IStream.data (cin s0)) < f)%nat ->
    HANDLE_COMMAND w h (dispatch f) s0 <> OutOfFuel).
  { intros h s0 Fh Sh L0. unfold HANDLE_COMMAND, bind.
    specialize (Fh s0). specialize (Sh).
    destruct (h s0) as [rc lh s1| | |] eqn:Hrun;
      [| intros X; discriminate X | intros X; discriminate X | exact Fh].
    specialize (Sh rc lh s1 eq_refl).
    unfold emit. cbn [log_then].
    destruct (rc =? 0); cbn [negb].
    - specialize (IH s1).
      destruct (dispatch f s1) eqn:D; cbn [log_then];
        try (intros X; discriminate X).
      exfalso. apply IH; [lia | reflexivity].
    - intros X; discriminate X. }
  assert (L1 : (length (IStream.data c1) < f)%nat) by lia.
  assert (Q : forall (h : M Z) s0, quiet h ->
    forall rc lh s1, h s0 = Ret rc lh s1 ->
      (length (IStream.data (cin s1)) <= length (IStream.data (cin s0)))%nat).
  { intros h s0 Hq rc lh s1 Hrun. apply Hq in Hrun as (_ & _ & [L _]). exact L. }
  destruct (bytes_eqb w (bytes "send"));
    [apply Step; [apply fueled_sendHandler | apply Q, quiet_sendHandler | exact L1]|].
  destruct (bytes_eqb w (bytes "receive"));
    [apply Step; [apply fueled_receiveHandler | apply Q, quiet_receiveHandler | exact L1]|].
  destruct (bytes_eqb w (bytes "consume")).
  { apply Step; [apply fueled_consumeHandler | | exact L1].
    intros rc lh s1. rewrite consumeHandler_eq. cbn [env cin].
    destruct (pthread_create_script _) as [|[[rc' error] thread] rest];
      [intros X; discriminate X|].
    cbv zeta. destruct (rc' =? 0); intros X; apply Ret_inj in X as (_ & _ & <-);
      cbn [cin]; lia. }
  destruct (bytes_eqb w (bytes "count"));
    [apply Step; [apply fueled_countHandler | apply Q, quiet_countHandler | exact L1]|].
  destruct (bytes_eqb w (bytes "msgsize"));
    [apply Step; [apply fueled_msgsizeHandler | apply Q, quiet_msgsizeHandler | exact L1]|].
  destruct (bytes_eqb w (bytes "maxmsg"));
    [apply Step; [apply fueled_maxmsgHandler | apply Q, quiet_maxmsgHandler | exact L1]|].
  destruct (bytes_eqb w (bytes "close")); [intros X; discriminate X|].
  rewrite bind_emit. unfold cerr. rewrite bind_locked_emit.
  unfold ret. cbn [log_then]. intros X; discriminate X.
Qed.

(** ** [serve] *)

Lemma serve_inv mq o w code log w' :
  serve mq o w = Ret code log w' ->
  exists rc error attributes rest,
    mq_getattr_script (w_env w) = (rc, error, attributes) :: rest /\
    ((rc <> 0 /\ code = rc /\
      log = [MqGetattr rc;
             Cerr (line [bytes "Unable to get queue attributes initially: ";
                         strerror error])]) \/
     (rc = 0 /\
      exists dbg s0 lloop cr s1 lclose cl s2,
        Forall (fun e => is_Cerr e = true) dbg /\
        dispatch (S (length (IStream.data (w_cin w)))) s0 = Ret cr lloop s1 /\
        closeHandler s1 = Ret cl lclose s2 /\
        log = MqGetattr 0 :: dbg ++ lloop ++ lclose
              ++ (if consumerThreadExists (shared s2)
                  then [PthreadJoin (consumerThread (shared s2))] else []) /\
        code = (if cr =? 0 then cl else cr))).
Proof.
  unfold serve.
  destruct (mq_getattr_script (w_env w)) as [|[[rc error] attributes] rest];
    [intros X; discriminate X|].
  intros H. exists rc, error, attributes, rest. split; [reflexivity|].
  destruct (rc =? 0) eqn:E; cbn [negb] in H.
  - right. apply Z.eqb_eq in E. subst rc. split; [reflexivity|].
    cbv zeta in H.
    match type of H with
    | match log_then _ ?r with _ => _ end = _ => destruct r as [a l s| | |] eqn:R
    end; cbn [log_then] in H;
      [| discriminate H | discriminate H | discriminate H].
    apply Ret_inj in H as (-> & <- & _).
    apply bind_Ret_inv in R as (u & dbg & s0 & l2 & Hdbg & R & ->).
    apply bind_Ret_inv in R as (cr & lloop & s1 & l3 & Hloop & R & ->).
    apply bind_Ret_inv in R as (cl & lclose & s2 & l4 & Hclose & R & ->).
    rewrite bind_get_shared in R.
    exists dbg, s0, lloop, cr, s1, lclose, cl, s2.
    assert (Fd : Forall (fun e => is_Cerr e = true) dbg).
    { destruct (debug o).
      - destruct (repr (queueName o)); [|discriminate Hdbg].
        unfold cerr, emit in Hdbg. apply Ret_inj in Hdbg as (_ & <- & _).
        repeat constructor.
      - apply Ret_inj in Hdbg as (_ & <- & _). constructor. }
    repeat split; try assumption.
    + unfold when in R.
      destruct (consumerThreadExists (shared s2)).
      * rewrite bind_emit in R. apply log_then_Ret_inv in R as (l5 & R & ->).
        apply Ret_inj in R as (_ & <- & _). cbn [app]. reflexivity.
      * rewrite bind_ret in R. apply Ret_inj in R as (_ & <- & _). reflexivity.
    + unfold when in R.
      destruct (consumerThreadExists (shared s2)).
      * rewrite bind_emit in R. apply log_then_Ret_inv in R as (l5 & R & _).
        apply Ret_inj in R as (<- & _ & _). destruct (cr =? 0); reflexivity.
      * rewrite bind_ret in R. apply Ret_inj in R as (<- & _ & _).
        destruct (cr =? 0); reflexivity.
  - left. apply Z.eqb_neq in E. apply Ret_inj in H as (<- & <- & _).
    repeat split; auto.
Qed.

Lemma log_then_fueled {A S} l (o : outcome A S) :
  o <> OutOfFuel -> log_then l o <> OutOfFuel.
Proof. destruct o; simpl; intros H X; try discriminate X. apply H, X. Qed.

Lemma bind_fueled_at {A B} (m : M A) (k : A -> M B) s :
  m s <> OutOfFuel -> (forall a, fueled (k a)) -> bind m k s <> OutOfFuel.
Proof.
  intros Hm Hk. unfold bind.
  destruct (m s) as [a l s1| | |];
    [| intros X; discriminate X | intros X; discriminate X
     | exfalso; apply Hm; reflexivity].
  apply log_then_fueled, Hk.
Qed.

(** [serve] never runs out of fuel: the outcome of a session is a result,
    a call that never returns, or a crash. *)
Lemma serve_fueled mq o w : serve mq o w <> OutOfFuel.
Proof.
  unfold serve.
  destruct (mq_getattr_script (w_env w)) as [|[[rc error] attributes] rest];
    [intros X; discriminate X|].
  destruct (negb (rc =? 0)); [intros X; discriminate X|].
  cbv zeta.
  match goal with
  | |- match ?r with _ => _ end <> _ =>
      assert (F : r <> OutOfFuel); [|destruct r;
        first [intros X; discriminate X | exfalso; apply F; reflexivity]]
  end.
  apply log_then_fueled.
  assert (Loop : forall s0 : St, cin s0 = w_cin w ->
    bind (dispatch (S (length (IStream.data (w_cin w)))))
      (fun commandResult =>
         closeResult <- closeHandler;;
         sh <- get_shared;;
         when (consumerThreadExists sh) (emit (PthreadJoin (consumerThread sh)));;
         ret (if negb (commandResult =? 0) then commandResult else closeResult))
      s0 <> OutOfFuel).
  { intros s0 E. apply bind_fueled_at.
    - apply dispatch_fueled. rewrite E. lia.
    - intros cr. apply fueled_bind; [apply fueled_closeHandler|].
      intros cl. fueled_tac. }
  destruct (debug o); [destruct (repr (queueName o))|].
  - unfold cerr. rewrite bind_emit. apply log_then_fueled, Loop. reflexivity.
  - intros X; discriminate X.
  - rewrite bind_ret. apply Loop. reflexivity.
Qed.

(** Once the loop has ended the session ends too, as soon as [mq_close]
    returns. *)
Lemma serve_returns_after_loop mq o w error attributes rest cr lloop s1 :
  mq_getattr_script (w_env w) = (0, error, attributes) :: rest ->
  debug o = false ->
  dispatch (S (length (IStream.data (w_cin w))))
           (mkSt (Shared_new mq (mq_msgsize attributes) o) [] (w_cin w)
                 (set_mq_getattr_script rest (w_env w)))
  = Ret cr lloop s1 ->
  mq_close_script (env s1) <> [] ->
  exists code log w', serve mq o w = Ret code log w'.
Proof.
  intros Hq Hd Hloop Hclose. unfold serve. rewrite Hq, Hd.
  change (negb (0 =? 0)) with false. cbv iota zeta.
  rewrite bind_ret. unfold bind at 1. rewrite Hloop.
  pose proof (closeHandler_eq s1) as C. cbv zeta in C.
  destruct (mq_close_script (env s1)) as [|[rc e] rest']; [contradiction Hclose; reflexivity|].
  unfold bind at 1.
  destruct (consumerThreadExists (shared s1)) eqn:T; rewrite C; cbn [log_then];
    rewrite bind_get_shared; cbn [shared set_stopped consumerThreadExists];
    rewrite T; unfold when;
    rewrite ?bind_emit, ?bind_ret; unfold ret; cbn [log_then];
    eexists; eexists; eexists; reflexivity.
Qed.

(* ------------------------------------------------------------------ *)
(** * The receive handler and the retryable outcome *)
(* ------------------------------------------------------------------ *)

(** [receiveHandler] runs [doReceive] again exactly when [doReceive]
    returned [FAIL_INTERRUPTED_OR_CLOSED], and returns every other outcome
    unchanged; [doReceive] returns that code exactly for a dequeue that
    failed with [EINTR] (transient interruption) or with [EBADF] (the
    descriptor is invalid, or not open for reading). *)
Lemma receiveHandler_retries_interrupted_or_closed :
  (forall s,
     receiveHandler s =
     match doReceive s with
     | Ret rc l s1 =>
         if rc =? FAIL_INTERRUPTED_OR_CLOSED
         then log_then l (receiveHandler s1)
         else Ret rc l s1
     | Blocked l => Blocked l
     | Crash l => Crash l
     | OutOfFuel => OutOfFuel
     end) /\
  (forall s l s1,
     doReceive s = Ret FAIL_INTERRUPTED_OR_CLOSED l s1 ->
     exists e,
       mq_receive_script (env s) = ReceiveError e :: mq_receive_script (env s1)
       /\ (e = EINTR \/ e = EBADF)) /\
  (forall s e rest,
     mq_receive_script (env s) = ReceiveError e :: rest ->
     e = EINTR \/ e = EBADF ->
     0 <= msgsize (shared s) ->
     numbersMaxSize + msgsize (shared s) + 1 <= memory (env s) ->
     exists l s1,
       doReceive s = Ret FAIL_INTERRUPTED_OR_CLOSED l s1 /\
       mq_receive_script (env s1) = rest).
Proof.
  split; [exact receiveHandler_unfold|].
  split; [exact doReceive_retryable|].
  intros s e rest Hs He Hm Hmem.
  pose proof (doReceive_dequeue_failed s e rest Hs Hm Hmem) as D.
  cbv zeta in D.
  assert (E : (e =? EINTR) || (e =? EBADF) = true).
  { destruct He as [-> | ->]; reflexivity. }
  rewrite E in D. eexists; eexists; split; [exact D | reflexivity].
Qed.

Lemma bind_Blocked {A B} (m : M A) (k : A -> M B) s l :
  m s = Blocked l -> bind m k s = Blocked l.
Proof. intros H. unfold bind. rewrite H. reflexivity. Qed.

(** With no answer left, [doReceive] is in its call of [mq_receive]. *)
Lemma doReceive_waits s :
  mq_receive_script (env s) = [] ->
  debug (options (shared s)) = false ->
  0 <= msgsize (shared s) ->
  numbersMaxSize + msgsize (shared s) + 1 <= memory (env s) ->
  doReceive s = Blocked [].
Proof.
  intros Hs Hd Hm Hmem.
  pose proof numbersMaxSize_eq as N.
  unfold doReceive. cbv zeta.
  rewrite bind_get_shared, bind_get_env, bind_get_chunk, bind_assert.
  replace (0 <=? numbersMaxSize + msgsize (shared s) + 1) with true
    by (symmetry; apply Z.leb_le; lia).
  replace (memory (env s) <? numbersMaxSize + msgsize (shared s) + 1) with false
    by (symmetry; apply Z.ltb_ge; lia).
  rewrite bind_set_chunk, bind_assert.
  replace (numbersMaxSize + msgsize (shared s) + 1 =? 0) with false
    by (symmetry; apply Z.eqb_neq; lia).
  cbn [negb].
  rewrite bind_assert.
  replace (numbersMaxSize <=? numbersMaxSize + msgsize (shared s) + 1) with true
    by (symmetry; apply Z.leb_le; lia).
  rewrite bind_debug_line. cbn [shared].
  unfold debug_log. rewrite Hd. cbn [log_then].
  unfold mq_receive. rewrite bind_assoc, bind_ask. cbn [env shared chunk cin].
  rewrite Hs. reflexivity.
Qed.

(** On a descriptor that is not open for reading every [mq_receive] fails
    with [EBADF]: the handler answers each failure with another call and
    writes nothing. *)
Lemma receiveHandler_refused n : forall s,
  mq_receive_script (env s) = repeat (ReceiveError EBADF) n ->
  debug (options (shared s)) = false ->
  0 <= msgsize (shared s) < 2 ^ 64 ->
  numbersMaxSize + msgsize (shared s) + 1 <= memory (env s) ->
  receiveHandler s = Blocked (repeat (MqReceive (msgsize (shared s)) (-1)) n).
Proof.
  induction n as [|n IH]; intros s Hs Hd Hm Hmem;
    rewrite receiveHandler_unfold.
  - rewrite doReceive_waits;
      [reflexivity | exact Hs | exact Hd | lia | exact Hmem].
  - cbn [repeat] in Hs.
    pose proof (doReceive_dequeue_failed s EBADF _ Hs ltac:(lia) Hmem) as D.
    cbv zeta in D. change ((EBADF =? EINTR) || (EBADF =? EBADF)) with true in D.
    cbv iota in D. rewrite D.
    change (FAIL_INTERRUPTED_OR_CLOSED =? FAIL_INTERRUPTED_OR_CLOSED) with true.
    cbv iota. unfold debug_log. rewrite Hd. cbn [app].
    rewrite IH; cbn [shared env memory mq_receive_script set_mq_receive_script];
      [| reflexivity | exact Hd | exact Hm | exact Hmem].
    cbn [log_then app repeat].
    replace ((numbersMaxSize + msgsize (shared s) + 1 - numbersMaxSize - 1)
             mod 2 ^ 64) with (msgsize (shared s))
      by (rewrite Z.mod_small; lia).
    reflexivity.
Qed.

Lemma read_word_receive :
  IStream.read_word (IStream.of_bytes (bytes "receive"))
  = (Some (bytes "receive"), IStream.mk [] true false).
Proof. vm_compute. reflexivity. Qed.

Lemma dispatch_receive_refused fuel s n :
  cin s = IStream.of_bytes (bytes "receive") ->
  mq_receive_script (env s) = repeat (ReceiveError EBADF) n ->
  debug (options (shared s)) = false ->
  0 <= msgsize (shared s) < 2 ^ 64 ->
  numbersMaxSize + msgsize (shared s) + 1 <= memory (env s) ->
  dispatch (S fuel) s
  = Blocked (repeat (MqReceive (msgsize (shared s)) (-1)) n).
Proof.
  intros Hcin Hrecv Hd Hm Hmem.
  cbn [dispatch]. rewrite bind_input, Hcin, read_word_receive.
  cbn [fst snd]. rewrite bind_set_chunk.
  replace (bytes_eqb (bytes "receive") (bytes "send")) with false
    by (vm_compute; reflexivity).
  replace (bytes_eqb (bytes "receive") (bytes "receive")) with true
    by (vm_compute; reflexivity).
  cbv iota. unfold HANDLE_COMMAND.
  apply bind_Blocked.
  rewrite receiveHandler_refused with (n := n);
    [reflexivity | exact Hrecv | exact Hd | exact Hm | exact Hmem].
Qed.

(** A session whose one command is [receive], on a descriptor that is not
    open for reading. *)
Lemma serve_refused mq o w error attributes answers n :
  mq_getattr_script (w_env w) = (0, error, attributes) :: answers ->
  debug o = false ->
  w_cin w = IStream.of_bytes (bytes "receive") ->
  mq_receive_script (w_env w) = repeat (ReceiveError EBADF) n ->
  0 <= mq_msgsize attributes < 2 ^ 64 ->
  numbersMaxSize + mq_msgsize attributes + 1 <= memory (w_env w) ->
  serve mq o w
  = Blocked (MqGetattr 0 :: repeat (MqReceive (mq_msgsize attributes) (-1)) n).
Proof.
  intros Hattr Hd Hcin Hrecv Hm Hmem.
  unfold serve. rewrite Hattr, Hd. cbn [negb Z.eqb]. cbv zeta iota.
  rewrite bind_ret.
  erewrite bind_Blocked; [reflexivity|].
  exact (dispatch_receive_refused _
           (mkSt (Shared_new mq (mq_msgsize attributes) o) [] (w_cin w)
                 (set_mq_getattr_script answers (w_env w)))
           n Hcin Hrecv Hd Hm Hmem).
Qed.

Lemma write_only_command_line :
  let args := [bytes "--write"; bytes "--open"; bytes "/q"] in
  let o := mkOptions WRITE_ONLY OPEN_ONLY 384 false (-1) (-1) false false
                     (bytes "/q") in
  checkArgs (bytes "mq") args = (Returned 0, []) /\
  parseOptions (bytes "mq") args = Some o /\
  openQueue o 3 = Some [MqOpen (bytes "/q") O_WRONLY 384 None 3].
Proof. cbv zeta. repeat split; vm_compute; reflexivity. Qed.

(** C1: the defect.  A queue opened with [--write] alone is not open for
    reading, so every [mq_receive] on it fails with [EBADF].  On the
    command [receive] the handler takes that for an interruption and calls
    [mq_receive] again after every failure: whatever the number [n] of
    failures, it has then called [mq_receive] [n] times, written nothing
    and returned nothing, and is in its next call. *)
Theorem receive_spins_on_write_only_queue (n : nat) :
  main (bytes "mq") [bytes "--write"; bytes "--open"; bytes "/q"]
       (mkHost (0, 0) (3, 0)
               (sample_world "receive" (not_open_for_reading n)))
  = Some ([MqOpen (bytes "/q") O_WRONLY 384 None 3],
          Blocked (MqGetattr 0 :: repeat (MqReceive 8 (-1)) n)).
Proof.
  destruct write_only_command_line as (C & P & O). cbv zeta in C, P, O.
  unfold main. rewrite C. cbn [negb Z.eqb]. cbv iota.
  rewrite P. cbn [unlink mq_open_answer host_world]. cbv iota.
  rewrite O. change (3 =? -1) with false. cbv iota.
  rewrite (serve_refused 3 _ _ 0 sample_attr [(0, 0, sample_attr)] n);
    [reflexivity | reflexivity | reflexivity | reflexivity | reflexivity
    | split; [discriminate | reflexivity] | vm_compute; discriminate].
Qed.

(* ------------------------------------------------------------------ *)
(** * The room reserved for the prefix *)
(* ------------------------------------------------------------------ *)

Lemma log10_fuel_nonneg fuel : forall n, 0 <= log10_fuel fuel n.
Proof.
  induction fuel as [|f IH]; intros n; cbn [log10_fuel]; [lia|].
  destruct (n <? 10); [lia|]. specialize (IH (n / 10)). lia.
Qed.

Lemma log10_fuel_bound fuel : forall n k,
  1 <= k -> 0 <= n < 10 ^ k -> log10_fuel fuel n < k.
Proof.
  induction fuel as [|f IH]; intros n k Hk Hn; cbn [log10_fuel]; [lia|].
  destruct (n <? 10) eqn:E; [lia|]. apply Z.ltb_ge in E.
  assert (2 <= k).
  { destruct (Z.eq_dec k 1) as [->|]; [change (10 ^ 1) with 10 in Hn; lia | lia]. }
  assert (log10_fuel f (n / 10) < k - 1); [|lia].
  apply IH; [lia|].
  split; [apply Z.div_pos; lia|].
  apply Z.div_lt_upper_bound; [lia|].
  replace (10 * 10 ^ (k - 1)) with (10 ^ k); [lia|].
  replace k with (Z.succ (k - 1)) at 1 by lia.
  rewrite Z.pow_succ_r by lia. reflexivity.
Qed.

Lemma decimal_fuel_length fuel : forall n acc,
  len (decimal_fuel fuel n acc) = 1 + log10_fuel fuel n + len acc.
Proof.
  unfold len.
  induction fuel as [|f IH]; intros n acc;
    cbn [decimal_fuel log10_fuel length]; [lia|].
  destruct (n <? 10); cbn [length]; [lia|].
  rewrite IH. cbn [length]. lia.
Qed.

(** The width [sizeBase10] computes is the width of the numeral. *)
Lemma sizeBase10_decimal n : 0 <= n -> sizeBase10 n = len (decimal n).
Proof.
  intros Hn. unfold sizeBase10, decimal, log10_floor.
  rewrite decimal_fuel_length. change (len []) with 0.
  destruct (n =? 0) eqn:E.
  - apply Z.eqb_eq in E. subst n. reflexivity.
  - destruct (n <? 0) eqn:E2; [apply Z.ltb_lt in E2; lia | lia].
Qed.

Lemma sizeBase10_bound n k :
  1 <= k -> 0 <= n < 10 ^ k -> 1 <= sizeBase10 n <= k.
Proof.
  intros Hk Hn. unfold sizeBase10, log10_floor.
  destruct (n =? 0); [lia|].
  destruct (n <? 0) eqn:E2; [apply Z.ltb_lt in E2; lia|].
  pose proof (log10_fuel_nonneg (S (Z.to_nat (Z.log2 n))) n).
  pose proof (log10_fuel_bound (S (Z.to_nat (Z.log2 n))) n k Hk Hn).
  lia.
Qed.

Lemma len_app a b : len (a ++ b) = len a + len b.
Proof. unfold len. rewrite length_app. lia. Qed.

(** Where the room suffices: a message shorter than 10^18 bytes, or a
    priority below 10^9.  There the prefix fits and
    [assert(numbersSize == numbersExpectedSize)] holds. *)
Lemma prefix_fits priority msgSize :
  0 <= priority <= UINT_MAX ->
  0 <= msgSize <= SSIZE_MAX ->
  msgSize < 10 ^ 18 \/ priority < 10 ^ 9 ->
  let numbersExpectedSize :=
    sizeBase10 priority + 1 + sizeBase10 msgSize + 1 in
  let numbersSize := len (decimal priority ++ [SP] ++ print_Z msgSize) + 1 in
  numbersSize = numbersExpectedSize /\
  0 <= numbersMaxSize - numbersExpectedSize.
Proof.
  intros Hp Hm Hsmall. cbv zeta. rewrite numbersMaxSize_eq.
  rewrite !len_app. unfold print_Z.
  replace (msgSize <? 0) with false by (symmetry; apply Z.ltb_ge; lia).
  rewrite <- !sizeBase10_decimal by lia. change (len [SP]) with 1.
  split; [lia|].
  assert (P10 : 1 <= sizeBase10 priority <= 10).
  { apply sizeBase10_bound; [lia|]. unfold UINT_MAX, unsigned_digits in Hp.
    change (2 ^ 32 - 1) with 4294967295 in Hp.
    change (10 ^ 10) with 10000000000. lia. }
  assert (M19 : 1 <= sizeBase10 msgSize <= 19).
  { apply sizeBase10_bound; [lia|]. unfold SSIZE_MAX, ssize_t_digits in Hm.
    change (2 ^ 63 - 1) with 9223372036854775807 in Hm.
    change (10 ^ 19) with 10000000000000000000. lia. }
  destruct Hsmall as [Hs | Hs].
  - assert (1 <= sizeBase10 msgSize <= 18) by (apply sizeBase10_bound; lia).
    lia.
  - assert (1 <= sizeBase10 priority <= 9) by (apply sizeBase10_bound; lia).
    lia.
Qed.

Lemma store_before_buffer buf off bs : off < 0 -> store buf off bs = None.
Proof.
  intros H. unfold store.
  replace (0 <=? off) with false by (symmetry; apply Z.leb_gt; lia).
  reflexivity.
Qed.

(** Where the room would not suffice: the largest priority and a message
    of 10^18 bytes are within the ranges of [unsigned] and [ssize_t], their
    prefix is 31 characters wide and [numbersMaxSize] is 30.  No buffer of
    that size can be allocated, so that no such message is received. *)
Remark numbersMaxSize_one_short :
  let priority := 4294967295 in
  let msgSize := 10 ^ 18 in
  let numbersExpectedSize :=
    sizeBase10 priority + 1 + sizeBase10 msgSize + 1 in
  0 <= priority <= UINT_MAX /\
  0 <= msgSize <= SSIZE_MAX /\
  digits10 unsigned_digits = 9 /\
  digits10 ssize_t_digits = 18 /\
  numbersMaxSize = 30 /\
  numbersExpectedSize = 31 /\
  len (decimal priority ++ [SP] ++ print_Z msgSize) + 1 = 31 /\
  numbersMaxSize - numbersExpectedSize = -1 /\
  (forall buf bs, store buf (numbersMaxSize - numbersExpectedSize) bs = None).
Proof.
  cbv zeta.
  split; [vm_compute; split; discriminate|].
  split; [vm_compute; split; discriminate|].
  do 6 (split; [vm_compute; reflexivity|]).
  intros buf bs. apply store_before_buffer. vm_compute. reflexivity.
Qed.

(** ** The buffer of [doReceive] *)

Lemma len_nonneg l : 0 <= len l.
Proof. unfold len. lia. Qed.

Lemma len_resize c n : 0 <= n -> len (resize c n) = n.
Proof.
  intros H. unfold len, resize.
  rewrite length_app, length_firstn, repeat_length. lia.
Qed.

Lemma split_at (l : list ascii) n :
  0 <= n <= len l -> exists a c, l = a ++ c /\ len a = n.
Proof.
  intros H. exists (firstn (Z.to_nat n) l), (skipn (Z.to_nat n) l).
  split; [symmetry; apply firstn_skipn|].
  unfold len in *. rewrite length_firstn. lia.
Qed.

(** Storing over a segment of the buffer replaces that segment. *)
Lemma store_at (a m c bs : list ascii) off :
  off = len a -> len bs = len m ->
  store (a ++ m ++ c) off bs = Some (a ++ bs ++ c).
Proof.
  intros -> Hl. unfold store.
  rewrite !len_app.
  pose proof (len_nonneg a). pose proof (len_nonneg c).
  replace (0 <=? len a) with true by (symmetry; apply Z.leb_le; lia).
  replace (len a + len bs <=? len a + (len m + len c)) with true
    by (symmetry; apply Z.leb_le; lia).
  cbn [andb]. f_equal. unfold len in *.
  rewrite Nat2Z.id.
  rewrite firstn_app, Nat.sub_diag, firstn_all. cbn [firstn].
  rewrite app_nil_r. f_equal. f_equal.
  replace (Z.to_nat (Z.of_nat (length a) + Z.of_nat (length bs)))
    with (length a + length m)%nat by lia.
  rewrite skipn_app.
  rewrite skipn_all2 by lia. cbn [app].
  replace (length a + length m - length a)%nat with (length m) by lia.
  rewrite skipn_app, Nat.sub_diag, skipn_all. reflexivity.
Qed.

Lemma slice_at (a m c : list ascii) off n :
  off = len a -> n = len m -> slice (a ++ m ++ c) off n = m.
Proof.
  intros -> ->. unfold slice, len. rewrite !Nat2Z.id.
  rewrite skipn_app, Nat.sub_diag, skipn_all. cbn [skipn app].
  rewrite firstn_app, Nat.sub_diag, firstn_all. cbn [firstn].
  apply app_nil_r.
Qed.

Lemma bind_store_chunk {B} off bs (k : unit -> M B) s :
  bind (store_chunk off bs) k s =
  match store (chunk s) off bs with
  | Some buf => k tt (mkSt (shared s) buf (cin s) (env s))
  | None => Crash []
  end.
Proof.
  unfold store_chunk. rewrite bind_assoc, bind_get_chunk.
  destruct (store (chunk s) off bs); [apply bind_set_chunk | reflexivity].
Qed.

(** The prologue of [doReceive], up to a message dequeued into the
    buffer. *)
Lemma doReceive_dequeued s payload priority rest :
  mq_receive_script (env s) = Message payload priority :: rest ->
  len payload <= msgsize (shared s) < 2 ^ 64 ->
  numbersMaxSize + msgsize (shared s) + 1 <= memory (env s) ->
  let newSize := numbersMaxSize + msgsize (shared s) + 1 in
  let msgSize := len payload in
  let numbersExpectedSize :=
    sizeBase10 priority + 1 + sizeBase10 msgSize + 1 in
  let numbersBegin := numbersMaxSize - numbersExpectedSize in
  exists pre front back,
    stdout_bytes pre = [] /\
    len front = numbersMaxSize /\
    len back = msgsize (shared s) - msgSize /\
    doReceive s =
    log_then pre
      ((n <- snprintf numbersBegin (newSize - numbersBegin)
               (decimal priority ++ [SP] ++ print_Z msgSize) ;;
        let numbersSize := n + 1 in
        debug_line [bytes "measured numbersSize="; print_Z numbersSize] ;;
        assert (numbersSize =? numbersExpectedSize) ;;
        store_chunk (numbersBegin + numbersSize - 1) [SP] ;;
        let outputSize := numbersSize + msgSize + 1 in
        stdoutLock <- Lock_new stdoutMutex (consumerThreadExists (shared s)) ;;
        buffer <- get_chunk ;;
        w <- zoom write_script set_write_script
               (write_loop (slice buffer numbersBegin outputSize) outputSize 0) ;;
        match w with
        | Some error =>
            stdoutLock <- Lock_release stdoutLock ;;
            locked stderrMutex
              (cerr [bytes "Failed to return message: "; strerror error]) ;;
            Lock_delete stdoutLock ;;
            ret FAIL_WRITE
        | None =>
            Lock_delete stdoutLock ;;
            ret 0
        end)
       (mkSt (shared s) (front ++ payload ++ [NL] ++ back) (cin s)
             (set_mq_receive_script rest (env s)))).
Proof.
  intros Hs Hm Hmem. cbv zeta.
  pose proof numbersMaxSize_eq as N.
  pose proof (len_nonneg payload) as Hp.
  unfold doReceive. cbv zeta.
  rewrite bind_get_shared, bind_get_env, bind_get_chunk, bind_assert.
  replace (0 <=? numbersMaxSize + msgsize (shared s) + 1) with true
    by (symmetry; apply Z.leb_le; lia).
  replace (memory (env s) <? numbersMaxSize + msgsize (shared s) + 1) with false
    by (symmetry; apply Z.ltb_ge; lia).
  rewrite bind_set_chunk, bind_assert.
  replace (numbersMaxSize + msgsize (shared s) + 1 =? 0) with false
    by (symmetry; apply Z.eqb_neq; lia).
  cbn [negb].
  rewrite bind_assert.
  replace (numbersMaxSize <=? numbersMaxSize + msgsize (shared s) + 1) with true
    by (symmetry; apply Z.leb_le; lia).
  rewrite bind_debug_line. cbn [shared].
  unfold mq_receive. rewrite bind_assoc, bind_ask. cbn [env shared chunk cin].
  rewrite Hs.
  replace ((numbersMaxSize + msgsize (shared s) + 1 - numbersMaxSize - 1)
           mod 2 ^ 64) with (msgsize (shared s))
    by (rewrite Z.mod_small; lia).
  replace (len payload <=? msgsize (shared s)) with true
    by (symmetry; apply Z.leb_le; lia).
  (* the buffer, cut where the stores fall *)
  set (buf := resize (chunk s) (numbersMaxSize + msgsize (shared s) + 1)).
  assert (Lb : len buf = numbersMaxSize + msgsize (shared s) + 1)
    by (apply len_resize; lia).
  destruct (split_at buf numbersMaxSize) as (front & r1 & Eb & Lf); [lia|].
  assert (L1 : len r1 = msgsize (shared s) + 1)
    by (rewrite Eb, len_app in Lb; lia).
  destruct (split_at r1 (len payload)) as (m1 & r2 & E1 & Lm1); [lia|].
  assert (L2 : len r2 = msgsize (shared s) + 1 - len payload)
    by (rewrite E1, len_app in L1; lia).
  destruct (split_at r2 1) as (m2 & back & E2 & Lm2); [lia|].
  assert (L3 : len back = msgsize (shared s) - len payload)
    by (rewrite E2, len_app in L2; lia).
  rewrite !bind_assoc, bind_store_chunk. cbn [chunk shared cin env].
  rewrite Eb, E1, E2.
  rewrite (store_at front m1 (m2 ++ back) payload) by (auto; lia).
  rewrite !bind_assoc, bind_emit, bind_ret.
  replace (len payload =? -1) with false by (symmetry; apply Z.eqb_neq; lia).
  rewrite bind_debug_line, bind_assert. cbn [shared].
  replace (0 <=? len payload) with true by (symmetry; apply Z.leb_le; lia).
  rewrite bind_store_chunk. cbn [chunk shared cin env].
  replace (front ++ payload ++ m2 ++ back)
    with ((front ++ payload) ++ m2 ++ back) by (rewrite <- app_assoc; reflexivity).
  rewrite (store_at (front ++ payload) m2 back [NL])
    by (rewrite ?len_app; auto; lia).
  rewrite bind_debug_line. cbn [shared].
  rewrite !log_then_app.
  eexists; exists front, back.
  split; [|split; [exact Lf | split; [exact L3|]]].
  2: { rewrite <- !app_assoc. reflexivity. }
  unfold debug_log, guarded.
  destruct (debug (options (shared s)));
    destruct (consumerThreadExists (shared s)); reflexivity.
Qed.

(** What [doReceive] does with a message it dequeued.  When the prefix is
    wider than the room reserved the store of the prefix falls before the
    buffer.  Otherwise the prefix, the payload and the newline lie in the
    buffer, one after the other, and that region is what every [write] is
    offered. *)
Lemma doReceive_message s payload priority rest :
  mq_receive_script (env s) = Message payload priority :: rest ->
  0 <= priority ->
  len payload <= msgsize (shared s) < 2 ^ 64 ->
  numbersMaxSize + msgsize (shared s) + 1 <= memory (env s) ->
  let numbersExpectedSize :=
    sizeBase10 priority + 1 + sizeBase10 (len payload) + 1 in
  let region :=
    decimal priority ++ [SP] ++ decimal (len payload) ++ [SP]
    ++ payload ++ [NL] in
  let exists_ := consumerThreadExists (shared s) in
  let acquire := if exists_ then [Acquire stdoutMutex] else [] in
  let release := if exists_ then [Release stdoutMutex] else [] in
  exists pre,
    stdout_bytes pre = [] /\
    if numbersMaxSize <? numbersExpectedSize then doReceive s = Crash pre
    else
      exists chunk',
        doReceive s =
        match write_loop region (len region) 0 (write_script (env s)) with
        | Ret w l ws =>
            Ret (match w with Some _ => FAIL_WRITE | None => 0 end)
                (pre ++ acquire ++ l ++ release
                 ++ match w with
                    | Some error =>
                        guarded exists_ stderrMutex
                          [Cerr (line [bytes "Failed to return message: ";
                                       strerror error])]
                    | None => []
                    end)
                (mkSt (shared s) chunk' (cin s)
                      (set_write_script ws
                         (set_mq_receive_script rest (env s))))
        | Blocked l => Blocked (pre ++ acquire ++ l)
        | Crash l => Crash (pre ++ acquire ++ l)
        | OutOfFuel => OutOfFuel
        end.
Proof.
  intros Hs Hprio Hm Hmem. cbv zeta.
  pose proof numbersMaxSize_eq as N.
  pose proof (len_nonneg payload) as Hp.
  destruct (doReceive_dequeued s payload priority rest Hs Hm Hmem)
    as (pre & front & back & Hpre & Lf & Lb & ->).
  set (E := sizeBase10 priority + 1 + sizeBase10 (len payload) + 1).
  set (text := decimal priority ++ [SP] ++ print_Z (len payload)).
  assert (Lt : len text + 1 = E).
  { subst text E. rewrite !len_app. unfold print_Z.
    replace (len payload <? 0) with false by (symmetry; apply Z.ltb_ge; lia).
    rewrite <- !sizeBase10_decimal by lia. change (len [SP]) with 1. lia. }
  assert (Tx : text = decimal priority ++ [SP] ++ decimal (len payload)).
  { subst text. unfold print_Z.
    replace (len payload <? 0) with false by (symmetry; apply Z.ltb_ge; lia).
    reflexivity. }
  pose proof (len_nonneg text) as Hn.
  unfold snprintf, when.
  destruct (numbersMaxSize <? E) eqn:Fit.
  - (* the prefix begins before the buffer *)
    apply Z.ltb_lt in Fit.
    exists pre. split; [exact Hpre|].
    replace (0 <? numbersMaxSize + msgsize (shared s) + 1 - (numbersMaxSize - E))
      with true by (symmetry; apply Z.ltb_lt; lia).
    rewrite bind_assoc, bind_store_chunk.
    rewrite store_before_buffer by lia.
    cbn [log_then]. rewrite app_nil_r. reflexivity.
  - apply Z.ltb_ge in Fit.
    replace (0 <? numbersMaxSize + msgsize (shared s) + 1 - (numbersMaxSize - E))
      with true by (symmetry; apply Z.ltb_lt; lia).
    destruct (split_at front (numbersMaxSize - E)) as (a & m & Ef & La); [lia|].
    assert (Lm : len m = E) by (rewrite Ef, len_app in Lf; lia).
    rewrite bind_assoc, bind_store_chunk. cbn [chunk shared cin env].
    rewrite firstn_all2 by (unfold len in *; lia).
    rewrite Ef, <- app_assoc.
    rewrite (store_at a m (payload ++ [NL] ++ back) (text ++ [NUL]))
      by (rewrite ?len_app; change (len [NUL]) with 1; lia).
    rewrite bind_ret, bind_debug_line, bind_assert. cbn [shared].
    replace (len text + 1 =? E) with true by (symmetry; apply Z.eqb_eq; lia).
    rewrite bind_store_chunk. cbn [chunk shared cin env].
    replace (a ++ (text ++ [NUL]) ++ payload ++ [NL] ++ back)
      with ((a ++ text) ++ [NUL] ++ payload ++ [NL] ++ back)
      by (rewrite <- !app_assoc; reflexivity).
    rewrite (store_at (a ++ text) [NUL] (payload ++ [NL] ++ back) [SP])
      by (rewrite ?len_app; auto; lia).
    rewrite bind_Lock_new, bind_get_chunk. cbn [chunk shared cin env].
    replace ((a ++ text) ++ [SP] ++ payload ++ [NL] ++ back)
      with (a ++ (text ++ [SP] ++ payload ++ [NL]) ++ back)
      by (rewrite <- !app_assoc; reflexivity).
    rewrite (slice_at a (text ++ [SP] ++ payload ++ [NL]) back)
      by (rewrite ?len_app; change (len [SP]) with 1; change (len [NL]) with 1;
          lia).
    replace (len text + 1 + len payload + 1)
      with (len (text ++ [SP] ++ payload ++ [NL]))
      by (rewrite ?len_app; change (len [SP]) with 1; change (len [NL]) with 1;
          lia).
    rewrite Tx. rewrite <- !app_assoc.
    set (region := decimal priority ++ [SP] ++ decimal (len payload) ++ [SP]
                   ++ payload ++ [NL]).
    rewrite bind_zoom.
    cbn [chunk shared cin env write_script set_mq_receive_script].
    eexists (pre ++ debug_log (shared s) _). split.
    { rewrite <- (app_nil_r (stdout_bytes _)).
      assert (A : forall l1 l2, stdout_bytes l1 = [] -> stdout_bytes l2 = [] ->
                                stdout_bytes (l1 ++ l2) = []).
      { clear. induction l1 as [|e l IH]; intros l2 H1 H2; [exact H2|].
        destruct e; cbn [app stdout_bytes] in *; auto;
          apply app_eq_nil in H1 as [-> H1]; cbn [app]; auto. }
      rewrite app_nil_r. apply A; [exact Hpre|].
      unfold debug_log, guarded.
      destruct (debug (options (shared s)));
        destruct (consumerThreadExists (shared s)); reflexivity. }
    eexists.
    destruct (write_loop region (len region) 0 (write_script (env s)))
      as [[error|] l ws| | |]; cbn [log_then]; cbv beta iota.
    + rewrite bind_Lock_release. unfold cerr.
      rewrite bind_locked_emit, bind_Lock_delete.
      unfold ret. cbn [log_then shared app]. rewrite ?app_nil_r.
      rewrite <- !app_assoc. reflexivity.
    + rewrite bind_Lock_delete. unfold ret. cbn [log_then].
      rewrite ?app_nil_r, <- !app_assoc. reflexivity.
    + rewrite <- !app_assoc. reflexivity.
    + rewrite <- !app_assoc. reflexivity.
    + reflexivity.
Qed.

(* ------------------------------------------------------------------ *)
(** * The write loop *)
(* ------------------------------------------------------------------ *)

(** Every call of the loop offers the whole region, whatever was written
    before. *)
Lemma write_loop_offers_region region outputSize script : forall written,
  match write_loop region outputSize written script with
  | Ret _ l _ | Blocked l | Crash l =>
      Forall (fun e => exists rc, e = SysWrite region rc) l
  | OutOfFuel => True
  end.
Proof.
  induction script as [|[rc error] rest IH]; intros written; simpl.
  - destruct (written =? outputSize); constructor.
  - destruct (written =? outputSize); [constructor|].
    destruct (rc =? -1).
    + destruct (error =? EINTR); [|simpl; repeat econstructor].
      specialize (IH written).
      destruct (write_loop region outputSize written rest); simpl; auto;
        constructor; eauto.
    + specialize (IH (written + rc)).
      destruct (write_loop region outputSize (written + rc) rest); simpl; auto;
        constructor; eauto.
Qed.

(** What the loop does with the first answer of [write]: a complete write
    ends it, an interruption repeats the call, any other failure ends it
    with the error. *)
Lemma write_loop_first region outputSize rc error rest :
  0 <> outputSize ->
  write_loop region outputSize 0 ((rc, error) :: rest) =
  if rc =? -1 then
    if error =? EINTR
    then log_then [SysWrite region (-1)] (write_loop region outputSize 0 rest)
    else Ret (Some error) [SysWrite region (-1)] rest
  else if rc =? outputSize then Ret None [SysWrite region rc] rest
  else log_then [SysWrite region rc] (write_loop region outputSize rc rest).
Proof.
  intros H. cbn [write_loop].
  replace (0 =? outputSize) with false by (symmetry; apply Z.eqb_neq; exact H).
  destruct (rc =? -1) eqn:E.
  - apply Z.eqb_eq in E. subst rc. destruct (error =? EINTR); reflexivity.
  - cbn [Z.add]. destruct (rc =? outputSize) eqn:E2; [|reflexivity].
    destruct rest as [|[rc' error'] rest']; cbn [write_loop]; rewrite E2;
      reflexivity.
Qed.


Lemma write_loop_never_crashes region outputSize script : forall written l,
  write_loop region outputSize written script <> Crash l.
Proof.
  induction script as [|[rc error] rest IH]; intros written l; cbn [write_loop].
  - destruct (written =? outputSize); intros X; discriminate X.
  - destruct (written =? outputSize); [intros X; discriminate X|].
    destruct (rc =? -1).
    + destruct (error =? EINTR); [|intros X; discriminate X].
      specialize (IH written).
      destruct (write_loop region outputSize written rest); cbn [log_then];
        intros X; try discriminate X. exact (IH _ eq_refl).
    + specialize (IH (written + rc)).
      destruct (write_loop region outputSize (written + rc) rest);
        cbn [log_then]; intros X; try discriminate X. exact (IH _ eq_refl).
Qed.

(** Below 10^18 bytes of message size every store of [doReceive] falls
    inside the buffer and both assertions on the sizes hold. *)
Lemma doReceive_in_bounds s payload priority rest :
  mq_receive_script (env s) = Message payload priority :: rest ->
  0 <= priority <= UINT_MAX ->
  len payload <= msgsize (shared s) < 10 ^ 18 ->
  numbersMaxSize + msgsize (shared s) + 1 <= memory (env s) ->
  forall l, doReceive s <> Crash l.
Proof.
  intros Hs Hprio Hm Hmem l.
  pose proof (len_nonneg payload) as Hp.
  destruct (doReceive_message s payload priority rest Hs) as (pre & _ & H);
    [lia | | exact Hmem |].
  { split; [lia|]. assert (10 ^ 18 < 2 ^ 64) by reflexivity. lia. }
  cbv zeta in H.
  destruct (prefix_fits priority (len payload)) as (_ & Fit).
  { exact Hprio. }
  { split; [lia|]. unfold SSIZE_MAX, ssize_t_digits.
    assert (10 ^ 18 < 2 ^ 63 - 1) by reflexivity. lia. }
  { left. lia. }
  cbv zeta in Fit.
  replace (numbersMaxSize <?
           sizeBase10 priority + 1 + sizeBase10 (len payload) + 1)
    with false in H by (symmetry; apply Z.ltb_ge; lia).
  destruct H as (chunk' & ->).
  pose proof (write_loop_never_crashes
    (decimal priority ++ [SP] ++ decimal (len payload) ++ [SP] ++ payload ++ [NL])
    (len (decimal priority ++ [SP] ++ decimal (len payload) ++ [SP]
          ++ payload ++ [NL])) (write_script (env s)) 0) as W.
  destruct (write_loop _ _ _ _); intros X; try discriminate X.
  exact (W _ eq_refl).
Qed.

(** When the first [write] takes the whole region, standard output gets
    exactly [<priority> <size> <payload>] and a newline. *)
Lemma doReceive_prints_region s payload priority rest rc error ws :
  mq_receive_script (env s) = Message payload priority :: rest ->
  0 <= priority <= UINT_MAX ->
  len payload <= msgsize (shared s) < 10 ^ 18 ->
  numbersMaxSize + msgsize (shared s) + 1 <= memory (env s) ->
  let region :=
    decimal priority ++ [SP] ++ decimal (len payload) ++ [SP]
    ++ payload ++ [NL] in
  write_script (env s) = (rc, error) :: ws ->
  rc = len region ->
  exists log s',
    doReceive s = Ret 0 log s' /\ stdout_bytes log = region.
Proof.
  intros Hs Hprio Hm Hmem region Hw Hrc.
  pose proof (len_nonneg payload) as Hp.
  destruct (doReceive_message s payload priority rest Hs) as (pre & Hpre & H);
    [lia | | exact Hmem |].
  { split; [lia|]. assert (10 ^ 18 < 2 ^ 64) by reflexivity. lia. }
  cbv zeta in H.
  destruct (prefix_fits priority (len payload)) as (_ & Fit).
  { exact Hprio. }
  { split; [lia|]. unfold SSIZE_MAX, ssize_t_digits.
    assert (10 ^ 18 < 2 ^ 63 - 1) by reflexivity. lia. }
  { left. lia. }
  cbv zeta in Fit.
  replace (numbersMaxSize <?
           sizeBase10 priority + 1 + sizeBase10 (len payload) + 1)
    with false in H by (symmetry; apply Z.ltb_ge; lia).
  destruct H as (chunk' & H). fold region in H.
  assert (Lr : 0 < len region).
  { subst region. rewrite !len_app. change (len [NL]) with 1.
    pose proof (len_nonneg (decimal priority)).
    pose proof (len_nonneg (decimal (len payload))).
    change (len [SP]) with 1. lia. }
  rewrite Hw in H.
  rewrite write_loop_first in H by lia.
  replace (rc =? -1) with false in H by (symmetry; apply Z.eqb_neq; lia).
  replace (rc =? len region) with true in H by (symmetry; apply Z.eqb_eq; lia).
  eexists; eexists. split; [exact H|].
  assert (A : forall l1 l2, stdout_bytes l1 = [] ->
                            stdout_bytes (l1 ++ l2) = stdout_bytes l2).
  { clear. induction l1 as [|e l IH]; intros l2 H1; [reflexivity|].
    destruct e; cbn [app stdout_bytes] in *; auto;
      apply app_eq_nil in H1 as [-> H1]; cbn [app]; auto. }
  rewrite A by exact Hpre.
  rewrite A by (destruct (consumerThreadExists (shared s)); reflexivity).
  cbn [app stdout_bytes].
  replace (rc <? 0) with false by (symmetry; apply Z.ltb_ge; lia).
  rewrite Hrc. unfold len. rewrite Nat2Z.id, firstn_all.
  destruct (consumerThreadExists (shared s)); cbn [app stdout_bytes];
    rewrite ?app_nil_r; reflexivity.
Qed.

(** A message dequeued where the prefix fits: the buffer [doReceive]
    leaves, of the size allocated, holds the prefix, the payload and the
    newline one after the other, and that region is what [write] is
    offered. *)
Lemma doReceive_message_in_buffer s payload priority rest :
  mq_receive_script (env s) = Message payload priority :: rest ->
  0 <= priority ->
  len payload <= msgsize (shared s) < 2 ^ 64 ->
  numbersMaxSize + msgsize (shared s) + 1 <= memory (env s) ->
  let numbersExpectedSize :=
    sizeBase10 priority + 1 + sizeBase10 (len payload) + 1 in
  let region :=
    decimal priority ++ [SP] ++ decimal (len payload) ++ [SP]
    ++ payload ++ [NL] in
  let exists_ := consumerThreadExists (shared s) in
  let acquire := if exists_ then [Acquire stdoutMutex] else [] in
  let release := if exists_ then [Release stdoutMutex] else [] in
  numbersExpectedSize <= numbersMaxSize ->
  exists pre before after,
    stdout_bytes pre = [] /\
    len before = numbersMaxSize - numbersExpectedSize /\
    len after = msgsize (shared s) - len payload /\
    doReceive s =
    match write_loop region (len region) 0 (write_script (env s)) with
    | Ret w l ws =>
        Ret (match w with Some _ => FAIL_WRITE | None => 0 end)
            (pre ++ acquire ++ l ++ release
             ++ match w with
                | Some error =>
                    guarded exists_ stderrMutex
                      [Cerr (line [bytes "Failed to return message: ";
                                   strerror error])]
                | None => []
                end)
            (mkSt (shared s) (before ++ region ++ after) (cin s)
                  (set_write_script ws
                     (set_mq_receive_script rest (env s))))
    | Blocked l => Blocked (pre ++ acquire ++ l)
    | Crash l => Crash (pre ++ acquire ++ l)
    | OutOfFuel => OutOfFuel
    end.
Proof.
  intros Hs Hprio Hm Hmem. cbv zeta. intros Fit.
  pose proof numbersMaxSize_eq as N.
  pose proof (len_nonneg payload) as Hp.
  destruct (doReceive_dequeued s payload priority rest Hs Hm Hmem)
    as (pre & front & back & Hpre & Lf & Lb & ->).
  set (E := sizeBase10 priority + 1 + sizeBase10 (len payload) + 1) in *.
  set (text := decimal priority ++ [SP] ++ print_Z (len payload)).
  assert (Lt : len text + 1 = E).
  { subst text E. rewrite !len_app. unfold print_Z.
    replace (len payload <? 0) with false by (symmetry; apply Z.ltb_ge; lia).
    rewrite <- !sizeBase10_decimal by lia. change (len [SP]) with 1. lia. }
  assert (Tx : text = decimal priority ++ [SP] ++ decimal (len payload)).
  { subst text. unfold print_Z.
    replace (len payload <? 0) with false by (symmetry; apply Z.ltb_ge; lia).
    reflexivity. }
  pose proof (len_nonneg text) as Hn.
  unfold snprintf, when.
  replace (0 <? numbersMaxSize + msgsize (shared s) + 1 - (numbersMaxSize - E))
    with true by (symmetry; apply Z.ltb_lt; lia).
  destruct (split_at front (numbersMaxSize - E)) as (a & m & Ef & La); [lia|].
  assert (Lm : len m = E) by (rewrite Ef, len_app in Lf; lia).
  rewrite bind_assoc, bind_store_chunk. cbn [chunk shared cin env].
  rewrite firstn_all2 by (unfold len in *; lia).
  rewrite Ef, <- app_assoc.
  rewrite (store_at a m (payload ++ [NL] ++ back) (text ++ [NUL]))
    by (rewrite ?len_app; change (len [NUL]) with 1; lia).
  rewrite bind_ret, bind_debug_line, bind_assert. cbn [shared].
  replace (len text + 1 =? E) with true by (symmetry; apply Z.eqb_eq; lia).
  rewrite bind_store_chunk. cbn [chunk shared cin env].
  replace (a ++ (text ++ [NUL]) ++ payload ++ [NL] ++ back)
    with ((a ++ text) ++ [NUL] ++ payload ++ [NL] ++ back)
    by (rewrite <- !app_assoc; reflexivity).
  rewrite (store_at (a ++ text) [NUL] (payload ++ [NL] ++ back) [SP])
    by (rewrite ?len_app; auto; lia).
  rewrite bind_Lock_new, bind_get_chunk. cbn [chunk shared cin env].
  replace ((a ++ text) ++ [SP] ++ payload ++ [NL] ++ back)
    with (a ++ (text ++ [SP] ++ payload ++ [NL]) ++ back)
    by (rewrite <- !app_assoc; reflexivity).
  rewrite (slice_at a (text ++ [SP] ++ payload ++ [NL]) back)
    by (rewrite ?len_app; change (len [SP]) with 1; change (len [NL]) with 1;
        lia).
  replace (len text + 1 + len payload + 1)
    with (len (text ++ [SP] ++ payload ++ [NL]))
    by (rewrite ?len_app; change (len [SP]) with 1; change (len [NL]) with 1;
        lia).
  rewrite Tx.
  replace ((decimal priority ++ [SP] ++ decimal (len payload)) ++ [SP]
           ++ payload ++ [NL])
    with (decimal priority ++ [SP] ++ decimal (len payload) ++ [SP]
          ++ payload ++ [NL])
    by (rewrite <- !app_assoc; reflexivity).
  set (region := decimal priority ++ [SP] ++ decimal (len payload) ++ [SP]
                 ++ payload ++ [NL]).
  rewrite bind_zoom.
  cbn [chunk shared cin env write_script set_mq_receive_script].
  eexists (pre ++ debug_log (shared s) _), a, back.
  split.
  { assert (A : forall l1 l2, stdout_bytes l1 = [] -> stdout_bytes l2 = [] ->
                              stdout_bytes (l1 ++ l2) = []).
    { clear. induction l1 as [|e l IH]; intros l2 H1 H2; [exact H2|].
      destruct e; cbn [app stdout_bytes] in *; auto;
        apply app_eq_nil in H1 as [-> H1]; cbn [app]; auto. }
    apply A; [exact Hpre|].
    unfold debug_log, guarded.
    destruct (debug (options (shared s)));
      destruct (consumerThreadExists (shared s)); reflexivity. }
  split; [exact La|]. split; [exact Lb|].
  destruct (write_loop region (len region) 0 (write_script (env s)))
    as [[error|] l ws| | |]; cbn [log_then]; cbv beta iota.
  + rewrite bind_Lock_release. unfold cerr.
    rewrite bind_locked_emit, bind_Lock_delete.
    unfold ret. cbn [log_then shared app]. rewrite ?app_nil_r.
    rewrite <- !app_assoc. reflexivity.
  + rewrite bind_Lock_delete. unfold ret. cbn [log_then].
    rewrite ?app_nil_r, <- !app_assoc. reflexivity.
  + rewrite <- !app_assoc. reflexivity.
  + rewrite <- !app_assoc. reflexivity.
  + reflexivity.
Qed.

(** C2: for every priority of the range of [unsigned] and every message
    that fits the queue's message size, dequeued into a buffer that could be
    allocated, the room reserved for the prefix, [numbersMaxSize], is at
    least the width of [<priority> <size> ]; [snprintf] returns the width
    computed beforehand, so that [assert(numbersSize == numbersExpectedSize)]
    holds; and every store falls inside the buffer: [doReceive] ends in no
    failed assertion, and the buffer it leaves, of the size allocated,
    holds the prefix, the payload and the newline one after the other, the
    region that [write] is offered.  The buffer is allocated before the
    dequeue, so a message is only ever received into a buffer that exists;
    what can be allocated is taken to be less than 10^15 bytes, the sizes
    for which [SizeBase10], which the program computes in [double], counts
    the digits as [sizeBase10] does. *)
Theorem doReceive_prefix_in_buffer s payload priority rest :
  mq_receive_script (env s) = Message payload priority :: rest ->
  0 <= priority <= UINT_MAX ->
  len payload <= msgsize (shared s) ->
  numbersMaxSize + msgsize (shared s) + 1 <= memory (env s) ->
  memory (env s) < 10 ^ 15 ->
  let numbersExpectedSize :=
    sizeBase10 priority + 1 + sizeBase10 (len payload) + 1 in
  let numbersSize :=
    len (decimal priority ++ [SP] ++ print_Z (len payload)) + 1 in
  let region :=
    decimal priority ++ [SP] ++ decimal (len payload) ++ [SP]
    ++ payload ++ [NL] in
  let exists_ := consumerThreadExists (shared s) in
  let acquire := if exists_ then [Acquire stdoutMutex] else [] in
  let release := if exists_ then [Release stdoutMutex] else [] in
  numbersExpectedSize <= numbersMaxSize /\
  numbersSize = numbersExpectedSize /\
  (forall l, doReceive s <> Crash l) /\
  exists pre before after,
    stdout_bytes pre = [] /\
    len before = numbersMaxSize - numbersExpectedSize /\
    len region = numbersExpectedSize + len payload + 1 /\
    len (before ++ region ++ after) = numbersMaxSize + msgsize (shared s) + 1 /\
    doReceive s =
    match write_loop region (len region) 0 (write_script (env s)) with
    | Ret w l ws =>
        Ret (match w with Some _ => FAIL_WRITE | None => 0 end)
            (pre ++ acquire ++ l ++ release
             ++ match w with
                | Some error =>
                    guarded exists_ stderrMutex
                      [Cerr (line [bytes "Failed to return message: ";
                                   strerror error])]
                | None => []
                end)
            (mkSt (shared s) (before ++ region ++ after) (cin s)
                  (set_write_script ws
                     (set_mq_receive_script rest (env s))))
    | Blocked l => Blocked (pre ++ acquire ++ l)
    | Crash l => Crash (pre ++ acquire ++ l)
    | OutOfFuel => OutOfFuel
    end.
Proof.
  intros Hs Hprio Hm Hmem Hbound. cbv zeta.
  pose proof numbersMaxSize_eq as N.
  pose proof (len_nonneg payload) as Hp.
  assert (B15 : 10 ^ 15 < 10 ^ 18) by reflexivity.
  assert (B18 : 10 ^ 18 < 2 ^ 63 - 1) by reflexivity.
  assert (B64 : 2 ^ 63 - 1 < 2 ^ 64) by reflexivity.
  destruct (prefix_fits priority (len payload)) as (Size & Fit).
  { exact Hprio. }
  { unfold SSIZE_MAX, ssize_t_digits. lia. }
  { left. lia. }
  cbv zeta in Size, Fit.
  split; [lia|]. split; [exact Size|].
  split.
  { apply (doReceive_in_bounds s payload priority rest Hs Hprio); [lia|].
    exact Hmem. }
  destruct (doReceive_message_in_buffer s payload priority rest Hs)
    as (pre & before & after & Hpre & Lb & La & D);
    [lia | lia | exact Hmem | lia |].
  exists pre, before, after.
  assert (Lr : len (decimal priority ++ [SP] ++ decimal (len payload) ++ [SP]
                    ++ payload ++ [NL])
               = sizeBase10 priority + 1 + sizeBase10 (len payload) + 1
                 + len payload + 1).
  { rewrite !len_app. rewrite <- !sizeBase10_decimal by lia.
    change (len [SP]) with 1. change (len [NL]) with 1. lia. }
  split; [exact Hpre|]. split; [exact Lb|]. split; [exact Lr|].
  split; [|exact D].
  rewrite len_app, len_app, Lr, Lb, La. lia.
Qed.

Lemma doReceive_prefix_in_buffer_witness :
  let s := sample_state no_input calm in
  let region := bytes "2 5 hello" ++ [NL] in
  sizeBase10 2 + 1 + sizeBase10 5 + 1 <= numbersMaxSize /\
  len (decimal 2 ++ [SP] ++ print_Z 5) + 1
  = sizeBase10 2 + 1 + sizeBase10 5 + 1 /\
  (forall l, doReceive s <> Crash l) /\
  exists pre before after,
    stdout_bytes pre = [] /\
    len before = numbersMaxSize - (sizeBase10 2 + 1 + sizeBase10 5 + 1) /\
    len region = sizeBase10 2 + 1 + sizeBase10 5 + 1 + 5 + 1 /\
    len (before ++ region ++ after) = numbersMaxSize + 8 + 1 /\
    doReceive s
    = Ret 0 (pre ++ [] ++ [SysWrite region 10] ++ [] ++ [])
        (mkSt (shared s) (before ++ region ++ after) (cin s)
              (set_write_script [] (set_mq_receive_script [] (env s)))).
Proof.
  cbv zeta.
  exact (doReceive_prefix_in_buffer (sample_state no_input calm)
           (bytes "hello") 2 [] eq_refl
           ltac:(split; discriminate) ltac:(discriminate)
           ltac:(vm_compute; discriminate) ltac:(reflexivity)).
Defined.

(** C3, at the failing input: a message "hello" of priority 2 whose first
    [write] accepts 4 of the 10 bytes.  The second call offers the whole
    region again; it accepts 6 bytes, the count reaches 10 and [doReceive]
    returns 0.  Standard output holds "2 5 2 5 he" and not the region. *)
Theorem doReceive_partial_write_repeats_region :
  let region := bytes "2 5 hello" ++ [NL] in
  exists s',
    doReceive (sample_state no_input partial_write)
    = Ret 0 [MqReceive 8 5; SysWrite region 4; SysWrite region 6] s' /\
    stdout_bytes [MqReceive 8 5; SysWrite region 4; SysWrite region 6]
    = bytes "2 5 2 5 he" /\
    bytes "2 5 2 5 he" <> region.
Proof.
  cbv zeta. eexists. split; [vm_compute; reflexivity|].
  split; [vm_compute; reflexivity|]. vm_compute. discriminate.
Qed.

(* ------------------------------------------------------------------ *)
(** * The close handler *)
(* ------------------------------------------------------------------ *)

Lemma under_lock_guarded m p e :
  p (Acquire m) = false -> p (Release m) = false -> p e = true ->
  (forall m', e <> Acquire m' /\ e <> Release m') ->
  forall b, under_lock m p false (guarded b m [e]) = b.
Proof.
  intros Ha Hr He Hne b. unfold guarded.
  destruct b; cbn [app under_lock held]; rewrite ?Ha, ?Hr, ?He.
  - destruct m; destruct e; try reflexivity;
      exfalso; match goal with
      | |- _ => apply (proj1 (Hne _)); reflexivity
      | |- _ => apply (proj2 (Hne _)); reflexivity
      end.
  - reflexivity.
Qed.

Lemma closeHandler_log s cl l s' :
  closeHandler s = Ret cl l s' ->
  Forall (fun e => loop_event e = false /\ is_Sigaction e = false /\
                   is_PthreadCreate e = false) l /\
  close_results l = [cl] /\ count is_SetStopped l = 1%nat.
Proof.
  rewrite closeHandler_eq. cbv zeta.
  destruct (mq_close_script (env s)) as [|[rc error] rest].
  { destruct (consumerThreadExists (shared s)); intros X; discriminate X. }
  unfold guarded, count.
  destruct (consumerThreadExists (shared s)); cbn [log_then]; intros H;
    apply Ret_inj in H as (<- & <- & _); destruct (rc =? 0);
    cbn [app close_results filter is_SetStopped length];
    (split; [repeat constructor | split; reflexivity]).
Qed.

(** The close handler goes by [consumerThreadExists].  It sets the
    shutdown flag and then closes the queue, holding [stoppedMutex]
    exactly when [consumerThreadExists] is set; a failure of the close is
    reported to diagnostics, and the signal still goes to the thread that
    [shared] records when [consumerThreadExists] is set.  The handler
    returns what the close returned. *)
Lemma closeHandler_shutdown s rc error rest :
  mq_close_script (env s) = (rc, error) :: rest ->
  let exists_ := consumerThreadExists (shared s) in
  exists log s',
    closeHandler s = Ret rc log s' /\
    stopped (shared s') = true /\
    (exists post,
       log = (if exists_ then [Acquire stoppedMutex] else [])
             ++ SetStopped :: MqClose rc :: post) /\
    under_lock stoppedMutex is_SetStopped false log = exists_ /\
    count is_Cerr log = (if (rc =? 0)%Z then 0 else 1)%nat /\
    count (fun e => match e with PthreadKill _ => true | _ => false end) log
    = (if exists_ then 1 else 0)%nat /\
    (exists_ = true -> In (PthreadKill (consumerThread (shared s))) log).
Proof.
  intros Hs. cbv zeta. rewrite closeHandler_eq, Hs. cbv zeta.
  unfold guarded, count.
  destruct (consumerThreadExists (shared s)); cbn [log_then];
    eexists; eexists; (split; [reflexivity|]);
    (split; [reflexivity|]);
    (split; [eexists; cbn [app]; reflexivity|]);
    destruct (rc =? 0); cbn [app under_lock held is_SetStopped andb filter
                              is_Cerr length In];
    repeat split; auto; try discriminate; intros _; tauto.
Qed.

(** C6: the defect.  After a first [consume] that created thread 7 and a
    second whose [pthread_create] failed, [consumerThreadExists] is false
    though thread 7 runs.  The close handler, which goes by that flag, then
    sets the shutdown flag without taking [stoppedMutex] and sends no
    signal, and [serve] joins no thread: the background task is left to
    run. *)
Theorem close_after_failed_second_consume :
  let log := [MqGetattr 0;
              Sigaction; PthreadCreate 0 7; HandlerResult (bytes "consume") 0;
              Sigaction; PthreadCreate EAGAIN 0;
              Cerr (line [bytes "Unable to create consumer thread: ";
                          strerror EAGAIN]);
              HandlerResult (bytes "consume") EAGAIN;
              SetStopped; MqClose 0] in
  (exists w',
     serve 3 sample_options
           (sample_world "consume consume" second_creation_fails)
     = Ret EAGAIN log w') /\
  filter is_task_created log = [PthreadCreate 0 7] /\
  count is_SetStopped log = 1%nat /\
  under_lock stoppedMutex is_SetStopped false log = false /\
  filter is_thread_end log = [].
Proof.
  cbv zeta. split; [eexists; vm_compute; reflexivity|].
  repeat split.
Qed.

(* ------------------------------------------------------------------ *)
(** * The session: exit code and background tasks *)
(* ------------------------------------------------------------------ *)

(** A session that meets an unknown command. *)
Example unknown_command_session :
  exists w',
    serve 3 sample_options (sample_world "bogus" calm)
    = Ret 1 [MqGetattr 0; UnknownCommand (bytes "bogus");
             Cerr (bytes "Unknown command " ++ [DQ] ++ bytes "bogus"
                   ++ [DQ; NL]);
             SetStopped; MqClose 0] w'.
Proof. eexists. vm_compute. reflexivity. Qed.

(** C4, as the specification states it, fails: on an unknown command no
    handler returns anything, the close handler returns 0, and yet the exit
    code is 1. *)
Lemma unknown_command_exit_code : ~ exit_code_first_failure_else_close.
Proof.
  intros H. destruct unknown_command_session as [w' E].
  specialize (H _ _ _ _ _ _ E).
  destruct H as (cl & Hc & Hcode).
  { exists 0, sample_attr, [(0, 0, sample_attr)]. reflexivity. }
  vm_compute in Hc. injection Hc as <-.
  vm_compute in Hcode. discriminate Hcode.
Qed.

(** C4, amended: when the dispatch loop has ended, however it ended, the
    close handler runs exactly once, after it; the exit code is the command
    result if that is not zero and the result of the close handler
    otherwise, where the command result is the first handler result other
    than zero, or 1 when the loop ended on an unknown command. *)
Theorem serve_exit_code mq o w code log w' :
  serve mq o w = Ret code log w' ->
  (exists error a rest, mq_getattr_script (w_env w) = (0, error, a) :: rest) ->
  exists before after cl,
    log = before ++ after /\
    Forall (fun e => shutdown_event e = false) before /\
    Forall (fun e => loop_event e = false) after /\
    close_results log = [cl] /\
    count is_SetStopped after = 1%nat /\
    code = (if primary before =? 0 then cl else primary before).
Proof.
  intros H (error0 & a0 & rest0 & Hq).
  apply serve_inv in H
    as (rc & error & attributes & rest & Hq' &
        [(Hrc & _) | (-> & dbg & s0 & lloop & cr & s1 & lclose & cl & s2 &
                      Fd & Hloop & Hclose & -> & ->)]).
  { rewrite Hq in Hq'. injection Hq' as <- _ _ _. contradiction Hrc. reflexivity. }
  apply dispatch_log in Hloop as (P & FS & _).
  apply closeHandler_log in Hclose as (FC & CR & CS).
  set (join := if consumerThreadExists (shared s2)
               then [PthreadJoin (consumerThread (shared s2))] else []).
  assert (Fj : Forall (fun e => loop_event e = false /\ is_SetStopped e = false) join).
  { subst join. destruct (consumerThreadExists (shared s2)); repeat constructor. }
  assert (Fdl : Forall (fun e => loop_event e = false) (MqGetattr 0 :: dbg)).
  { constructor; [reflexivity|]. eapply Forall_impl; [|exact Fd].
    intros e He. destruct e; simpl in He; try discriminate He; reflexivity. }
  assert (Fds : Forall (fun e => shutdown_event e = false) (MqGetattr 0 :: dbg)).
  { constructor; [reflexivity|]. eapply Forall_impl; [|exact Fd].
    intros e He. destruct e; simpl in He; try discriminate He; reflexivity. }
  exists (MqGetattr 0 :: dbg ++ lloop), (lclose ++ join), cl.
  split; [cbn [app]; rewrite <- app_assoc; reflexivity|].
  split; [change (MqGetattr 0 :: dbg ++ lloop)
            with ((MqGetattr 0 :: dbg) ++ lloop);
          apply Forall_app; split; assumption|].
  split.
  { apply Forall_app; split.
    - eapply Forall_impl; [|exact FC]. intros e (? & _); assumption.
    - eapply Forall_impl; [|exact Fj]. intros e (? & _); assumption. }
  split.
  { change (MqGetattr 0 :: dbg ++ lloop ++ lclose ++ join)
      with ((MqGetattr 0 :: dbg) ++ lloop ++ lclose ++ join).
    rewrite !close_results_app, CR.
    rewrite (close_results_none (MqGetattr 0 :: dbg)) by exact Fds.
    rewrite (close_results_none lloop) by exact FS.
    subst join. destruct (consumerThreadExists (shared s2)); reflexivity. }
  split.
  { rewrite count_app, CS.
    rewrite (count_none is_SetStopped join); [reflexivity|].
    eapply Forall_impl; [|exact Fj]. intros e (_ & ?); assumption. }
  change (MqGetattr 0 :: dbg ++ lloop) with ((MqGetattr 0 :: dbg) ++ lloop).
  rewrite primary_app by exact Fdl. rewrite P. reflexivity.
Qed.

Lemma serve_exit_code_witness :
  exists code log w' before after cl,
    serve 3 sample_options (sample_world "bogus" calm) = Ret code log w' /\
    log = before ++ after /\
    Forall (fun e => shutdown_event e = false) before /\
    Forall (fun e => loop_event e = false) after /\
    close_results log = [cl] /\
    count is_SetStopped after = 1%nat /\
    code = (if primary before =? 0 then cl else primary before).
Proof.
  destruct unknown_command_session as [w' E].
  destruct (serve_exit_code _ _ _ _ _ _ E) as (before & after & cl & H).
  { exists 0, sample_attr, [(0, 0, sample_attr)]. reflexivity. }
  eexists _, _, w', before, after, cl. split; [exact E | exact H].
Defined.

Lemma consume_ok_le l :
  (count is_consume_ok l <= count is_consume_result l)%nat.
Proof.
  induction l as [|e l IH]; [unfold count; simpl; lia|].
  rewrite !count_cons.
  destruct e; cbn [is_consume_ok is_consume_result]; try lia.
  destruct (bytes_eqb verb (bytes "consume")); cbn [andb]; [|lia].
  destruct (rc =? 0); lia.
Qed.

(** A session with two [consume] commands. *)
Example two_consume_session :
  exists w',
    serve 3 sample_options (sample_world "consume consume" calm)
    = Ret 0 [MqGetattr 0;
             Sigaction; PthreadCreate 0 7; HandlerResult (bytes "consume") 0;
             Sigaction; PthreadCreate 0 8; HandlerResult (bytes "consume") 0;
             Acquire stoppedMutex; SetStopped; MqClose 0; PthreadKill 8;
             Release stoppedMutex; PthreadJoin 8] w'.
Proof. eexists. vm_compute. reflexivity. Qed.

(** The invariant of the specification fails: two [consume] commands
    create two background tasks and install the signal handler twice. *)
Lemma second_consume_second_task : ~ at_most_one_background_task.
Proof.
  intros H. destruct two_consume_session as [w' E].
  specialize (H _ _ _ _ _ _ E). destruct H as [H _].
  vm_compute in H. lia.
Qed.

(** In a session the signal handler is installed, and the creation of a
    thread attempted, once for every [consume] command the loop dispatched,
    and a background task is created for every such command that returned
    zero. *)
Lemma serve_one_task_per_consume mq o w code log w' :
  serve mq o w = Ret code log w' ->
  count is_Sigaction log = count is_consume_result log /\
  count is_PthreadCreate log = count is_consume_result log /\
  count is_task_created log = count is_consume_ok log /\
  ((count is_consume_result log <= 1)%nat ->
   (count is_task_created log <= 1)%nat /\ (count is_Sigaction log <= 1)%nat).
Proof.
  intros H.
  assert (K : count is_Sigaction log = count is_consume_result log /\
              count is_PthreadCreate log = count is_consume_result log /\
              count is_task_created log = count is_consume_ok log /\
              (count is_consume_ok log <= count is_consume_result log)%nat).
  { apply serve_inv in H
      as (rc & error & attributes & rest & Hq &
          [(Hrc & _ & ->) | (-> & dbg & s0 & lloop & cr & s1 & lclose & cl & s2 &
                             Fd & Hloop & Hclose & -> & _)]).
    { unfold count. cbn. repeat split; lia. }
    apply dispatch_log in Hloop as (_ & _ & C1 & C2 & C3).
    apply closeHandler_log in Hclose as (FC & _ & _).
    set (join := if consumerThreadExists (shared s2)
                 then [PthreadJoin (consumerThread (shared s2))] else []).
    assert (Fj : Forall (fun e => loop_event e = false /\ is_Sigaction e = false
                                  /\ is_PthreadCreate e = false) join).
    { subst join. destruct (consumerThreadExists (shared s2)); repeat constructor. }
    assert (Fd' : Forall (fun e => loop_event e = false /\ is_Sigaction e = false
                                   /\ is_PthreadCreate e = false)
                         (MqGetattr 0 :: dbg)).
    { constructor; [repeat split|]. eapply Forall_impl; [|exact Fd].
      intros e He. destruct e; simpl in He; try discriminate He; repeat split. }
    assert (Z0 : forall p l,
      (forall e, loop_event e = false /\ is_Sigaction e = false /\
                 is_PthreadCreate e = false -> p e = false) ->
      Forall (fun e => loop_event e = false /\ is_Sigaction e = false
                       /\ is_PthreadCreate e = false) l ->
      count p l = 0%nat).
    { intros p l Hp F. apply count_none. eapply Forall_impl; [|exact F].
      exact Hp. }
    assert (P1 : forall e, loop_event e = false /\ is_Sigaction e = false /\
                 is_PthreadCreate e = false -> is_Sigaction e = false)
      by (intros e (_ & ? & _); assumption).
    assert (P2 : forall e, loop_event e = false /\ is_Sigaction e = false /\
                 is_PthreadCreate e = false -> is_PthreadCreate e = false)
      by (intros e (_ & _ & ?); assumption).
    assert (P3 : forall e, loop_event e = false /\ is_Sigaction e = false /\
                 is_PthreadCreate e = false -> is_task_created e = false)
      by (intros e (_ & _ & ?); destruct e; simpl in *; try reflexivity;
          discriminate).
    assert (P4 : forall e, loop_event e = false /\ is_Sigaction e = false /\
                 is_PthreadCreate e = false -> is_consume_result e = false)
      by (intros e (? & _ & _); destruct e; simpl in *; try reflexivity;
          discriminate).
    assert (P5 : forall e, loop_event e = false /\ is_Sigaction e = false /\
                 is_PthreadCreate e = false -> is_consume_ok e = false)
      by (intros e (? & _ & _); destruct e; simpl in *; try reflexivity;
          discriminate).
    change (MqGetattr 0 :: dbg ++ lloop ++ lclose ++ join)
      with ((MqGetattr 0 :: dbg) ++ lloop ++ lclose ++ join).
    rewrite !count_app.
    rewrite !(Z0 _ (MqGetattr 0 :: dbg)), !(Z0 _ lclose), !(Z0 _ join);
      try assumption.
    rewrite C1, C2, C3.
    pose proof (consume_ok_le lloop).
    repeat split; lia. }
  destruct K as (K1 & K2 & K3 & K4).
  repeat split; try assumption; lia.
Qed.

(** C5: the defect.  [consumeHandler] does not look whether a consumer
    thread exists already: on the input [consume consume] it installs the
    signal handler twice and creates two threads, 7 and 8.  [Shared]
    remembers one thread, the last: at the end of the session thread 8 is
    signalled and joined, and thread 7 is neither. *)
Theorem second_consume_abandons_first_task :
  let log := [MqGetattr 0;
              Sigaction; PthreadCreate 0 7; HandlerResult (bytes "consume") 0;
              Sigaction; PthreadCreate 0 8; HandlerResult (bytes "consume") 0;
              Acquire stoppedMutex; SetStopped; MqClose 0; PthreadKill 8;
              Release stoppedMutex; PthreadJoin 8] in
  (exists w',
     serve 3 sample_options (sample_world "consume consume" calm)
     = Ret 0 log w') /\
  count is_Sigaction log = 2%nat /\
  filter is_task_created log = [PthreadCreate 0 7; PthreadCreate 0 8] /\
  filter is_thread_end log = [PthreadKill 8; PthreadJoin 8].
Proof.
  cbv zeta. split; [eexists; vm_compute; reflexivity|].
  repeat split.
Qed.

(* ------------------------------------------------------------------ *)
(** * The send handler *)
(* ------------------------------------------------------------------ *)

Lemma mq_send_retry_eq payload priority script :
  mq_send_retry payload priority script =
  let tries :=
    repeat (MqSend payload priority (-1)) (interruptions script) in
  match skipn (interruptions script) script with
  | [] => Blocked tries
  | (rc, error) :: rest =>
      Ret (if rc =? -1 then Some error else None)
          (tries ++ [MqSend payload priority rc]) rest
  end.
Proof.
  cbv zeta.
  induction script as [|[rc e] l IH]; cbn [mq_send_retry interruptions];
    [reflexivity|].
  unfold interrupted. cbn [fst snd].
  destruct (rc =? -1) eqn:E1; cbn [andb].
  - destruct (e =? EINTR) eqn:E2; cbn [negb skipn repeat app].
    + rewrite IH. apply Z.eqb_eq in E1. subst rc.
      destruct (skipn (interruptions l) l) as [|[rc' e'] rest];
        reflexivity.
    + rewrite E1. reflexivity.
  - cbn [skipn repeat app]. rewrite E1. reflexivity.
Qed.

Lemma interruptions_stop script rc error rest :
  skipn (interruptions script) script = (rc, error) :: rest ->
  interrupted (rc, error) = false.
Proof.
  induction script as [|o l IH]; cbn [interruptions skipn]; [discriminate|].
  destruct (interrupted o) eqn:E; cbn [skipn]; [exact IH|].
  intros H. injection H as ->. exact E.
Qed.


(** A malformed [send abc 5 hello]. *)
Example send_abc_session :
  exists w',
    serve 3 sample_options (sample_world "send abc 5 hello" calm)
    = Ret 1 [MqGetattr 0;
             Cerr (bytes "Unable to read message priority from "
                   ++ [DQ] ++ bytes "send" ++ [DQ] ++ bytes " command."
                   ++ [NL]);
             HandlerResult (bytes "send") 1;
             SetStopped; MqClose 0] w'.
Proof. eexists. vm_compute. reflexivity. Qed.

(** A declared size for which there is no memory: [chunk.resize] throws
    and nothing catches it. *)
Lemma sendHandler_too_large s :
  send_request (memory (env s)) (cin s) = TooLarge -> sendHandler s = Crash [].
Proof.
  intros H. rewrite sendHandler_eq. cbv zeta. unfold send_request in H.
  destruct (IStream.read_unsigned (cin s)) as [[priority|] c1];
    [|discriminate H].
  destruct (IStream.read_ssize_t c1) as [[size|] c2]; [|discriminate H].
  destruct (size <? 0); [discriminate H|].
  destruct (size =? 0); [discriminate H|].
  rewrite Z.leb_antisym.
  destruct (memory (env s) <? size); [reflexivity|].
  destruct (IStream.read size (IStream.ignore c2)) as [got c4].
  destruct (IStream.fail c4 || negb (len got =? size)); discriminate H.
Qed.



Lemma firstn_len_app (got rest : list ascii) size :
  len got = size -> firstn (Z.to_nat size) (got ++ rest) = got.
Proof.
  unfold len. intros <-. rewrite Nat2Z.id.
  rewrite firstn_app, Nat.sub_diag, firstn_all. cbn [firstn].
  apply app_nil_r.
Qed.

Lemma under_lock_app m p l1 l2 :
  Forall (fun e => p e = false /\ forall m', e <> Acquire m' /\ e <> Release m') l1 ->
  forall b, under_lock m p b (l1 ++ l2) = under_lock m p b l2.
Proof.
  induction 1 as [|e l (He & Hne) _ IH]; intros b; [reflexivity|].
  cbn [app under_lock held]. rewrite He. cbn [andb].
  destruct e; try apply IH.
  - exfalso. apply (proj1 (Hne m0)). reflexivity.
  - exfalso. apply (proj2 (Hne m0)). reflexivity.
Qed.

(** What [sendHandler] does with a well-formed command. *)
Lemma sendHandler_request s priority size payload c' :
  send_request (memory (env s)) (cin s) = WellFormed priority size payload c' ->
  exists chunk',
    firstn (Z.to_nat size) chunk' = payload /\
    sendHandler s =
    match mq_send_retry payload priority (mq_send_script (env s)) with
    | Ret sent l rest =>
        let s2 := mkSt (shared s) chunk' c' (set_mq_send_script rest (env s)) in
        match sent with
        | Some error =>
            Ret 3 (l ++ guarded (consumerThreadExists (shared s)) stderrMutex
                     [Cerr (line [bytes "Unable to send message for "; [DQ];
                                  bytes "send"; [DQ]; bytes " command: ";
                                  strerror error])]) s2
        | None =>
            Ret 0 (l ++ guarded (consumerThreadExists (shared s)) stdoutMutex
                     [Cout (line [bytes "ack "; print_Z size])]) s2
        end
    | Blocked l => Blocked l
    | Crash l => Crash l
    | OutOfFuel => OutOfFuel
    end.
Proof.
  intros H. rewrite sendHandler_eq. cbv zeta. unfold send_request in H.
  destruct (IStream.read_unsigned (cin s)) as [[priority0|] c1];
    [|discriminate H].
  destruct (IStream.read_ssize_t c1) as [[size0|] c2]; [|discriminate H].
  destruct (size0 <? 0); [discriminate H|].
  destruct (size0 =? 0) eqn:E0.
  - injection H as <- <- <- <-. apply Z.eqb_eq in E0. subst size0.
    exists (chunk s). split; [reflexivity|]. cbn [chunk env shared cin].
    reflexivity.
  - rewrite Z.leb_antisym.
    destruct (memory (env s) <? size0); [discriminate H|]. cbn [negb].
    destruct (IStream.read size0 (IStream.ignore c2)) as [got c4] eqn:R.
    cbn [fst snd].
    destruct (IStream.fail c4 || negb (len got =? size0)) eqn:F;
      [discriminate H|].
    injection H as <- <- <- <-.
    apply orb_false_iff in F as [_ F]. apply negb_false_iff, Z.eqb_eq in F.
    exists (got ++ skipn (length got) (resize (chunk s) size0)).
    split; [apply firstn_len_app; exact F|].
    cbn [chunk env shared cin]. rewrite firstn_len_app by exact F.
    reflexivity.
Qed.

(** C8: on a well-formed command the handler calls [mq_send] again after
    every transient interruption, with the same message, and writes nothing
    about the interruptions.  While only interruptions come it has not
    returned.  It returns its enqueue-failure code for a failure that is no
    interruption, after one diagnostic; on success it writes exactly
    [ack <size>] under the output lock and returns 0.  The lock is taken
    when [consumerThreadExists] is set; the specification lets a handler
    skip it when no background task exists. *)
Theorem sendHandler_enqueue s priority size payload c' :
  send_request (memory (env s)) (cin s) = WellFormed priority size payload c' ->
  let n := interruptions (mq_send_script (env s)) in
  let tries := repeat (MqSend payload priority (-1)) n in
  let exists_ := consumerThreadExists (shared s) in
  match skipn n (mq_send_script (env s)) with
  | [] => sendHandler s = Blocked tries
  | (rc, error) :: rest =>
      exists log s',
        sendHandler s = Ret (if rc =? -1 then ENQUEUE_FAILED else 0) log s' /\
        cin s' = c' /\ mq_send_script (env s') = rest /\
        (rc = -1 -> error <> EINTR) /\
        if rc =? -1 then
          log = tries ++ [MqSend payload priority rc]
                ++ guarded exists_ stderrMutex
                     [Cerr (line [bytes "Unable to send message for "; [DQ];
                                  bytes "send"; [DQ]; bytes " command: ";
                                  strerror error])]
        else
          log = tries ++ [MqSend payload priority rc]
                ++ guarded exists_ stdoutMutex
                     [Cout (bytes "ack " ++ print_Z size ++ [NL])] /\
          under_lock stdoutMutex is_Cout false log = exists_ /\
          count is_Cerr log = 0%nat
  end.
Proof.
  intros H. cbv zeta.
  destruct (sendHandler_request _ _ _ _ _ H) as (chunk' & _ & ->).
  rewrite mq_send_retry_eq. cbv zeta.
  destruct (skipn _ _) as [|[rc error] rest] eqn:K; [reflexivity|].
  apply interruptions_stop in K. unfold interrupted in K. cbn [fst snd] in K.
  set (tries := repeat (MqSend payload priority (-1))
                       (interruptions (mq_send_script (env s)))).
  assert (Fs : Forall (fun e => exists rc', e = MqSend payload priority rc')
                      (tries ++ [MqSend payload priority rc])).
  { apply Forall_app. split.
    - subst tries. induction (interruptions _); cbn [repeat]; constructor;
        [eexists; reflexivity | assumption].
    - repeat constructor. eexists; reflexivity. }
  assert (Ft : Forall (fun e => is_Cout e = false /\
                         forall m', e <> Acquire m' /\ e <> Release m')
                      (tries ++ [MqSend payload priority rc])).
  { eapply Forall_impl; [|exact Fs]. intros e [rc' ->].
    split; [reflexivity|]. intros m'. split; discriminate. }
  assert (Ct : count is_Cerr (tries ++ [MqSend payload priority rc]) = 0%nat).
  { apply count_none. eapply Forall_impl; [|exact Fs]. intros e [rc' ->].
    reflexivity. }
  destruct (rc =? -1) eqn:E.
  - eexists; eexists. split; [reflexivity|].
    cbn [cin env set_mq_send_script mq_send_script].
    repeat split.
    + intros _ ->. cbn [andb] in K. discriminate K.
    + rewrite <- app_assoc. reflexivity.
  - eexists; eexists. split; [reflexivity|].
    cbn [cin env set_mq_send_script mq_send_script].
    split; [reflexivity|]. split; [reflexivity|].
    split; [intros ->; discriminate E|].
    split; [rewrite <- app_assoc; unfold line; cbn [concat];
            rewrite app_nil_r, <- app_assoc; reflexivity|].
    split.
    + rewrite under_lock_app by exact Ft.
      apply under_lock_guarded; try reflexivity. intros m'; split; discriminate.
    + rewrite count_app, Ct.
      destruct (consumerThreadExists (shared s)); reflexivity.
Qed.

Lemma sendHandler_enqueue_witness :
  send_request (memory (env (sending_state " 3 5 hello" interrupted_twice)))
               (cin (sending_state " 3 5 hello" interrupted_twice))
  = WellFormed 3 5 (bytes "hello") (IStream.mk [] false false) /\
  exists log s',
    sendHandler (sending_state " 3 5 hello" interrupted_twice)
    = Ret 0 log s' /\
    cin s' = IStream.mk [] false false /\ mq_send_script (env s') = [] /\
    (0 = -1 -> 0 <> EINTR) /\
    log = [MqSend (bytes "hello") 3 (-1); MqSend (bytes "hello") 3 (-1)]
          ++ [MqSend (bytes "hello") 3 0]
          ++ guarded true stdoutMutex [Cout (bytes "ack " ++ print_Z 5 ++ [NL])] /\
    under_lock stdoutMutex is_Cout false log = true /\
    count is_Cerr log = 0%nat.
Proof.
  split; [reflexivity|].
  exact (sendHandler_enqueue (sending_state " 3 5 hello" interrupted_twice)
           3 5 (bytes "hello") (IStream.mk [] false false) eq_refl).
Defined.

(** C10: a [send] whose size is 0 takes one separator from the input at
    most and no payload, never returns the code of the short payload, and
    once [mq_send] succeeds has sent the empty message at the priority
    given and written [ack 0]. *)
Theorem sendHandler_size_zero s priority c1 c2 :
  IStream.read_unsigned (cin s) = (Some priority, c1) ->
  IStream.read_ssize_t c1 = (Some 0, c2) ->
  let n := interruptions (mq_send_script (env s)) in
  let exists_ := consumerThreadExists (shared s) in
  (forall log s', sendHandler s <> Ret (failure_code ShortPayload) log s') /\
  (forall rc log s', sendHandler s = Ret rc log s' ->
     cin s' = IStream.ignore c2 /\ chunk s' = chunk s) /\
  (exists sep, IStream.data c2 = sep ++ IStream.data (IStream.ignore c2)
               /\ (length sep <= 1)%nat) /\
  match skipn n (mq_send_script (env s)) with
  | (rc, error) :: rest =>
      rc <> -1 ->
      exists s',
        sendHandler s
        = Ret 0 (repeat (MqSend [] priority (-1)) n
                 ++ [MqSend [] priority rc]
                 ++ guarded exists_ stdoutMutex [Cout (bytes "ack 0" ++ [NL])])
              s'
  | [] => True
  end.
Proof.
  intros Hp Hs. cbv zeta.
  assert (Ec : sendHandler s =
    match mq_send_retry [] priority (mq_send_script (env s)) with
    | Ret sent l rest =>
        let s2 := mkSt (shared s) (chunk s) (IStream.ignore c2)
                       (set_mq_send_script rest (env s)) in
        match sent with
        | Some error =>
            Ret 3 (l ++ guarded (consumerThreadExists (shared s)) stderrMutex
                     [Cerr (line [bytes "Unable to send message for "; [DQ];
                                  bytes "send"; [DQ]; bytes " command: ";
                                  strerror error])]) s2
        | None =>
            Ret 0 (l ++ guarded (consumerThreadExists (shared s)) stdoutMutex
                     [Cout (line [bytes "ack "; print_Z 0])]) s2
        end
    | Blocked l => Blocked l
    | Crash l => Crash l
    | OutOfFuel => OutOfFuel
    end).
  { rewrite sendHandler_eq. cbv zeta. rewrite Hp, Hs. reflexivity. }
  rewrite Ec. rewrite mq_send_retry_eq. cbv zeta.
  split; [|split; [|split]].
  - intros log s'.
    destruct (skipn _ _) as [|[rc error] rest]; [intros X; discriminate X|].
    destruct (rc =? -1); intros X; apply Ret_inj in X as (X & _);
      discriminate X.
  - intros rc0 log s'.
    destruct (skipn _ _) as [|[rc error] rest]; [intros X; discriminate X|].
    destruct (rc =? -1); intros X; apply Ret_inj in X as (_ & _ & <-);
      split; reflexivity.
  - unfold IStream.ignore, IStream.sentry.
    destruct (IStream.good c2).
    + destruct (IStream.data c2) as [|x rest] eqn:D.
      * exists []. unfold IStream.set_eof. cbn [IStream.data]. rewrite D.
        split; [reflexivity | cbn; lia].
      * exists [x]. cbn [IStream.data]. split; [reflexivity | cbn; lia].
    + exists []. split; [reflexivity | cbn; lia].
  - destruct (skipn _ _) as [|[rc error] rest]; [exact I|].
    intros Hrc. apply Z.eqb_neq in Hrc. rewrite Hrc.
    eexists. cbv zeta. rewrite <- app_assoc. reflexivity.
Qed.

Lemma sendHandler_size_zero_witness :
  exists s',
    sendHandler (sample_state " 7 0 close" calm)
    = Ret 0 ([] ++ [MqSend [] 7 0]
             ++ guarded false stdoutMutex [Cout (bytes "ack 0" ++ [NL])]) s'
    /\ IStream.data (cin s') = bytes "close".
Proof.
  pose proof (sendHandler_size_zero (sample_state " 7 0 close" calm) 7
                (IStream.mk (bytes " 0 close") false false)
                (IStream.mk (bytes " close") false false)
                eq_refl eq_refl) as (_ & Hcin & _ & H).
  specialize (H ltac:(discriminate)). destruct H as [s' H].
  exists s'. split; [exact H|].
  destruct (Hcin _ _ _ H) as [-> _]. reflexivity.
Defined.

(* ------------------------------------------------------------------ *)
(** * The attribute handlers *)
(* ------------------------------------------------------------------ *)

(** C9, as the specification states it, fails: [mq_getattr] fails with the
    error code [EBADF], and each of the three handlers returns what
    [mq_getattr] returned, -1, and not that code. *)
Lemma attribute_failure_returns_minus_one :
  ~ returns_error_code_of_query countHandler /\
  ~ returns_error_code_of_query msgsizeHandler /\
  ~ returns_error_code_of_query maxmsgHandler.
Proof.
  repeat split; intros H;
    specialize (H (sample_state no_input no_attributes) (-1) EBADF sample_attr
                  [] eq_refl ltac:(discriminate));
    destruct H as (log & s' & H); vm_compute in H; discriminate H.
Qed.

(** C9, amended: when the query of the attributes fails, each of the three
    handlers writes one diagnostic, nothing to standard output, and returns
    what the query returned, which is not the error code; when it succeeds
    the handler writes the one line [count <N>], [msgsize <N>] or
    [maxmsg <N>] for the number of messages pending, the largest message
    size or the largest number of messages, under the output lock, and
    returns 0.  The lock is taken when [consumerThreadExists] is set; the
    specification lets a handler skip it when no background task exists. *)
Theorem attribute_handlers s rc error attributes rest :
  mq_getattr_script (env s) = (rc, error, attributes) :: rest ->
  let exists_ := consumerThreadExists (shared s) in
  let report verb n :=
    MqGetattr 0
    :: guarded exists_ stdoutMutex [Cout (bytes verb ++ print_Z n ++ [NL])] in
  forall h verb n,
    (h, verb, n) = (countHandler, "count "%string, mq_curmsgs attributes) \/
    (h, verb, n) = (msgsizeHandler, "msgsize "%string, mq_msgsize attributes) \/
    (h, verb, n) = (maxmsgHandler, "maxmsg "%string, mq_maxmsg attributes) ->
    exists log s',
      h s = Ret rc log s' /\
      if rc =? 0 then
        log = report verb n /\
        stdout_bytes log = bytes verb ++ print_Z n ++ [NL] /\
        under_lock stdoutMutex is_Cout false log = exists_ /\
        count is_Cerr log = 0%nat
      else
        count is_Cerr log = 1%nat /\ stdout_bytes log = [].
Proof.
  intros Hs. cbv zeta. intros h verb n Hh.
  assert (L : forall v k,
    line [bytes v; print_Z k] = bytes v ++ print_Z k ++ [NL]).
  { intros v k. unfold line. cbn [concat]. rewrite app_nil_r, <- app_assoc.
    reflexivity. }
  assert (Ok : forall text,
    stdout_bytes (MqGetattr 0 :: guarded (consumerThreadExists (shared s))
                                   stdoutMutex [Cout text]) = text /\
    under_lock stdoutMutex is_Cout false
      (MqGetattr 0 :: guarded (consumerThreadExists (shared s))
                        stdoutMutex [Cout text])
    = consumerThreadExists (shared s) /\
    count is_Cerr (MqGetattr 0 :: guarded (consumerThreadExists (shared s))
                                    stdoutMutex [Cout text]) = 0%nat).
  { intros text. unfold guarded, count.
    destruct (consumerThreadExists (shared s));
      cbn [app stdout_bytes under_lock held is_Cout is_Cerr filter length andb];
      rewrite ?app_nil_r; repeat split. }
  destruct Hh as [Hh | [Hh | Hh]]; injection Hh as -> -> ->.
  - rewrite countHandler_eq, Hs. cbv zeta.
    destruct (rc =? 0) eqn:E.
    + apply Z.eqb_eq in E. subst rc. eexists; eexists. split; [reflexivity|].
      rewrite L. split; [reflexivity|]. apply Ok.
    + eexists; eexists. split; [reflexivity|]. split; reflexivity.
  - rewrite msgsizeHandler_eq, Hs. cbv zeta.
    destruct (rc =? 0) eqn:E.
    + apply Z.eqb_eq in E. subst rc. eexists; eexists. split; [reflexivity|].
      rewrite L. split; [reflexivity|]. apply Ok.
    + eexists; eexists. split; [reflexivity|].
      unfold guarded, count.
      destruct (consumerThreadExists (shared s)); split; reflexivity.
  - rewrite maxmsgHandler_eq, Hs. cbv zeta.
    destruct (rc =? 0) eqn:E.
    + apply Z.eqb_eq in E. subst rc. eexists; eexists. split; [reflexivity|].
      rewrite L. split; [reflexivity|]. apply Ok.
    + eexists; eexists. split; [reflexivity|].
      unfold guarded, count.
      destruct (consumerThreadExists (shared s)); split; reflexivity.
Qed.

Lemma attribute_handlers_witness :
  exists log s',
    msgsizeHandler (foreground_state "msgsize" calm) = Ret 0 log s' /\
    log = MqGetattr 0
          :: guarded true stdoutMutex
               [Cout (bytes "msgsize " ++ print_Z 8 ++ [NL])] /\
    stdout_bytes log = bytes "msgsize " ++ print_Z 8 ++ [NL] /\
    under_lock stdoutMutex is_Cout false log = true /\
    count is_Cerr log = 0%nat.
Proof.
  exact (attribute_handlers (foreground_state "msgsize" calm) 0 0 sample_attr
           [(0, 0, sample_attr)] eq_refl msgsizeHandler "msgsize "%string 8
           (or_intror (or_introl eq_refl))).
Defined.

(* ------------------------------------------------------------------ *)
(** * [repr] *)
(* ------------------------------------------------------------------ *)

(** A property of characters that holds of the 256 of them. *)
Lemma all_ascii (P : ascii -> bool) :
  forallb P (map ascii_of_nat (seq 0 256)) = true -> forall c, P c = true.
Proof.
  intros H c. rewrite forallb_forall in H. apply H.
  rewrite <- (ascii_nat_embedding c). apply in_map, in_seq.
  pose proof (nat_ascii_bounded c). lia.
Qed.

Lemma repr_char_high ch : repr_char ch = None <-> high ch = true.
Proof.
  pose proof (all_ascii (fun c =>
                Bool.eqb (match repr_char c with None => true | _ => false end)
                                 (high c))) as H.
  specialize (H ltac:(vm_compute; reflexivity) ch). cbv beta in H.
  apply eqb_prop in H. rewrite <- H.
  destruct (repr_char ch); split; intros X;
    first [reflexivity | discriminate X].
Qed.

Lemma repr_char_printable ch a :
  repr_char ch = Some a ->
  Forall (fun c => printable c = true) a /\ 1 <= len a <= 4.
Proof.
  pose proof (all_ascii (fun c => match repr_char c with
                        | Some a => forallb printable a
                                    && (1 <=? len a) && (len a <=? 4)
                        | None => true
                        end)) as H.
  specialize (H ltac:(vm_compute; reflexivity) ch). cbv beta in H.
  intros E. rewrite E in H.
  apply andb_true_iff in H as [H H3]. apply andb_true_iff in H as [H1 H2].
  split; [apply Forall_forall; rewrite forallb_forall in H1; exact H1 | lia].
Qed.

Lemma repr_char_plain ch : plain ch = true -> repr_char ch = Some [ch].
Proof.
  pose proof (all_ascii (fun c => implb (plain c)
                          match repr_char c with
                          | Some [x] => Ascii.eqb x c
                          | _ => false
                          end)) as H.
  specialize (H ltac:(vm_compute; reflexivity) ch). cbv beta in H.
  intros P. rewrite P in H. cbn [implb] in H.
  destruct (repr_char ch) as [[|x [|y l]]|]; try discriminate H.
  apply Ascii.eqb_eq in H. subst x. reflexivity.
Qed.

Lemma repr_body_high input :
  repr_body input = None <-> Exists (fun ch => high ch = true) input.
Proof.
  induction input as [|ch rest IH]; cbn [repr_body].
  - split; [intros X; discriminate X | intros X; inversion X].
  - destruct (repr_char ch) as [a|] eqn:C.
    + assert (Hc : high ch <> true).
      { intros X. apply repr_char_high in X. congruence. }
      destruct (repr_body rest) as [b|].
      * split; [intros X; discriminate X|].
        intros X. inversion X; subst; [contradiction|].
        apply IH in H0. discriminate H0.
      * split; [intros _; right; apply IH; reflexivity | reflexivity].
    + split; [intros _; left; apply repr_char_high; exact C | reflexivity].
Qed.

Lemma repr_body_printable input : forall r,
  repr_body input = Some r ->
  exists body,
    r = body ++ [DQ] /\
    Forall (fun c => printable c = true) body /\
    len input <= len body <= 4 * len input.
Proof.
  induction input as [|ch rest IH]; intros r H; cbn [repr_body] in H.
  - injection H as <-. exists []. split; [reflexivity|].
    split; [constructor | unfold len; simpl; lia].
  - destruct (repr_char ch) as [a|] eqn:C; [|discriminate H].
    destruct (repr_body rest) as [b|]; [|discriminate H].
    injection H as <-.
    destruct (IH b eq_refl) as (body & -> & F & L).
    apply repr_char_printable in C as (Fa & La).
    exists (a ++ body). split; [rewrite app_assoc; reflexivity|].
    split; [apply Forall_app; auto|].
    rewrite len_app. unfold len in *. cbn [length].
    rewrite Nat2Z.inj_succ. lia.
Qed.

Lemma repr_body_plain input :
  Forall (fun ch => plain ch = true) input ->
  repr_body input = Some (input ++ [DQ]).
Proof.
  induction 1 as [|ch rest Hc _ IH]; cbn [repr_body]; [reflexivity|].
  rewrite (repr_char_plain ch Hc), IH. reflexivity.
Qed.

Lemma repr_body_backslash a : forall b,
  repr_body (a ++ BSL :: "n"%char :: b) = repr_body (a ++ NL :: b).
Proof.
  induction a as [|ch a IH]; intros b; cbn [app repr_body].
  - change (repr_char BSL) with (Some [BSL]).
    change (repr_char "n"%char) with (Some ["n"%char]).
    change (repr_char NL) with (Some [BSL; "n"%char]).
    destruct (repr_body b); reflexivity.
  - rewrite IH. reflexivity.
Qed.

Lemma repr_high input :
  repr input = None <-> Exists (fun ch => high ch = true) input.
Proof.
  unfold repr. rewrite <- repr_body_high.
  destruct (repr_body input); split; intros X;
    first [reflexivity | discriminate X].
Qed.

(** X1: [repr] aborts on its [assert] exactly for the inputs that hold a
    byte of value 128 or more (a negative [char], whose hexadecimal form
    has eight digits); every other input has a representation. *)
Theorem repr_aborts_on_high_bytes input :
  repr input = None <-> Exists (fun ch => high ch = true) input.
Proof. exact (repr_high input). Qed.

(** X2: a representation is a double quote, a body and a double quote; all
    its characters are printable, and the body has between one and four
    characters for every character of the input. *)
Theorem repr_quoted_printable input r :
  repr input = Some r ->
  exists body,
    r = [DQ] ++ body ++ [DQ] /\
    Forall (fun c => printable c = true) r /\
    len input <= len body <= 4 * len input.
Proof.
  unfold repr. intros H.
  destruct (repr_body input) as [b|] eqn:B; [|discriminate H].
  injection H as <-.
  apply repr_body_printable in B as (body & -> & F & L).
  exists body. split; [reflexivity|]. split; [|exact L].
  constructor; [reflexivity|].
  apply Forall_app. split; [exact F | repeat constructor].
Qed.

Lemma repr_quoted_printable_witness :
  exists body,
    [DQ] ++ bytes "/q" ++ [DQ] = [DQ] ++ body ++ [DQ] /\
    Forall (fun c => printable c = true) ([DQ] ++ bytes "/q" ++ [DQ]) /\
    len (bytes "/q") <= len body <= 4 * len (bytes "/q").
Proof.
  exact (repr_quoted_printable (bytes "/q") ([DQ] ++ bytes "/q" ++ [DQ])
           eq_refl).
Defined.

(** X3: a text of printable characters without a double quote is
    represented by itself between double quotes. *)
Theorem repr_plain_text input :
  Forall (fun ch => plain ch = true) input ->
  repr input = Some ([DQ] ++ input ++ [DQ]).
Proof.
  intros H. unfold repr. rewrite (repr_body_plain input H). reflexivity.
Qed.

Lemma repr_plain_text_witness :
  repr (bytes "/my queue") = Some ([DQ] ++ bytes "/my queue" ++ [DQ]).
Proof.
  apply (repr_plain_text (bytes "/my queue")).
  repeat constructor.
Defined.

(** X4: [repr] does not escape the backslash, so it is not injective: a
    backslash followed by the letter n has the representation of a
    newline, whatever stands before and after. *)
Theorem repr_backslash_not_escaped a b :
  repr (a ++ BSL :: "n"%char :: b) = repr (a ++ NL :: b) /\
  a ++ BSL :: "n"%char :: b <> a ++ NL :: b.
Proof.
  split.
  - unfold repr. rewrite repr_body_backslash. reflexivity.
  - intros E. apply app_inv_head in E. discriminate E.
Qed.

(* ------------------------------------------------------------------ *)
(** * Numerals: what is printed is read back *)
(* ------------------------------------------------------------------ *)

Lemma code_digit_char d : 0 <= d <= 9 -> code (digit_char d) = 48 + d.
Proof.
  intros H. unfold code, digit_char.
  rewrite nat_ascii_embedding by lia. lia.
Qed.

Lemma isdigit_digit_char d : 0 <= d <= 9 -> IStream.isdigit (digit_char d) = true.
Proof.
  intros H. unfold IStream.isdigit. rewrite code_digit_char by exact H.
  apply andb_true_iff. split; apply Z.leb_le; lia.
Qed.

Lemma isdigit_no_sign c :
  IStream.isdigit c = true ->
  IStream.isspace c = false /\ Ascii.eqb c "-" = false /\ Ascii.eqb c "+" = false.
Proof.
  pose proof (all_ascii (fun c => implb (IStream.isdigit c)
                 (negb (IStream.isspace c) && negb (Ascii.eqb c "-")
                  && negb (Ascii.eqb c "+")))) as H.
  specialize (H ltac:(vm_compute; reflexivity) c). cbv beta in H.
  intros D. rewrite D in H. cbn [implb] in H.
  apply andb_true_iff in H as [H H3]. apply andb_true_iff in H as [H1 H2].
  repeat split; apply negb_true_iff; assumption.
Qed.

Lemma decimal_fuel_digits fuel : forall n acc,
  0 <= n ->
  Forall (fun c => IStream.isdigit c = true) acc ->
  Forall (fun c => IStream.isdigit c = true) (decimal_fuel fuel n acc).
Proof.
  induction fuel as [|f IH]; intros n acc Hn Ha; cbn [decimal_fuel].
  - constructor; [|exact Ha]. apply isdigit_digit_char.
    pose proof (Z.mod_pos_bound n 10). lia.
  - assert (D : IStream.isdigit (digit_char (n mod 10)) = true).
    { apply isdigit_digit_char. pose proof (Z.mod_pos_bound n 10). lia. }
    destruct (n <? 10); [constructor; assumption|].
    apply IH; [apply Z.div_pos; lia | constructor; assumption].
Qed.

Lemma decimal_fuel_value fuel : forall n acc a0,
  0 <= n < 2 ^ Z.of_nat fuel ->
  exists k, 0 <= k /\
    fold_left (fun acc c => 10 * acc + (code c - 48))
              (decimal_fuel fuel n acc) a0
    = fold_left (fun acc c => 10 * acc + (code c - 48)) acc
                (a0 * 10 ^ k + n).
Proof.
  induction fuel as [|f IH]; intros n acc a0 Hn; cbn [decimal_fuel].
  - change (2 ^ Z.of_nat 0) with 1 in Hn. assert (n = 0) by lia. subst n.
    exists 1. split; [lia|]. cbn [fold_left].
    change (0 mod 10) with 0. rewrite code_digit_char by lia.
    f_equal. lia.
  - destruct (n <? 10) eqn:E.
    + apply Z.ltb_lt in E. exists 1. split; [lia|]. cbn [fold_left].
      rewrite Z.mod_small by lia. rewrite code_digit_char by lia.
      f_equal. lia.
    + apply Z.ltb_ge in E.
      destruct (IH (n / 10) (digit_char (n mod 10) :: acc) a0)
        as (k & Hk & Ek).
      { split; [apply Z.div_pos; lia|].
        apply Z.div_lt_upper_bound; [lia|].
        rewrite Nat2Z.inj_succ, Z.pow_succ_r in Hn by lia. lia. }
      exists (k + 1). split; [lia|]. rewrite Ek. cbn [fold_left].
      pose proof (Z.mod_pos_bound n 10).
      rewrite code_digit_char by lia. f_equal.
      rewrite Z.pow_add_r by lia. change (10 ^ 1) with 10.
      pose proof (Z.div_mod n 10). lia.
Qed.

Lemma digits_value_decimal n : 0 <= n -> IStream.digits_value (decimal n) = n.
Proof.
  intros Hn. unfold IStream.digits_value, decimal.
  destruct (decimal_fuel_value (S (Z.to_nat (Z.log2 n))) n [] 0)
    as (k & _ & E).
  { split; [exact Hn|]. rewrite Nat2Z.inj_succ, Z2Nat.id by apply Z.log2_nonneg.
    destruct (Z.eq_dec n 0) as [->|]; [reflexivity|].
    apply Z.log2_spec. lia. }
  rewrite E. cbn [fold_left]. lia.
Qed.

Lemma decimal_digits n :
  0 <= n -> Forall (fun c => IStream.isdigit c = true) (decimal n).
Proof. intros Hn. apply decimal_fuel_digits; [exact Hn | constructor]. Qed.

Lemma decimal_first n :
  0 <= n -> exists c l, decimal n = c :: l /\ IStream.isdigit c = true.
Proof.
  intros Hn. pose proof (decimal_digits n Hn) as F.
  pose proof (decimal_fuel_length (S (Z.to_nat (Z.log2 n))) n []) as L.
  fold (decimal n) in L.
  pose proof (log10_fuel_nonneg (S (Z.to_nat (Z.log2 n))) n).
  destruct (decimal n) as [|c l]; [unfold len in L; cbn [length] in L; lia|].
  exists c, l. split; [reflexivity|]. inversion F; assumption.
Qed.

Lemma span_digits l : forall rest,
  Forall (fun c => IStream.isdigit c = true) l -> ends_numeral rest ->
  IStream.span IStream.isdigit (l ++ rest) = (l, rest).
Proof.
  induction l as [|c l IH]; intros rest F E; cbn [app IStream.span].
  - destruct rest as [|c r]; [reflexivity|]. cbn [IStream.span].
    cbn in E. rewrite E. reflexivity.
  - inversion F as [|? ? Hc Hl]; subst. rewrite Hc, (IH rest Hl E).
    reflexivity.
Qed.

Lemma read_int_decimal signed lo hi n rest :
  0 <= n <= hi -> ends_numeral rest ->
  IStream.read_int signed lo hi (IStream.mk (decimal n ++ rest) false false)
  = (Some n,
     IStream.mk rest (match rest with [] => true | _ => false end) false).
Proof.
  intros Hn E.
  destruct (decimal_first n) as (c & l & D & Hc); [lia|].
  apply isdigit_no_sign in Hc as (Sp & Mi & Pl).
  unfold IStream.read_int, IStream.sentry, IStream.good.
  cbn [IStream.eofbit IStream.failbit IStream.data negb andb].
  rewrite D. cbn [app IStream.skipws]. rewrite Sp.
  cbn [IStream.data IStream.eofbit IStream.failbit]. rewrite Mi, Pl.
  change (c :: l ++ rest) with ((c :: l) ++ rest). rewrite <- D.
  rewrite span_digits by (auto using decimal_digits with zarith).
  rewrite digits_value_decimal by lia. cbn [andb].
  rewrite D at 1.
  replace (hi <? n) with false by (symmetry; apply Z.ltb_ge; lia).
  reflexivity.
Qed.

Lemma read_int_negative lo hi m rest :
  0 < m <= - lo -> ends_numeral rest ->
  IStream.read_int true lo hi
    (IStream.mk ("-"%char :: decimal m ++ rest) false false)
  = (Some (- m),
     IStream.mk rest (match rest with [] => true | _ => false end) false).
Proof.
  intros Hm E.
  destruct (decimal_first m) as (c & l & D & Hc); [lia|].
  unfold IStream.read_int, IStream.sentry, IStream.good.
  cbn [IStream.eofbit IStream.failbit IStream.data negb andb].
  cbn [IStream.skipws]. change (IStream.isspace "-"%char) with false.
  cbv iota. cbn [IStream.data IStream.eofbit IStream.failbit].
  change (Ascii.eqb "-"%char "-"%char) with true. cbv iota.
  rewrite span_digits by (auto using decimal_digits with zarith).
  rewrite digits_value_decimal by lia. cbn [andb].
  rewrite D at 1.
  replace (- lo <? m) with false by (symmetry; apply Z.ltb_ge; lia).
  reflexivity.
Qed.

(** A number of the range of [ssize_t] is read back from its decimal
    text. *)
Lemma toSsize_print_Z k :
  SSIZE_MIN <= k <= SSIZE_MAX -> toSsize (print_Z k) = Some k.
Proof.
  intros Hk. unfold toSsize, IStream.read_ssize_t, IStream.of_bytes, print_Z.
  destruct (k <? 0) eqn:E.
  - apply Z.ltb_lt in E.
    rewrite <- (app_nil_r (decimal (- k))).
    rewrite read_int_negative; [| lia | exact I].
    cbn [fst]. f_equal. lia.
  - apply Z.ltb_ge in E.
    rewrite <- (app_nil_r (decimal k)).
    rewrite read_int_decimal; [reflexivity | lia | exact I].
Qed.

(* ------------------------------------------------------------------ *)
(** * The command line *)
(* ------------------------------------------------------------------ *)

Lemma bytes_eqb_refl a : bytes_eqb a a = true.
Proof.
  induction a as [|c a IH]; [reflexivity|]. cbn [bytes_eqb].
  rewrite Ascii.eqb_refl, IH. reflexivity.
Qed.

Lemma given_cons a rest x :
  given (a :: rest) x = bytes_eqb a (bytes x) || given rest x.
Proof.
  unfold given. cbn [FindArgs].
  destruct (bytes_eqb a (bytes x)); [reflexivity|].
  destruct (FindArgs rest x); reflexivity.
Qed.

Lemma given_In args x : given args x = true <-> In (bytes x) args.
Proof.
  induction args as [|a rest IH].
  - split; [intros X; discriminate X | intros []].
  - rewrite given_cons, orb_true_iff, IH. cbn [In].
    split; intros [H|H]; auto.
    + left. apply bytes_eqb_eq, H.
    + left. subst a. apply bytes_eqb_refl.
Qed.

Lemma given_FindArgs args x :
  given args x = true <-> exists place, FindArgs args x = Some place.
Proof.
  unfold given. destruct (FindArgs args x) as [p|].
  - split; [intros _; exists p; reflexivity | reflexivity].
  - split; [intros X; discriminate X | intros [p X]; discriminate X].
Qed.

(** An argument that does not begin with a dash is no option. *)
Lemma plain_argument name x :
  dashed name = false -> dashed (bytes x) = true ->
  bytes_eqb name (bytes x) = false.
Proof.
  intros Hn Hx. destruct (bytes_eqb name (bytes x)) eqn:E; [|reflexivity].
  apply bytes_eqb_eq in E. congruence.
Qed.

Lemma removelast_incl (args : list (list ascii)) a :
  In a (removelast args) -> In a args.
Proof.
  induction args as [|x [|y l] IH]; cbn [removelast]; intros H; auto.
  - destruct H.
  - destruct H as [H|H]; [left; exact H | right; apply IH, H].
Qed.

(** What [checkArgs] has checked when it returns zero. *)
Lemma checkArgs_accepts argv0 args :
  fst (checkArgs argv0 args) = Returned 0 ->
  snd (checkArgs argv0 args) = [] /\
  args <> [] /\
  given args "--help" = false /\ given args "-h" = false /\
  given args "--readme" = false /\
  dashed (last args argv0) = false /\
  if given args "--unlink" then length args = 2%nat
  else
    given args "--read" || given args "--write" = true /\
    given args "--open" || given args "--create" = true /\
    given args "--msgsize" = given args "--maxmsg" /\
    List.find unsupported (removelast args) = None.
Proof.
  unfold checkArgs. cbv zeta.
  destruct (1 + Z.of_nat (length args) <? 2) eqn:E1; [intros X; discriminate X|].
  apply Z.ltb_ge in E1.
  destruct (given args "--help" || given args "-h") eqn:E2;
    [intros X; discriminate X|].
  apply orb_false_iff in E2 as [E2 E2'].
  destruct (given args "--readme") eqn:E3; [intros X; discriminate X|].
  destruct (dashed (last args argv0)) eqn:E4; [intros X; discriminate X|].
  assert (N : args <> []) by (intros ->; simpl in E1; lia).
  destruct (given args "--unlink") eqn:E5; cbn [andb].
  - destruct (given args "--debug" && negb (1 + Z.of_nat (length args) =? 4)
              || negb (1 + Z.of_nat (length args) =? 3)) eqn:E6;
      [intros X; discriminate X|].
    intros _. apply orb_false_iff in E6 as [_ E6].
    apply negb_false_iff, Z.eqb_eq in E6.
    repeat split; auto. lia.
  - destruct (negb (given args "--read") && negb (given args "--write")) eqn:E6;
      [intros X; discriminate X|].
    destruct (negb (given args "--open") && negb (given args "--create")) eqn:E7;
      [intros X; discriminate X|].
    destruct (negb (Bool.eqb (given args "--msgsize") (given args "--maxmsg")))
      eqn:E8; [intros X; discriminate X|].
    destruct (List.find unsupported (removelast args)) as [arg|] eqn:E9.
    { destruct (repr arg); intros X; discriminate X. }
    intros _. repeat split; auto.
    + destruct (given args "--read"), (given args "--write");
        try reflexivity; discriminate E6.
    + destruct (given args "--open"), (given args "--create");
        try reflexivity; discriminate E7.
    + apply negb_false_iff, eqb_prop in E8. exact E8.
Qed.

(** The one command line with [--unlink] that passes. *)
Lemma checkArgs_unlink_name argv0 name :
  dashed name = false ->
  checkArgs argv0 [bytes "--unlink"; name] = (Returned 0, []).
Proof.
  intros D. unfold checkArgs. cbv zeta.
  rewrite !given_cons.
  rewrite (plain_argument name "--help" D eq_refl),
    (plain_argument name "-h" D eq_refl),
    (plain_argument name "--readme" D eq_refl),
    (plain_argument name "--unlink" D eq_refl),
    (plain_argument name "--debug" D eq_refl).
  cbn [last]. rewrite D. vm_compute. reflexivity.
Qed.

(** X5: with [--unlink], [checkArgs] accepts exactly the command lines
    [--unlink <name>] whose name does not begin with a dash; [--debug]
    beside [--unlink] is refused like any other argument. *)
Theorem checkArgs_unlink argv0 args :
  given args "--unlink" = true ->
  (fst (checkArgs argv0 args) = Returned 0 <->
   exists name, args = [bytes "--unlink"; name] /\ dashed name = false).
Proof.
  intros U. split.
  - intros H. apply checkArgs_accepts in H as (_ & _ & _ & _ & _ & D & L).
    rewrite U in L.
    destruct args as [|a [|name [|x l]]]; try discriminate L.
    cbn [last] in D. exists name. split; [|exact D].
    rewrite !given_cons in U. cbn [given FindArgs] in U.
    rewrite (plain_argument name "--unlink" D eq_refl) in U.
    rewrite !orb_false_r in U. apply bytes_eqb_eq in U. subst a. reflexivity.
  - intros (name & -> & D). rewrite checkArgs_unlink_name by exact D.
    reflexivity.
Qed.

Lemma checkArgs_unlink_witness :
  fst (checkArgs (bytes "mq") [bytes "--unlink"; bytes "--debug"; bytes "/q"])
  = Returned 0 <->
  exists name,
    [bytes "--unlink"; bytes "--debug"; bytes "/q"] = [bytes "--unlink"; name]
    /\ dashed name = false.
Proof.
  apply (checkArgs_unlink (bytes "mq")
           [bytes "--unlink"; bytes "--debug"; bytes "/q"]).
  vm_compute. reflexivity.
Defined.

(** The options a command line that [checkArgs] accepts can hold. *)
Lemma unsupported_false a :
  unsupported a = false -> 2 < len a -> firstn 2 a = bytes "--" ->
  In a (map (fun flag => bytes "--" ++ bytes flag) flags).
Proof.
  unfold unsupported. intros U L F.
  replace (2 <? len a) with true in U by (symmetry; apply Z.ltb_lt; exact L).
  rewrite F, bytes_eqb_refl in U. cbn [andb] in U.
  apply negb_false_iff, existsb_exists in U as (flag & Hin & E).
  apply bytes_eqb_eq in E. apply in_map_iff. exists flag. split; [|exact Hin].
  rewrite <- F, E. apply firstn_skipn.
Qed.

(** X6: in a command line that [checkArgs] accepts, an argument before the
    queue name that begins with two dashes and has more characters is one
    of [--read], [--write], [--open], [--create], [--msgsize], [--maxmsg],
    [--debug] and [--unlink].  So [--permissions], which [help] lists, is
    refused wherever it stands. *)
Theorem checkArgs_known_options argv0 args :
  fst (checkArgs argv0 args) = Returned 0 ->
  (forall a,
     In a (removelast args) -> 2 < len a -> firstn 2 a = bytes "--" ->
     In a (map bytes ["--read"; "--write"; "--open"; "--create"; "--msgsize";
                      "--maxmsg"; "--debug"; "--unlink"]%string)) /\
  ~ In (bytes "--permissions") args.
Proof.
  intros H.
  apply checkArgs_accepts in H as (_ & N & _ & _ & R & D & H).
  assert (K : forall a,
    In a (removelast args) -> 2 < len a -> firstn 2 a = bytes "--" ->
    In a (map bytes ["--read"; "--write"; "--open"; "--create"; "--msgsize";
                     "--maxmsg"; "--debug"; "--unlink"]%string)).
  { intros a Ha La Fa.
    destruct (given args "--unlink") eqn:U.
    - destruct args as [|x [|name [|y l]]]; try discriminate H.
      cbn [removelast In] in Ha. destruct Ha as [<-|[]].
      cbn [last] in D. rewrite !given_cons in U. cbn [given FindArgs] in U.
      rewrite (plain_argument name "--unlink" D eq_refl) in U.
      rewrite !orb_false_r in U. apply bytes_eqb_eq in U. subst x.
      cbn [map In]. tauto.
    - destruct H as (_ & _ & _ & F).
      pose proof (find_none _ _ F a Ha) as Ua.
      apply unsupported_false in Ua; [|exact La|exact Fa].
      cbn [map flags In] in Ua. cbn [map In].
      destruct Ua as [E|[E|[E|[E|[E|[E|[E|[E|[]]]]]]]]]; subst a; auto 10.
      exfalso. apply removelast_incl in Ha.
      apply (given_In args "--readme") in Ha. congruence. }
  split; [exact K|].
  intros P.
  assert (Q : In (bytes "--permissions") (removelast args)).
  { destruct (exists_last N) as (front & final & E). subst args.
    rewrite removelast_last. apply in_app_or in P as [P|[P|[]]]; [exact P|].
    exfalso. rewrite last_last in D. subst final. discriminate D. }
  specialize (K _ Q eq_refl eq_refl). cbn [map In] in K.
  repeat (destruct K as [K|K]; [discriminate K|]). exact K.
Qed.

Lemma checkArgs_known_options_witness :
  (forall a,
     In a (removelast [bytes "--read"; bytes "--open"; bytes "/q"]) ->
     2 < len a -> firstn 2 a = bytes "--" ->
     In a (map bytes ["--read"; "--write"; "--open"; "--create"; "--msgsize";
                      "--maxmsg"; "--debug"; "--unlink"]%string)) /\
  ~ In (bytes "--permissions") [bytes "--read"; bytes "--open"; bytes "/q"].
Proof.
  apply (checkArgs_known_options (bytes "mq")
           [bytes "--read"; bytes "--open"; bytes "/q"]).
  vm_compute. reflexivity.
Defined.

(** X7: [checkArgs] is silent when it returns zero; every other value it
    returns is between 1 and 6 and comes with one text on the diagnostics
    and nothing on standard output; it ends the process only for [--help],
    [-h] and [--readme], with status 0 and one text on standard output; it
    aborts only over an argument that holds a byte of value 128 or more. *)
Theorem checkArgs_outcomes argv0 args :
  match checkArgs argv0 args with
  | (Returned rc, out) =>
      if rc =? 0 then out = []
      else 1 <= rc <= 6 /\ exists diagnostic, out = [Cerr diagnostic]
  | (Exited status, out) =>
      status = 0 /\ (exists printed, out = [Cout printed]) /\
      (given args "--help" || given args "-h" || given args "--readme" = true)
  | (Aborted, _) =>
      exists arg, In arg (removelast args) /\
                  Exists (fun ch => high ch = true) arg
  end.
Proof.
  unfold checkArgs. cbv zeta.
  destruct (1 + Z.of_nat (length args) <? 2);
    [split; [lia | eexists; reflexivity]|].
  destruct (given args "--help" || given args "-h") eqn:E2.
  { split; [reflexivity|]. split; [eexists; reflexivity | reflexivity]. }
  destruct (given args "--readme") eqn:E3.
  { split; [reflexivity|]. split; [eexists; reflexivity | reflexivity]. }
  destruct (dashed (last args argv0));
    [split; [lia | eexists; reflexivity]|].
  destruct (given args "--unlink"); cbn [andb].
  { destruct (given args "--debug" && negb (1 + Z.of_nat (length args) =? 4)
              || negb (1 + Z.of_nat (length args) =? 3));
      [split; [lia | eexists; reflexivity] | reflexivity]. }
  destruct (negb (given args "--read") && negb (given args "--write"));
    [split; [lia | eexists; reflexivity]|].
  destruct (negb (given args "--open") && negb (given args "--create"));
    [split; [lia | eexists; reflexivity]|].
  destruct (negb (Bool.eqb (given args "--msgsize") (given args "--maxmsg")));
    [split; [lia | eexists; reflexivity]|].
  destruct (List.find unsupported (removelast args)) as [arg|] eqn:F;
    [|reflexivity].
  destruct (repr arg) eqn:R; [split; [lia | eexists; reflexivity]|].
  exists arg. split.
  - apply find_some in F. apply F.
  - apply repr_high. exact R.
Qed.

(* ------------------------------------------------------------------ *)
(** * From the command line to the queue: [parseOptions], [openQueue]
      and [main] *)
(* ------------------------------------------------------------------ *)

Lemma not_said name oflag mode attr mqd out :
  ~ In (MqOpen name oflag mode attr mqd) (map Say out).
Proof. intros H. apply in_map_iff in H as (e & E & _). discriminate E. Qed.

Lemma not_said_unlink name rc out :
  ~ In (MqUnlink name rc) (map Say out).
Proof. intros H. apply in_map_iff in H as (e & E & _). discriminate E. Qed.

(** The call of [mq_open] that [openQueue] makes. *)
Lemma openQueue_call o mqd opening name oflag mode attr mqd' :
  openQueue o mqd = Some opening ->
  In (MqOpen name oflag mode attr mqd') opening ->
  name = queueName o /\
  oflag = Z.lor (match operation o with
                 | READ_ONLY => O_RDONLY
                 | WRITE_ONLY => O_WRONLY
                 | READ_WRITE => O_RDWR
                 end)
                (match open o with
                 | OPEN_ONLY => 0
                 | CREATE_ONLY => Z.lor O_EXCL O_CREAT
                 | OPEN_CREATE => O_CREAT
                 end) /\
  mode = filePermissions o /\
  attr = (if maxesSpecified o then Some (maxmsg o, opt_msgsize o) else None) /\
  mqd' = mqd.
Proof.
  unfold openQueue. cbv zeta. intros H I.
  assert (K : MqOpen name oflag mode attr mqd' =
              MqOpen (queueName o)
                match open o with
                | OPEN_ONLY =>
                    match operation o with
                    | READ_ONLY => Z.lor 0 O_RDONLY
                    | WRITE_ONLY => Z.lor 0 O_WRONLY
                    | READ_WRITE => Z.lor 0 O_RDWR
                    end
                | CREATE_ONLY =>
                    Z.lor
                      match operation o with
                      | READ_ONLY => Z.lor 0 O_RDONLY
                      | WRITE_ONLY => Z.lor 0 O_WRONLY
                      | READ_WRITE => Z.lor 0 O_RDWR
                      end (Z.lor O_EXCL O_CREAT)
                | OPEN_CREATE =>
                    Z.lor
                      match operation o with
                      | READ_ONLY => Z.lor 0 O_RDONLY
                      | WRITE_ONLY => Z.lor 0 O_WRONLY
                      | READ_WRITE => Z.lor 0 O_RDWR
                      end O_CREAT
                end (filePermissions o)
                (if maxesSpecified o then Some (maxmsg o, opt_msgsize o)
                 else None) mqd).
  { destruct (debug o).
    - destruct (repr (queueName o)); [|discriminate H].
      injection H as <-. destruct I as [I|[I|[]]]; [discriminate I|].
      symmetry. exact I.
    - injection H as <-. destruct I as [I|[]]. symmetry. exact I. }
  injection K as -> -> -> -> ->.
  repeat split. destruct (operation o), (open o); reflexivity.
Qed.

(** [main] calls [mq_open] only through [openQueue], for options that
    [checkArgs] accepted and [parseOptions] read. *)
Lemma main_opens argv0 args h acts out name oflag mode attr mqd :
  main argv0 args h = Some (acts, out) ->
  In (MqOpen name oflag mode attr mqd) acts ->
  exists o opening,
    fst (checkArgs argv0 args) = Returned 0 /\
    parseOptions argv0 args = Some o /\
    unlink o = false /\
    openQueue o (fst (mq_open_answer h)) = Some opening /\
    In (MqOpen name oflag mode attr mqd) opening.
Proof.
  unfold main. cbv zeta.
  destruct (checkArgs argv0 args) as [[rc|status|] said] eqn:C; cbn [fst].
  2,3: intros H I; injection H as <- _; exfalso; eapply not_said; exact I.
  destruct (rc =? 0) eqn:E; cbn [negb].
  2: intros H I; injection H as <- _; exfalso; eapply not_said; exact I.
  apply Z.eqb_eq in E. subst rc.
  destruct (parseOptions argv0 args) as [o|]; [|intros X; discriminate X].
  destruct (unlink o) eqn:U.
  { destruct (mq_unlink_answer h) as [rc error].
    destruct (rc =? -1); [destruct (repr (queueName o))|];
      intros H I; injection H as <- _; exfalso;
      apply in_app_or in I as [I|I];
      try (eapply not_said; exact I);
      cbn [In] in I; repeat (destruct I as [I|I]; [discriminate I|]);
      exact I. }
  destruct (mq_open_answer h) as [mq error]. cbn [fst].
  destruct (openQueue o mq) as [opening|] eqn:O.
  2: intros H I; injection H as <- _; exfalso; eapply not_said; exact I.
  intros H I. exists o, opening.
  repeat split; auto.
  destruct (mq =? -1); [destruct (repr (queueName o))|];
    injection H as <- _;
    apply in_app_or in I as [I|I];
    try (exfalso; eapply not_said; exact I);
    try (apply in_app_or in I as [I|I]); auto;
    cbn [In] in I; repeat (destruct I as [I|I]; [discriminate I|]);
    destruct I.
Qed.

(** The options [parseOptions] reads from a command line without
    [--unlink]. *)
Lemma parseOptions_open argv0 args o :
  given args "--unlink" = false ->
  parseOptions argv0 args = Some o ->
  operation o = (if given args "--read" && given args "--write" then READ_WRITE
                 else if given args "--read" then READ_ONLY else WRITE_ONLY) /\
  open o = (if given args "--open" && given args "--create" then OPEN_CREATE
            else if given args "--open" then OPEN_ONLY else CREATE_ONLY) /\
  filePermissions o = 384 /\
  maxesSpecified o = given args "--maxmsg" || given args "--msgsize" /\
  debug o = given args "--debug" /\
  queueName o = last args argv0 /\
  (forall place, FindArgs args "--maxmsg" = Some place ->
                 value_after args place = Some (maxmsg o)) /\
  (forall place, FindArgs args "--msgsize" = Some place ->
                 value_after args place = Some (opt_msgsize o)).
Proof.
  intros U. unfold parseOptions. cbv zeta. rewrite U.
  destruct (FindArgs args "--maxmsg") as [i|] eqn:Fi;
    destruct (FindArgs args "--msgsize") as [j|] eqn:Fj.
  - destruct (value_after args i) as [a|] eqn:Va; [|intros X; discriminate X].
    destruct (value_after args j) as [b|] eqn:Vb; [|intros X; discriminate X].
    intros H. injection H as <-. cbn.
    repeat split; intros p E; injection E as <-; assumption.
  - destruct (value_after args i) as [a|] eqn:Va; [|intros X; discriminate X].
    intros H. injection H as <-. cbn.
    repeat split; intros p E;
      first [discriminate E | injection E as <-; assumption].
  - destruct (value_after args j) as [b|] eqn:Vb; [|intros X; discriminate X].
    intros H. injection H as <-. cbn.
    repeat split; intros p E;
      first [discriminate E | injection E as <-; assumption].
  - intros H. injection H as <-. cbn.
    repeat split; intros p E; discriminate E.
Qed.

Lemma parseOptions_unlink argv0 args o :
  parseOptions argv0 args = Some o -> unlink o = given args "--unlink".
Proof.
  unfold parseOptions. cbv zeta.
  destruct (given args "--unlink"); [intros H; injection H as <-; reflexivity|].
  destruct (FindArgs args "--maxmsg") as [i|];
    [destruct (value_after args i)|];
    (destruct (FindArgs args "--msgsize") as [j|];
     [destruct (value_after args j)|]);
    intros H; first [discriminate H | injection H as <-; reflexivity].
Qed.

Lemma main_defined argv0 args h :
  parseOptions argv0 args <> None -> exists r, main argv0 args h = Some r.
Proof.
  intros P. unfold main. cbv zeta.
  destruct (checkArgs argv0 args) as [[rc|status|] said];
    [|eexists; reflexivity|eexists; reflexivity].
  destruct (negb (rc =? 0)); [eexists; reflexivity|].
  destruct (parseOptions argv0 args) as [o|]; [|contradiction P; reflexivity].
  destruct (unlink o).
  - destruct (mq_unlink_answer h) as [rc' error].
    destruct (rc' =? -1); [destruct (repr (queueName o))|];
      eexists; reflexivity.
  - destruct (mq_open_answer h) as [mq error].
    destruct (openQueue o mq); [|eexists; reflexivity].
    destruct (mq =? -1); [destruct (repr (queueName o))|];
      eexists; reflexivity.
Qed.

(** X8: when [main] calls [mq_open], the name is the last argument, which
    does not begin with a dash; the access mode is read-write when both
    [--read] and [--write] are given and that of the one given otherwise;
    [O_CREAT] is passed exactly with [--create] and [O_EXCL] exactly with
    [--create] without [--open]; the permissions are always [0600]; the
    attributes are passed exactly when [--maxmsg] and [--msgsize] are
    given. *)
Theorem main_open_call argv0 args h acts out name oflag mode attr mqd :
  main argv0 args h = Some (acts, out) ->
  In (MqOpen name oflag mode attr mqd) acts ->
  let read := given args "--read" in
  let write := given args "--write" in
  let open_ := given args "--open" in
  let create := given args "--create" in
  name = last args argv0 /\ dashed name = false /\
  read || write = true /\ open_ || create = true /\
  oflag = Z.lor (if read && write then O_RDWR
                 else if read then O_RDONLY else O_WRONLY)
                (if create
                 then if open_ then O_CREAT else Z.lor O_EXCL O_CREAT
                 else 0) /\
  mode = 384 /\
  given args "--maxmsg" = given args "--msgsize" /\
  (attr = None <-> given args "--maxmsg" = false) /\
  mqd = fst (mq_open_answer h).
Proof.
  intros H I. cbv zeta.
  apply (main_opens _ _ _ _ _ _ _ _ _ _ H) in I
    as (o & opening & C & P & U & O & I).
  rewrite (parseOptions_unlink _ _ _ P) in U.
  apply checkArgs_accepts in C as (_ & _ & _ & _ & _ & D & C).
  rewrite U in C. destruct C as (RW & OC & MM & _).
  apply (parseOptions_open _ _ _ U) in P
    as (Eop & Eopen & Eperm & Emax & _ & Ename & _).
  apply (openQueue_call _ _ _ _ _ _ _ _ O) in I as (-> & -> & -> & -> & ->).
  rewrite Ename, Eop, Eopen, Eperm, Emax, MM.
  split; [reflexivity|]. split; [exact D|]. split; [exact RW|].
  split; [exact OC|].
  split.
  { destruct (given args "--read"), (given args "--write"),
      (given args "--open"), (given args "--create");
      try discriminate RW; try discriminate OC; reflexivity. }
  split; [reflexivity|]. split; [reflexivity|]. split; [|reflexivity].
  destruct (given args "--maxmsg"); cbn [orb]; split; intros X;
    first [discriminate X | reflexivity].
Qed.

Lemma main_open_call_witness :
  let args := [bytes "--read"; bytes "--create"; bytes "/q"] in
  let h := mkHost (0, 0) (3, 0) (sample_world "close" calm) in
  bytes "/q" = last args (bytes "mq") /\ dashed (bytes "/q") = false /\
  given args "--read" || given args "--write" = true /\
  given args "--open" || given args "--create" = true /\
  192 = Z.lor (if given args "--read" && given args "--write" then O_RDWR
               else if given args "--read" then O_RDONLY else O_WRONLY)
              (if given args "--create"
               then if given args "--open" then O_CREAT
                    else Z.lor O_EXCL O_CREAT
               else 0) /\
  384 = 384 /\
  given args "--maxmsg" = given args "--msgsize" /\
  (@None (Z * Z) = None <-> given args "--maxmsg" = false) /\
  3 = fst (mq_open_answer h).
Proof.
  cbv zeta.
  refine (main_open_call (bytes "mq")
            [bytes "--read"; bytes "--create"; bytes "/q"]
            (mkHost (0, 0) (3, 0) (sample_world "close" calm))
            [MqOpen (bytes "/q") 192 384 None 3]
            (serve 3 (mkOptions READ_ONLY CREATE_ONLY 384 false (-1) (-1)
                                false false (bytes "/q"))
                   (sample_world "close" calm))
            (bytes "/q") 192 384 None 3 _ _).
  - vm_compute. reflexivity.
  - left. reflexivity.
Defined.

(** X9: numbers of the range of [ssize_t] given in decimal after [--maxmsg]
    and [--msgsize] are read back: [main] has an outcome, and when it calls
    [mq_open] it passes these two numbers as the attributes of the
    queue. *)
Theorem main_open_attributes argv0 args h i j k n :
  FindArgs args "--maxmsg" = Some i ->
  nth_error args (S i) = Some (print_Z k) ->
  FindArgs args "--msgsize" = Some j ->
  nth_error args (S j) = Some (print_Z n) ->
  SSIZE_MIN <= k <= SSIZE_MAX ->
  SSIZE_MIN <= n <= SSIZE_MAX ->
  exists acts out,
    main argv0 args h = Some (acts, out) /\
    forall name oflag mode attr mqd,
      In (MqOpen name oflag mode attr mqd) acts -> attr = Some (k, n).
Proof.
  intros Fi Ni Fj Nj Hk Hn.
  assert (Vi : value_after args i = Some k).
  { unfold value_after. rewrite Ni. apply toSsize_print_Z, Hk. }
  assert (Vj : value_after args j = Some n).
  { unfold value_after. rewrite Nj. apply toSsize_print_Z, Hn. }
  assert (P : parseOptions argv0 args <> None).
  { unfold parseOptions. cbv zeta.
    destruct (given args "--unlink"); [discriminate|].
    rewrite Fi, Fj, Vi, Vj. discriminate. }
  destruct (main_defined argv0 args h P) as ([acts out] & M).
  exists acts, out. split; [exact M|].
  intros name oflag mode attr mqd I.
  apply (main_opens _ _ _ _ _ _ _ _ _ _ M) in I
    as (o & opening & _ & Po & U & O & I).
  rewrite (parseOptions_unlink _ _ _ Po) in U.
  apply (parseOptions_open _ _ _ U) in Po
    as (_ & _ & _ & Emax & _ & _ & Vk & Vn).
  apply (openQueue_call _ _ _ _ _ _ _ _ O) in I as (_ & _ & _ & -> & _).
  rewrite Emax.
  assert (G : given args "--maxmsg" = true)
    by (apply given_FindArgs; eexists; exact Fi).
  rewrite G. cbn [orb].
  specialize (Vk i Fi). specialize (Vn j Fj). congruence.
Qed.

Lemma main_open_attributes_witness :
  let args := [bytes "--write"; bytes "--create"; bytes "--maxmsg";
               bytes "10"; bytes "--msgsize"; bytes "-1"; bytes "/q"] in
  exists acts out,
    main (bytes "mq") args
         (mkHost (0, 0) (3, 0) (sample_world "close" calm))
    = Some (acts, out) /\
    forall name oflag mode attr mqd,
      In (MqOpen name oflag mode attr mqd) acts -> attr = Some (10, -1).
Proof.
  cbv zeta.
  refine (main_open_attributes (bytes "mq")
            [bytes "--write"; bytes "--create"; bytes "--maxmsg";
             bytes "10"; bytes "--msgsize"; bytes "-1"; bytes "/q"]
            (mkHost (0, 0) (3, 0) (sample_world "close" calm))
            2%nat 4%nat 10 (-1) _ _ _ _ _ _);
    try reflexivity; vm_compute; split; intros X; discriminate X.
Defined.

(** X10: on [--unlink <name>] the program calls [mq_unlink] on the name
    and nothing else: it opens no queue and reads nothing from standard
    input.  When the call succeeds the exit status is 0 and nothing is
    written; when it fails one diagnostic is written. *)
Theorem main_unlink argv0 name h :
  dashed name = false ->
  let rc := fst (mq_unlink_answer h) in
  exists acts out,
    main argv0 [bytes "--unlink"; name] h
    = Some (MqUnlink name rc :: acts, out) /\
    if rc =? -1 then
      (exists diagnostic status,
         acts = [Say (Cerr diagnostic)] /\
         out = Ret status [] (host_world h)) \/
      (repr name = None /\ acts = [] /\ out = Crash [])
    else acts = [] /\ out = Ret 0 [] (host_world h).
Proof.
  intros D. cbv zeta. unfold main. cbv zeta.
  rewrite checkArgs_unlink_name by exact D.
  change (negb (0 =? 0)) with false. cbv iota.
  unfold parseOptions. cbv zeta.
  assert (U : given [bytes "--unlink"; name] "--unlink" = true).
  { rewrite given_cons. reflexivity. }
  rewrite U. cbn [unlink queueName last map app].
  destruct (mq_unlink_answer h) as [rc error]. cbn [fst].
  destruct (rc =? -1).
  - destruct (repr name) eqn:R.
    + eexists; eexists. split; [reflexivity|]. left.
      eexists; eexists. split; reflexivity.
    + eexists; eexists. split; [reflexivity|]. right. auto.
  - eexists; eexists. split; [reflexivity|]. auto.
Qed.

Lemma main_unlink_witness :
  exists acts out,
    main (bytes "mq") [bytes "--unlink"; bytes "/q"]
         (mkHost (0, 0) (3, 0) (sample_world "count" calm))
    = Some (MqUnlink (bytes "/q") 0 :: acts, out) /\
    acts = [] /\ out = Ret 0 [] (sample_world "count" calm).
Proof.
  exact (main_unlink (bytes "mq") (bytes "/q")
           (mkHost (0, 0) (3, 0) (sample_world "count" calm)) eq_refl).
Defined.

(* ------------------------------------------------------------------ *)
(** * Lock discipline *)
(* ------------------------------------------------------------------ *)

Lemma discipline_app strict l1 : forall h l2,
  discipline strict h (l1 ++ l2) =
  match discipline strict h l1 with
  | Some h' => discipline strict h' l2
  | None => None
  end.
Proof.
  induction l1 as [|e l1 IH]; intros h l2; [reflexivity|].
  cbn [app discipline]. cbv zeta.
  match goal with |- (if ?c then _ else _) = _ => destruct c end;
    [apply IH | reflexivity].
Qed.

Lemma discipline_writes strict h region l :
  negb strict || holds h stdoutMutex = true ->
  Forall (fun e => exists rc, e = SysWrite region rc) l ->
  discipline strict h l = Some h.
Proof.
  intros Hh. induction 1 as [|e l [rc ->] _ IH]; [reflexivity|].
  cbn [discipline]. cbv zeta. rewrite Hh. exact IH.
Qed.

Lemma mq_send_retry_sends payload priority script :
  match mq_send_retry payload priority script with
  | Ret _ l _ | Blocked l | Crash l =>
      Forall (fun e => exists rc, e = MqSend payload priority rc) l
  | OutOfFuel => True
  end.
Proof.
  induction script as [|[rc error] rest IH]; cbn [mq_send_retry];
    [constructor|].
  destruct (rc =? -1); [destruct (negb (error =? EINTR))|];
    cbn [log_then app]; try (repeat econstructor; fail).
  destruct (mq_send_retry payload priority rest); cbn [log_then app]; auto;
    constructor; eauto.
Qed.

Lemma discipline_sends strict payload priority l :
  Forall (fun e => exists rc, e = MqSend payload priority rc) l ->
  discipline strict [] l = Some [].
Proof.
  induction 1 as [|e l [rc ->] _ IH]; [reflexivity|]. exact IH.
Qed.

Lemma keeps_ret {A} strict h (a : A) : keeps strict h (ret a) h.
Proof.
  intros s a' l s' H C. apply Ret_inj in H as (_ & <- & <-).
  split; [reflexivity | exact C].
Qed.

Lemma keeps_crash {A} strict h h' : keeps strict h (@crash A) h'.
Proof. intros s a l s' H. discriminate H. Qed.

Lemma keeps_bind {A B} strict h h1 h2 (m : M A) (k : A -> M B) :
  keeps strict h m h1 -> (forall a, keeps strict h1 (k a) h2) ->
  keeps strict h (bind m k) h2.
Proof.
  intros Hm Hk s b l s' H C.
  apply bind_Ret_inv in H as (a & l1 & s1 & l2 & H1 & H2 & ->).
  destruct (Hm _ _ _ _ H1 C) as (D1 & C1).
  destruct (Hk a _ _ _ _ H2 C1) as (D2 & C2).
  split; [|exact C2]. rewrite discipline_app, D1. exact D2.
Qed.

Lemma keeps_emit strict h e h' :
  discipline strict h [e] = Some h' -> keeps strict h (emit e) h'.
Proof.
  intros D s a l s' H C. apply Ret_inj in H as (_ & <- & <-).
  split; [exact D | exact C].
Qed.

(** A step that writes nothing to the log and leaves [shared] alone. *)
Lemma keeps_silent {A} strict h (m : M A) :
  (forall s, exists a s', m s = Ret a [] s' /\ shared s' = shared s) ->
  keeps strict h m h.
Proof.
  intros Hm s a l s' H C. destruct (Hm s) as (a0 & s0 & E & Sh).
  rewrite E in H. apply Ret_inj in H as (_ & <- & <-).
  split; [reflexivity|]. rewrite Sh. exact C.
Qed.

Lemma keeps_ask {A} strict h script rest : keeps strict h (@ask A script rest) h.
Proof.
  intros s a l s' H C. unfold ask in H.
  destruct (script (env s)); [discriminate H|].
  apply Ret_inj in H as (_ & <- & <-). split; [reflexivity | exact C].
Qed.

Lemma keeps_input {A} strict h (f : IStream.t -> A * IStream.t) :
  keeps strict h (input f) h.
Proof.
  apply keeps_silent. intros s. unfold input.
  destruct (f (cin s)). eexists; eexists. split; reflexivity.
Qed.

Lemma keeps_get_shared {B} strict h h' (k : Shared -> M B) :
  (forall sh, (strict = true -> consumerThreadExists sh = true) ->
              keeps strict h (k sh) h') ->
  keeps strict h (bind get_shared k) h'.
Proof.
  intros Hk s a l s' H C. rewrite bind_get_shared in H.
  exact (Hk (shared s) C s a l s' H C).
Qed.

Lemma keeps_set_stopped strict h :
  keeps strict h (modify_shared (set_stopped true)) h.
Proof.
  intros s a l s' H C. apply Ret_inj in H as (_ & <- & <-).
  split; [reflexivity | exact C].
Qed.

Lemma keeps_bind_Lock_new {B} strict (h h1 h' : list mutex) (m : mutex)
  (b : bool)
  (k : Lock -> M B) :
  (if b then discipline strict h [Acquire m] else Some h) = Some h1 ->
  keeps strict h1 (k (mkLock m b)) h' ->
  keeps strict h (bind (Lock_new m b) k) h'.
Proof.
  intros D Hk s a l s' H C. rewrite bind_Lock_new in H.
  apply log_then_Ret_inv in H as (l2 & H & ->).
  destruct (Hk _ _ _ _ H C) as (D2 & C2). split; [|exact C2].
  rewrite discipline_app. destruct b; [rewrite D | injection D as ->]; exact D2.
Qed.

Lemma keeps_bind_Lock_release {B} strict (h h1 h' : list mutex) (m : mutex)
  (b : bool)
  (k : Lock -> M B) :
  (if b then discipline strict h [Release m] else Some h) = Some h1 ->
  keeps strict h1 (k (mkLock m false)) h' ->
  keeps strict h (bind (Lock_release (mkLock m b)) k) h'.
Proof.
  intros D Hk s a l s' H C. rewrite bind_Lock_release in H.
  apply log_then_Ret_inv in H as (l2 & H & ->).
  destruct (Hk _ _ _ _ H C) as (D2 & C2). split; [|exact C2].
  rewrite discipline_app. destruct b; [rewrite D | injection D as ->]; exact D2.
Qed.

Lemma keeps_bind_Lock_delete {B} strict (h h1 h' : list mutex) (m : mutex)
  (b : bool)
  (k : unit -> M B) :
  (if b then discipline strict h [Release m] else Some h) = Some h1 ->
  keeps strict h1 (k tt) h' ->
  keeps strict h (bind (Lock_delete (mkLock m b)) k) h'.
Proof.
  intros D Hk s a l s' H C. rewrite bind_Lock_delete in H.
  apply log_then_Ret_inv in H as (l2 & H & ->).
  destruct (Hk _ _ _ _ H C) as (D2 & C2). split; [|exact C2].
  rewrite discipline_app. destruct b; [rewrite D | injection D as ->]; exact D2.
Qed.

Lemma keeps_Lock_delete strict (h h1 : list mutex) (m : mutex) (b : bool) :
  (if b then discipline strict h [Release m] else Some h) = Some h1 ->
  keeps strict h (Lock_delete (mkLock m b)) h1.
Proof.
  intros D s a l s' H C.
  assert (E : Lock_delete (mkLock m b) s
              = Ret tt (if b then [Release m] else []) s).
  { unfold Lock_delete, Lock_release.
    destruct b; cbn [holding negb]; [|reflexivity].
    rewrite bind_assoc, bind_emit, !bind_ret. reflexivity. }
  rewrite E in H. apply Ret_inj in H as (_ & <- & <-).
  split; [|exact C]. destruct b; [exact D | injection D as ->; reflexivity].
Qed.

(** A block under [Lock lock(mutex, consumerThreadExists)] whose body is one
    output. *)
Lemma keeps_locked_emit strict h m e :
  (forall b, (strict = true -> b = true) ->
             discipline strict h (guarded b m [e]) = Some h) ->
  keeps strict h (locked m (emit e)) h.
Proof.
  intros D s a l s' H C. rewrite locked_emit in H.
  apply Ret_inj in H as (_ & <- & <-).
  split; [apply D; exact C | exact C].
Qed.

Lemma keeps_zoom_send strict payload priority :
  keeps strict []
    (zoom mq_send_script set_mq_send_script (mq_send_retry payload priority)) [].
Proof.
  intros s a l s' H C. unfold zoom in H.
  pose proof (mq_send_retry_sends payload priority (mq_send_script (env s))) as L.
  destruct (mq_send_retry _ _ _); try discriminate H.
  apply Ret_inj in H as (_ & <- & <-).
  split; [eapply discipline_sends; exact L | exact C].
Qed.

Lemma keeps_zoom_write strict h region outputSize written :
  negb strict || holds h stdoutMutex = true ->
  keeps strict h
    (zoom write_script set_write_script (write_loop region outputSize written))
    h.
Proof.
  intros Hh s a l s' H C. unfold zoom in H.
  pose proof (write_loop_offers_region region outputSize
                (write_script (env s)) written) as L.
  destruct (write_loop _ _ _ _); try discriminate H.
  apply Ret_inj in H as (_ & <- & <-).
  split; [eapply discipline_writes; eauto | exact C].
Qed.

Ltac keeps_shared :=
  apply keeps_get_shared;
  let sh := fresh "sh" in
  let C := fresh "C" in
  intros sh C;
  first [ specialize (C eq_refl); rewrite ?C
        | clear C; destruct (consumerThreadExists sh) ].

Ltac keeps_guarded :=
  let b := fresh "b" in
  let Hb := fresh "Hb" in
  intros b Hb;
  first [ specialize (Hb eq_refl); subst b | clear Hb; destruct b ];
  reflexivity.

Ltac keeps_step :=
  match goal with
  | |- keeps _ _ (bind get_shared _) _ => keeps_shared
  | |- keeps _ _ (bind (Lock_new _ _) _) _ =>
      eapply keeps_bind_Lock_new; [reflexivity|]
  | |- keeps _ _ (bind (Lock_release (mkLock _ _)) _) _ =>
      eapply keeps_bind_Lock_release; [reflexivity|]
  | |- keeps _ _ (bind (Lock_delete (mkLock _ _)) _) _ =>
      eapply keeps_bind_Lock_delete; [reflexivity|]
  | |- keeps _ _ (Lock_delete (mkLock _ _)) _ =>
      apply keeps_Lock_delete; reflexivity
  | |- keeps _ _ (locked _ (emit _)) _ =>
      apply keeps_locked_emit; keeps_guarded
  | |- keeps _ _ (bind _ _) _ => eapply keeps_bind; [|intros]
  | |- keeps _ _ (ret _) _ => apply keeps_ret
  | |- keeps _ _ crash _ => apply keeps_crash
  | |- keeps _ _ (emit _) _ => apply keeps_emit; reflexivity
  | |- keeps _ _ (set_chunk _) _ =>
      apply keeps_silent; intros; eexists; eexists; split; reflexivity
  | |- keeps _ _ get_env _ =>
      apply keeps_silent; intros; eexists; eexists; split; reflexivity
  | |- keeps _ _ get_chunk _ =>
      apply keeps_silent; intros; eexists; eexists; split; reflexivity
  | |- keeps _ _ cin_fail _ =>
      apply keeps_silent; intros; eexists; eexists; split; reflexivity
  | |- keeps _ _ (modify_shared (set_stopped true)) _ =>
      apply keeps_set_stopped
  | |- keeps _ _ (ask _ _) _ => apply keeps_ask
  | |- keeps _ _ (input _) _ => apply keeps_input
  | |- keeps _ _ (zoom mq_send_script _ _) _ => apply keeps_zoom_send
  | |- keeps _ _ (zoom write_script _ _) _ =>
      apply keeps_zoom_write; reflexivity
  | |- keeps _ _ (if ?b then _ else _) _ => destruct b
  | |- keeps _ _ (match ?x with _ => _ end) _ => destruct x
  end.

Ltac keeps_tac :=
  repeat first
    [ keeps_step
    | progress unfold cerr, cout, debug_line, when, assert, mq_getattr,
        mq_receive, snprintf, store_chunk ].

Lemma keeps_sendHandler strict : keeps strict [] sendHandler [].
Proof. destruct strict; unfold sendHandler; keeps_tac. Qed.

Lemma keeps_doReceive strict : keeps strict [] doReceive [].
Proof. destruct strict; unfold doReceive; cbv zeta; keeps_tac. Qed.

Lemma keeps_msgsizeHandler strict : keeps strict [] msgsizeHandler [].
Proof. destruct strict; unfold msgsizeHandler; keeps_tac. Qed.

Lemma keeps_maxmsgHandler strict : keeps strict [] maxmsgHandler [].
Proof. destruct strict; unfold maxmsgHandler; keeps_tac. Qed.

Lemma keeps_closeHandler strict : keeps strict [] closeHandler [].
Proof. destruct strict; unfold closeHandler; keeps_tac. Qed.

Lemma keeps_countHandler : keeps false [] countHandler [].
Proof. unfold countHandler; keeps_tac. Qed.

Lemma keeps_receiveHandler_loop strict fuel :
  keeps strict [] (receiveHandler_loop fuel) [].
Proof.
  induction fuel as [|f IH]; [intros s a l s' H; discriminate H|].
  cbn [receiveHandler_loop].
  eapply keeps_bind; [apply keeps_doReceive|]. intros rc.
  destruct (negb (rc =? FAIL_INTERRUPTED_OR_CLOSED));
    [apply keeps_ret | exact IH].
Qed.

Lemma keeps_receiveHandler strict : keeps strict [] receiveHandler [].
Proof.
  intros s a l s' H. unfold receiveHandler in H.
  exact (keeps_receiveHandler_loop strict _ s a l s' H).
Qed.

Lemma keeps_consumeHandler : keeps false [] consumeHandler [].
Proof.
  intros s a l s' H _. split; [|intros X; discriminate X].
  rewrite consumeHandler_eq in H.
  destruct (pthread_create_script (env s)) as [|[[rc error] thread] rest];
    [discriminate H|].
  cbv zeta in H.
  destruct (rc =? 0); apply Ret_inj in H as (_ & <- & _); reflexivity.
Qed.

Lemma keeps_dispatch fuel : keeps false [] (dispatch fuel) [].
Proof.
  induction fuel as [|f IH]; [intros s a l s' H; discriminate H|].
  cbn [dispatch]. unfold HANDLE_COMMAND.
  repeat first
    [ exact IH
    | apply keeps_sendHandler | apply keeps_receiveHandler
    | apply keeps_consumeHandler | apply keeps_countHandler
    | apply keeps_msgsizeHandler | apply keeps_maxmsgHandler
    | keeps_step
    | progress unfold cerr ].
Qed.

Lemma keeps_consume_loop strict fuel :
  keeps strict [] (consume_loop fuel) [].
Proof.
  induction fuel as [|f IH]; [intros s a l s' H; discriminate H|].
  cbn [consume_loop].
  eapply keeps_bind; [apply keeps_doReceive|]. intros rc.
  destruct strict;
    repeat first
      [ exact IH
      | keeps_step
      | progress cbv beta
      | progress unfold cerr, when ].
Qed.

Lemma keeps_consume strict : keeps strict [] consume [].
Proof.
  unfold consume. eapply keeps_bind.
  - apply keeps_silent. intros s. eexists; eexists. split; reflexivity.
  - intros _ s a l s' H. exact (keeps_consume_loop strict _ s a l s' H).
Qed.

(** X11: the thread that runs [serve] keeps the lock discipline through a
    whole session: it never acquires a mutex it holds, it takes
    [stderrMutex] over no mutex but [stoppedMutex] and the two others over
    none, it releases only what it holds, it calls [mq_send], [mq_receive]
    and [pthread_join] holding no mutex, and it holds none when [serve]
    returns. *)
Theorem serve_lock_discipline mq o w code log w' :
  serve mq o w = Ret code log w' -> discipline false [] log = Some [].
Proof.
  intros H.
  apply serve_inv in H
    as (rc & error & attributes & rest & _ &
        [(_ & _ & ->) | (-> & dbg & s0 & lloop & cr & s1 & lclose & cl & s2 &
                         Fd & Hloop & Hclose & -> & _)]);
    [reflexivity|].
  assert (Dd : discipline false [] dbg = Some []).
  { clear -Fd. induction Fd as [|e l He _ IH]; [reflexivity|].
    destruct e; try discriminate He. exact IH. }
  destruct (keeps_dispatch _ _ _ _ _ Hloop) as (Dl & _);
    [intros X; discriminate X|].
  destruct (keeps_closeHandler false _ _ _ _ Hclose) as (Dc & _);
    [intros X; discriminate X|].
  cbn [discipline]. cbv zeta iota.
  rewrite discipline_app, Dd, discipline_app, Dl, discipline_app, Dc.
  destruct (consumerThreadExists (shared s2)); reflexivity.
Qed.

Lemma serve_lock_discipline_witness :
  discipline false []
    [MqGetattr 0; Sigaction; PthreadCreate 0 7;
     HandlerResult (bytes "consume") 0; Acquire stoppedMutex; SetStopped;
     MqClose 0; PthreadKill 7; Release stoppedMutex; PthreadJoin 7]
  = Some [].
Proof.
  refine (serve_lock_discipline 3 sample_options
            (sample_world "consume close" calm) 0 _
            (mkWorld (IStream.mk [] true false)
               (set_pthread_create_script [(0, 0, 8)]
                  (set_mq_close_script []
                     (set_mq_getattr_script [(0, 0, sample_attr)] calm)))) _).
  vm_compute. reflexivity.
Defined.

(** X12: the consumer thread keeps the lock discipline and writes under
    the locks: every [write] to standard output happens while it holds
    [stdoutMutex] and every diagnostic while it holds [stderrMutex]; it
    calls [mq_receive] holding no mutex, and it holds none when it
    returns. *)
Theorem consume_lock_discipline s result log s' :
  consumerThreadExists (shared s) = true ->
  consume s = Ret result log s' ->
  discipline true [] log = Some [].
Proof.
  intros C H.
  destruct (keeps_consume true _ _ _ _ H) as (D & _); [intros _; exact C|].
  exact D.
Qed.

Lemma consume_lock_discipline_witness :
  discipline true []
    [MqReceive 8 5; Acquire stdoutMutex;
     SysWrite (bytes "2 5 hello" ++ [NL]) 10; Release stdoutMutex;
     MqReceive 8 (-1); Acquire stoppedMutex; Release stoppedMutex]
  = Some [].
Proof.
  refine (consume_lock_discipline (consumer_state true closing) null _ _
            eq_refl _).
  vm_compute. reflexivity.
Defined.

(** X13: while a consumer thread exists, the handlers of [send], [receive],
    [msgsize], [maxmsg] and [close] write to standard output only holding
    [stdoutMutex] and to the diagnostics only holding [stderrMutex], on
    every path, and return holding no mutex. *)
Theorem handlers_write_under_locks (h : M Z) s rc log s' :
  h = sendHandler \/ h = receiveHandler \/ h = msgsizeHandler \/
  h = maxmsgHandler \/ h = closeHandler ->
  consumerThreadExists (shared s) = true ->
  h s = Ret rc log s' ->
  discipline true [] log = Some [].
Proof.
  intros Hh C H.
  assert (K : keeps true [] h []).
  { destruct Hh as [->|[->|[->|[->| ->]]]];
      [apply keeps_sendHandler | apply keeps_receiveHandler
      | apply keeps_msgsizeHandler | apply keeps_maxmsgHandler
      | apply keeps_closeHandler]. }
  destruct (K _ _ _ _ H) as (D & _); [intros _; exact C|]. exact D.
Qed.

Lemma handlers_write_under_locks_witness :
  discipline true []
    [MqGetattr 0; Acquire stdoutMutex; Cout (bytes "msgsize 8" ++ [NL]);
     Release stdoutMutex]
  = Some [].
Proof.
  refine (handlers_write_under_locks msgsizeHandler
            (foreground_state "msgsize" calm) 0 _ _
            (or_intror (or_intror (or_introl eq_refl))) eq_refl _).
  vm_compute. reflexivity.
Defined.

(** X14: [countHandler] is the exception: when the query of the attributes
    fails it writes its diagnostic holding no mutex, whether a consumer
    thread exists or not. *)
Theorem countHandler_diagnostic_unlocked s rc error attributes rest :
  mq_getattr_script (env s) = (rc, error, attributes) :: rest ->
  rc <> 0 ->
  exists log s',
    countHandler s = Ret rc log s' /\
    count is_Cerr log = 1%nat /\
    discipline true [] log = None /\
    discipline false [] log = Some [].
Proof.
  intros Hs Hrc. rewrite countHandler_eq, Hs.
  replace (rc =? 0) with false by (symmetry; apply Z.eqb_neq; exact Hrc).
  eexists; eexists. split; [reflexivity|]. repeat split.
Qed.

Lemma countHandler_diagnostic_unlocked_witness :
  exists log s',
    countHandler (foreground_state "count" no_attributes) = Ret (-1) log s' /\
    count is_Cerr log = 1%nat /\
    discipline true [] log = None /\
    discipline false [] log = Some [].
Proof.
  refine (countHandler_diagnostic_unlocked
            (foreground_state "count" no_attributes) (-1) EBADF sample_attr []
            eq_refl _).
  intros X. discriminate X.
Defined.

(* ------------------------------------------------------------------ *)
(** * What a computation leaves as it is *)
(* ------------------------------------------------------------------ *)

Lemma preserves_same {A T} (f : St -> T) (m : M A) :
  (forall s, exists a l, m s = Ret a l s) -> preserves f m.
Proof.
  intros Hm s a l s' H. destruct (Hm s) as (a0 & l0 & E).
  rewrite E in H. apply Ret_inj in H as (_ & _ & <-). reflexivity.
Qed.

Lemma preserves_crash {A T} (f : St -> T) : preserves f (@crash A).
Proof. intros s a l s' H. discriminate H. Qed.

Lemma preserves_bind {A B T} (f : St -> T) (m : M A) (k : A -> M B) :
  preserves f m -> (forall a, preserves f (k a)) -> preserves f (bind m k).
Proof.
  intros Hm Hk s b l s' H.
  apply bind_Ret_inv in H as (a & l1 & s1 & l2 & H1 & H2 & _).
  rewrite (Hk a _ _ _ _ H2). exact (Hm _ _ _ _ H1).
Qed.

Lemma preserves_set_chunk {T} (f : St -> T) c :
  (forall s, f (mkSt (shared s) c (cin s) (env s)) = f s) ->
  preserves f (set_chunk c).
Proof.
  intros Hf s a l s' H. apply Ret_inj in H as (_ & _ & <-). apply Hf.
Qed.

Lemma preserves_input {A T} (f : St -> T) (g : IStream.t -> A * IStream.t) :
  (forall s c, f (mkSt (shared s) (chunk s) c (env s)) = f s) ->
  preserves f (input g).
Proof.
  intros Hf s a l s' H. unfold input in H. destruct (g (cin s)).
  apply Ret_inj in H as (_ & _ & <-). apply Hf.
Qed.

Lemma preserves_ask {A T} (f : St -> T) script rest :
  (forall s r, f (mkSt (shared s) (chunk s) (cin s) (rest r (env s))) = f s) ->
  preserves f (@ask A script rest).
Proof.
  intros Hf s a l s' H. unfold ask in H.
  destruct (script (env s)); [discriminate H|].
  apply Ret_inj in H as (_ & _ & <-). apply Hf.
Qed.

Lemma preserves_zoom {A U T} (f : St -> T) script rest
  (g : list U -> outcome A (list U)) :
  (forall s r, f (mkSt (shared s) (chunk s) (cin s) (rest r (env s))) = f s) ->
  preserves f (zoom script rest g).
Proof.
  intros Hf s a l s' H. unfold zoom in H.
  destruct (g (script (env s))); try discriminate H.
  apply Ret_inj in H as (_ & _ & <-). apply Hf.
Qed.

Ltac preserves_step :=
  match goal with
  | |- preserves _ (bind _ _) => apply preserves_bind; [|intros]
  | |- preserves _ (ret _) =>
      apply preserves_same; intros; eexists; eexists; reflexivity
  | |- preserves _ (emit _) =>
      apply preserves_same; intros; eexists; eexists; reflexivity
  | |- preserves _ get_shared =>
      apply preserves_same; intros; eexists; eexists; reflexivity
  | |- preserves _ get_env =>
      apply preserves_same; intros; eexists; eexists; reflexivity
  | |- preserves _ get_chunk =>
      apply preserves_same; intros; eexists; eexists; reflexivity
  | |- preserves _ cin_fail =>
      apply preserves_same; intros; eexists; eexists; reflexivity
  | |- preserves _ crash => apply preserves_crash
  | |- preserves _ (set_chunk _) =>
      apply preserves_set_chunk; intros; reflexivity
  | |- preserves _ (input _) => apply preserves_input; intros; reflexivity
  | |- preserves _ (ask _ _) => apply preserves_ask; intros; reflexivity
  | |- preserves _ (zoom _ _ _) => apply preserves_zoom; intros; reflexivity
  | |- preserves _ (if ?b then _ else _) => destruct b
  | |- preserves _ (match ?x with _ => _ end) => destruct x
  end.

Ltac preserves_tac :=
  repeat first
    [ progress unfold locked, cerr, cout, debug_line, when, assert,
        mq_getattr, mq_receive, snprintf, store_chunk, Lock_new, Lock_delete,
        Lock_acquire, Lock_release
    | preserves_step ].

(** [doReceive] leaves [shared] as it is. *)
Lemma doReceive_shared : preserves shared doReceive.
Proof. unfold doReceive. cbv zeta. preserves_tac. Qed.

(** Unless the buffer cannot be allocated, [doReceive] takes one answer of
    [mq_receive]. *)
Lemma doReceive_takes_one s rc l s' :
  doReceive s = Ret rc l s' ->
  rc <> FAIL_ALLOC ->
  exists r, mq_receive_script (env s) = r :: mq_receive_script (env s').
Proof.
  unfold doReceive. cbv zeta. intros H Hrc.
  rewrite bind_get_shared, bind_get_env, bind_get_chunk, bind_assert in H.
  destruct (0 <=? _); [|discriminate H].
  destruct (memory _ <? _).
  { unfold cerr in H. rewrite bind_locked_emit in H.
    apply log_then_Ret_inv in H as (l2 & H & _).
    apply Ret_inj in H as (E & _). contradiction Hrc. symmetry. exact E. }
  rewrite bind_set_chunk, bind_assert in H.
  destruct (negb _); [|discriminate H].
  rewrite bind_assert in H.
  destruct (numbersMaxSize <=? _); [|discriminate H].
  rewrite bind_debug_line in H.
  apply log_then_Ret_inv in H as (l2 & H & _).
  unfold mq_receive in H. rewrite bind_assoc, bind_ask in H. cbn [env] in H.
  destruct (mq_receive_script (env s)) as [|r rest]; [discriminate H|].
  exists r. f_equal. revert H.
  match goal with
  | |- ?k ?st = _ -> _ =>
      assert (P : preserves (fun s => mq_receive_script (env s)) k)
  end.
  { preserves_tac. }
  intros H. apply P in H. cbn [env mq_receive_script set_mq_receive_script] in H.
  symmetry. exact H.
Qed.

(* ------------------------------------------------------------------ *)
(** * The consumer thread *)
(* ------------------------------------------------------------------ *)

Lemma reports_ret rc :
  rc = 0 \/ rc = FAIL_INTERRUPTED_OR_CLOSED -> reports (ret rc).
Proof.
  intros Hrc s rc' l s' H. apply Ret_inj in H as (<- & _ & _). tauto.
Qed.

Lemma reports_crash : reports crash.
Proof. intros s rc l s' H. discriminate H. Qed.

Lemma reports_bind {A} (m : M A) (k : A -> M Z) :
  (forall a, reports (k a)) -> reports (bind m k).
Proof.
  intros Hk s rc l s' H.
  apply bind_Ret_inv in H as (a & l1 & s1 & l2 & _ & H2 & ->).
  destruct (Hk a _ _ _ _ H2) as [E|[E|(before & b & text & ->)]]; auto.
  right. right. exists (l1 ++ before), b, text. apply app_assoc.
Qed.

Lemma reports_bind_Lock_new m b (k : Lock -> M Z) :
  reports (k (mkLock m b)) -> reports (bind (Lock_new m b) k).
Proof.
  intros Hk s rc l s' H. rewrite bind_Lock_new in H.
  apply log_then_Ret_inv in H as (l2 & H & ->).
  destruct (Hk _ _ _ _ H) as [E|[E|(before & b' & text & ->)]]; auto.
  right. right. eexists; exists b', text. apply app_assoc.
Qed.

Lemma reports_bind_Lock_release m b (k : Lock -> M Z) :
  reports (k (mkLock m false)) ->
  reports (bind (Lock_release (mkLock m b)) k).
Proof.
  intros Hk s rc l s' H. rewrite bind_Lock_release in H.
  apply log_then_Ret_inv in H as (l2 & H & ->).
  destruct (Hk _ _ _ _ H) as [E|[E|(before & b' & text & ->)]]; auto.
  right. right. eexists; exists b', text. apply app_assoc.
Qed.

(** A failure is returned right after its diagnostic. *)
Lemma reports_failure text (k : unit -> M Z) :
  (forall s, exists rc, k tt s = Ret rc [] s) ->
  reports (bind (locked stderrMutex
                   (emit (Cerr (bytes "Failed to " ++ text)))) k).
Proof.
  intros Hk s rc l s' H. rewrite bind_locked_emit in H.
  destruct (Hk s) as (rc' & E). rewrite E in H.
  apply Ret_inj in H as (_ & <- & _).
  right. right. exists [], (consumerThreadExists (shared s)), text.
  rewrite app_nil_r. reflexivity.
Qed.

Lemma reports_doReceive : reports doReceive.
Proof.
  unfold doReceive. cbv zeta. unfold cerr.
  repeat match goal with
  | |- reports (bind (locked stderrMutex (emit (Cerr (line ?pieces)))) _) =>
      let t := eval cbv [line concat app bytes list_ascii_of_string] in
                 (line pieces) in
      match t with
      | "F"%char :: "a"%char :: "i"%char :: "l"%char :: "e"%char
        :: "d"%char :: " "%char :: "t"%char :: "o"%char :: " "%char :: ?text =>
          change (line pieces) with (bytes "Failed to " ++ text);
          apply reports_failure; intros; eexists;
          rewrite ?bind_Lock_delete; reflexivity
      end
  | |- reports (bind (Lock_new _ _) _) => apply reports_bind_Lock_new
  | |- reports (bind (Lock_release (mkLock _ _)) _) =>
      apply reports_bind_Lock_release
  | |- reports (bind _ _) => apply reports_bind; intros
  | |- reports (ret _) => apply reports_ret; auto
  | |- reports crash => apply reports_crash
  | |- reports (if ?b then _ else _) => destruct b
  | |- reports (match ?x with _ => _ end) => destruct x
  end.
Qed.

Lemma consume_loop_step f s :
  consume_loop (S f) s =
  match doReceive s with
  | Ret rc l s1 =>
      if rc =? FAIL_INTERRUPTED_OR_CLOSED then
        if stopped (shared s1) then
          Ret null
              (l ++ Acquire stoppedMutex
                 :: (if debug (options (shared s1))
                     then [Acquire stderrMutex;
                           Cerr (line [bytes "Consumer thread is finishing."]);
                           Release stderrMutex]
                     else [])
                 ++ [Release stoppedMutex])
              s1
        else
          log_then (l ++ [Acquire stoppedMutex; Release stoppedMutex])
                   (consume_loop f s1)
      else if negb (rc =? 0) then Ret data l s1
      else log_then l (consume_loop f s1)
  | Blocked l => Blocked l
  | Crash l => Crash l
  | OutOfFuel => OutOfFuel
  end.
Proof.
  cbn [consume_loop]. unfold bind at 1.
  destruct (doReceive s) as [rc l s1| | |]; try reflexivity.
  destruct (rc =? FAIL_INTERRUPTED_OR_CLOSED).
  - rewrite bind_Lock_new, bind_get_shared.
    destruct (stopped (shared s1)).
    + unfold when. destruct (debug (options (shared s1))).
      * rewrite bind_assoc, bind_Lock_new. unfold cerr.
        rewrite bind_assoc, bind_emit.
        change (Lock_delete (mkLock stderrMutex true))
          with (bind (Lock_delete (mkLock stderrMutex true)) ret) at 1.
        rewrite bind_assoc, bind_Lock_delete, !bind_ret, bind_Lock_delete.
        unfold ret. cbn [log_then app]. reflexivity.
      * rewrite bind_ret, bind_Lock_delete. unfold ret. cbn [log_then app].
        rewrite ?app_nil_r. reflexivity.
    + rewrite bind_Lock_delete. rewrite !log_then_app, <- app_assoc.
      reflexivity.
  - destruct (negb (rc =? 0)); [|reflexivity].
    unfold ret. cbn [log_then]. rewrite app_nil_r. reflexivity.
Qed.

(** The loop stops for want of answers before it stops for want of fuel:
    one turn more than there are answers of [mq_receive] is enough. *)
Lemma consume_loop_fueled fuel : forall s,
  (length (mq_receive_script (env s)) < fuel)%nat ->
  consume_loop fuel s <> OutOfFuel.
Proof.
  induction fuel as [|f IH]; intros s Hf; [lia|].
  rewrite consume_loop_step.
  pose proof (fueled_doReceive s) as F.
  destruct (doReceive s) as [rc l s1| | |] eqn:D;
    [| intros X; discriminate X | intros X; discriminate X
     | exfalso; apply F; reflexivity].
  clear F.
  assert (Next : forall r l',
    mq_receive_script (env s) = r :: mq_receive_script (env s1) ->
    log_then l' (consume_loop f s1) <> OutOfFuel).
  { intros r l' E. apply log_then_fueled, IH.
    rewrite E in Hf. cbn [length] in Hf. lia. }
  destruct (rc =? FAIL_INTERRUPTED_OR_CLOSED) eqn:E.
  - apply Z.eqb_eq in E. subst rc.
    destruct (stopped (shared s1)); [intros X; discriminate X|].
    apply doReceive_retryable in D as (e & D & _). eapply Next, D.
  - destruct (rc =? 0) eqn:E0; cbn [negb]; [|intros X; discriminate X].
    apply Z.eqb_eq in E0. subst rc.
    apply doReceive_takes_one in D as (r & D); [|discriminate].
    eapply Next, D.
Qed.

Lemma consume_loop_ends fuel : forall s result log s',
  consume_loop fuel s = Ret result log s' ->
  shared s' = shared s /\
  match result with
  | null =>
      stopped (shared s) = true /\
      exists taken e,
        mq_receive_script (env s)
        = taken ++ ReceiveError e :: mq_receive_script (env s') /\
        (e = EINTR \/ e = EBADF)
  | data =>
      exists before b text,
        log = before
              ++ guarded b stderrMutex [Cerr (bytes "Failed to " ++ text)]
  end.
Proof.
  induction fuel as [|f IH]; intros s result log s' H; [discriminate H|].
  rewrite consume_loop_step in H.
  destruct (doReceive s) as [rc l s1| | |] eqn:D; try discriminate H.
  pose proof (doReceive_shared _ _ _ _ D) as Sh.
  assert (Next : forall r l',
    mq_receive_script (env s) = r :: mq_receive_script (env s1) ->
    log_then l' (consume_loop f s1) = Ret result log s' ->
    shared s' = shared s /\
    match result with
    | null =>
        stopped (shared s1) = true /\
        exists taken e,
          mq_receive_script (env s)
          = taken ++ ReceiveError e :: mq_receive_script (env s') /\
          (e = EINTR \/ e = EBADF)
    | data =>
        exists before b text,
          log = before
                ++ guarded b stderrMutex [Cerr (bytes "Failed to " ++ text)]
    end).
  { intros r l' E H'. apply log_then_Ret_inv in H' as (l2 & H' & ->).
    apply IH in H' as (Sh' & R). split; [congruence|].
    destruct result.
    - destruct R as (St & taken & e & T & He). split; [exact St|].
      exists (r :: taken), e. split; [|exact He].
      rewrite E, T. reflexivity.
    - destruct R as (before & b & text & ->).
      exists (l' ++ before), b, text. apply app_assoc. }
  destruct (rc =? FAIL_INTERRUPTED_OR_CLOSED) eqn:E.
  - apply Z.eqb_eq in E. subst rc.
    pose proof D as D'. apply doReceive_retryable in D' as (e & D' & He).
    destruct (stopped (shared s1)) eqn:St.
    + apply Ret_inj in H as (<- & _ & <-). split; [exact Sh|].
      split; [rewrite <- Sh; exact St|].
      exists [], e. split; [exact D' | exact He].
    + apply (Next _ _ D') in H as (Sh' & R). split; [exact Sh'|].
      destruct result; [|exact R]. destruct R as (St' & _). congruence.
  - destruct (rc =? 0) eqn:E0; cbn [negb] in H.
    + apply Z.eqb_eq in E0. subst rc.
      pose proof D as D'.
      apply doReceive_takes_one in D' as (r & D'); [|discriminate].
      apply (Next _ _ D') in H as (Sh' & R). split; [exact Sh'|].
      destruct result; [|exact R]. rewrite <- Sh. exact R.
    + apply Ret_inj in H as (<- & <- & <-). split; [exact Sh|].
      apply reports_doReceive in D as [D|[D|D]].
      * apply Z.eqb_neq in E0. contradiction.
      * apply Z.eqb_neq in E. contradiction.
      * exact D.
Qed.

(** X15: how the consumer thread ends.  It returns the null pointer only
    when the shutdown flag is set, after a dequeue that was interrupted or
    found the handle invalid; it returns [data] only right after the
    diagnostic of a failure of [doReceive]; dequeued messages, and
    interruptions while the flag is clear, do not end it.  It never changes
    [shared]. *)
Theorem consume_ends s result log s' :
  consume s = Ret result log s' ->
  shared s' = shared s /\
  match result with
  | null =>
      stopped (shared s) = true /\
      exists taken e,
        mq_receive_script (env s)
        = taken ++ ReceiveError e :: mq_receive_script (env s') /\
        (e = EINTR \/ e = EBADF)
  | data =>
      exists before b text,
        log = before
              ++ guarded b stderrMutex [Cerr (bytes "Failed to " ++ text)]
  end.
Proof.
  unfold consume. rewrite bind_set_chunk.
  intros H. apply consume_loop_ends in H. exact H.
Qed.

Lemma consume_ends_witness :
  exists log s',
    consume (consumer_state true closing) = Ret null log s' /\
    shared s' = shared (consumer_state true closing) /\
    stopped (shared (consumer_state true closing)) = true /\
    exists taken e,
      mq_receive_script (env (consumer_state true closing))
      = taken ++ ReceiveError e :: mq_receive_script (env s') /\
      (e = EINTR \/ e = EBADF).
Proof.
  assert (E : exists log s',
            consume (consumer_state true closing) = Ret null log s').
  { eexists; eexists. vm_compute. reflexivity. }
  destruct E as (log & s' & E). exists log, s'.
  split; [exact E|].
  exact (consume_ends (consumer_state true closing) null log s' E).
Defined.

(** A message that fits and is written at once. *)
Lemma doReceive_delivers s payload priority rest error ws :
  mq_receive_script (env s) = Message payload priority :: rest ->
  0 <= priority <= UINT_MAX ->
  len payload <= msgsize (shared s) < 10 ^ 18 ->
  numbersMaxSize + msgsize (shared s) + 1 <= memory (env s) ->
  write_script (env s) = (len (printed payload priority), error) :: ws ->
  exists log chunk',
    doReceive s
    = Ret 0 log
          (mkSt (shared s) chunk' (cin s)
                (set_write_script ws (set_mq_receive_script rest (env s)))) /\
    stdout_bytes log = printed payload priority.
Proof.
  intros Hs Hprio Hm Hmem Hw. unfold printed in *.
  set (region := decimal priority ++ [SP] ++ decimal (len payload) ++ [SP]
                 ++ payload ++ [NL]) in *.
  pose proof (len_nonneg payload) as Hp.
  destruct (doReceive_message s payload priority rest Hs) as (pre & Hpre & H);
    [lia | | exact Hmem |].
  { split; [lia|]. assert (10 ^ 18 < 2 ^ 64) by reflexivity. lia. }
  cbv zeta in H.
  destruct (prefix_fits priority (len payload)) as (_ & Fit).
  { exact Hprio. }
  { split; [lia|]. unfold SSIZE_MAX, ssize_t_digits.
    assert (10 ^ 18 < 2 ^ 63 - 1) by reflexivity. lia. }
  { left. lia. }
  cbv zeta in Fit.
  replace (numbersMaxSize <?
           sizeBase10 priority + 1 + sizeBase10 (len payload) + 1)
    with false in H by (symmetry; apply Z.ltb_ge; lia).
  destruct H as (chunk' & H). fold region in H.
  assert (Lr : 0 < len region).
  { subst region. rewrite !len_app. change (len [NL]) with 1.
    pose proof (len_nonneg (decimal priority)).
    pose proof (len_nonneg (decimal (len payload))).
    change (len [SP]) with 1. lia. }
  rewrite Hw in H.
  rewrite write_loop_first in H by lia.
  replace (len region =? -1) with false in H
    by (symmetry; apply Z.eqb_neq; lia).
  rewrite Z.eqb_refl in H.
  eexists; exists chunk'. split; [exact H|].
  assert (A : forall l1 l2, stdout_bytes l1 = [] ->
                            stdout_bytes (l1 ++ l2) = stdout_bytes l2).
  { clear. induction l1 as [|e l IH]; intros l2 H1; [reflexivity|].
    destruct e; cbn [app stdout_bytes] in *; auto;
      apply app_eq_nil in H1 as [-> H1]; cbn [app]; auto. }
  rewrite A by exact Hpre.
  rewrite A by (destruct (consumerThreadExists (shared s)); reflexivity).
  cbn [app stdout_bytes].
  replace (len region <? 0) with false by (symmetry; apply Z.ltb_ge; lia).
  unfold len. rewrite Nat2Z.id, firstn_all.
  destruct (consumerThreadExists (shared s)); cbn [app stdout_bytes];
    rewrite ?app_nil_r; reflexivity.
Qed.

Lemma stdout_bytes_app l1 l2 :
  stdout_bytes (l1 ++ l2) = stdout_bytes l1 ++ stdout_bytes l2.
Proof.
  induction l1 as [|e l IH]; [reflexivity|].
  destruct e; cbn [app stdout_bytes]; rewrite ?IH, ?app_assoc; reflexivity.
Qed.

Lemma consume_loop_delivers msgs : forall fuel s e rest ws,
  (length (mq_receive_script (env s)) < fuel)%nat ->
  mq_receive_script (env s)
  = map (fun m => Message (fst m) (snd m)) msgs ++ ReceiveError e :: rest ->
  e = EINTR \/ e = EBADF ->
  stopped (shared s) = true ->
  Forall (fun m => 0 <= snd m <= UINT_MAX /\
                   len (fst m) <= msgsize (shared s)) msgs ->
  0 <= msgsize (shared s) < 10 ^ 18 ->
  numbersMaxSize + msgsize (shared s) + 1 <= memory (env s) ->
  write_script (env s)
  = map (fun m => (len (printed (fst m) (snd m)), 0)) msgs ++ ws ->
  exists log s',
    consume_loop fuel s = Ret null log s' /\
    stdout_bytes log = concat (map (fun m => printed (fst m) (snd m)) msgs) /\
    mq_receive_script (env s') = rest /\
    write_script (env s') = ws.
Proof.
  induction msgs as [|[payload priority] msgs IH];
    intros fuel s e rest ws Hf Hs He Hstop Hmsgs Hsize Hmem Hw;
    (destruct fuel as [|f]; [lia|]); rewrite consume_loop_step;
    cbn [map app fst snd] in Hs, Hw.
  - rewrite (doReceive_dequeue_failed s e rest Hs) by lia. cbv zeta.
    replace ((e =? EINTR) || (e =? EBADF)) with true
      by (symmetry; apply orb_true_iff;
          destruct He as [-> | ->]; [left | right]; reflexivity).
    change (FAIL_INTERRUPTED_OR_CLOSED =? FAIL_INTERRUPTED_OR_CLOSED) with true.
    cbv iota. cbn [shared]. rewrite Hstop.
    eexists; eexists. split; [reflexivity|].
    cbn [env mq_receive_script set_mq_receive_script write_script].
    split; [|split; [reflexivity | exact Hw]].
    rewrite !stdout_bytes_app. unfold debug_log, guarded.
    destruct (debug (options (shared s))),
      (consumerThreadExists (shared s)); reflexivity.
  - inversion Hmsgs as [|? ? [Hprio Hlen] Hmsgs']; subst. cbn [fst snd] in *.
    destruct (doReceive_delivers s payload priority _ 0 _ Hs Hprio
                ltac:(lia) Hmem Hw)
      as (l & chunk' & D & Out).
    rewrite D. change (0 =? FAIL_INTERRUPTED_OR_CLOSED) with false.
    change (negb (0 =? 0)) with false. cbv iota.
    rewrite Hs in Hf. cbn [length] in Hf.
    edestruct (IH f (mkSt (shared s) chunk' (cin s)
                      (set_write_script
                         (map (fun m => (len (printed (fst m) (snd m)), 0)) msgs
                          ++ ws)
                         (set_mq_receive_script
                            (map (fun m => Message (fst m) (snd m)) msgs
                             ++ ReceiveError e :: rest) (env s))))
                 e rest ws)
      as (l2 & s2 & C & Out2 & R2 & W2);
      cbn [env shared mq_receive_script write_script memory
           set_write_script set_mq_receive_script]; auto; try lia.
    rewrite C. cbn [log_then]. eexists; eexists. split; [reflexivity|].
    rewrite stdout_bytes_app, Out, Out2. cbn [map concat fst snd].
    auto.
Qed.

(** X16: when the shutdown flag is set and the queue holds messages that
    fit, each written by one complete [write], the consumer thread prints
    every message in the order of arrival, as the priority, the size and
    the payload followed by a newline, and returns the null pointer at the
    first dequeue that is interrupted or finds the handle invalid. *)
Theorem consume_delivers s msgs e rest ws :
  mq_receive_script (env s)
  = map (fun m => Message (fst m) (snd m)) msgs ++ ReceiveError e :: rest ->
  e = EINTR \/ e = EBADF ->
  stopped (shared s) = true ->
  Forall (fun m => 0 <= snd m <= UINT_MAX /\
                   len (fst m) <= msgsize (shared s)) msgs ->
  0 <= msgsize (shared s) < 10 ^ 18 ->
  numbersMaxSize + msgsize (shared s) + 1 <= memory (env s) ->
  write_script (env s)
  = map (fun m => (len (printed (fst m) (snd m)), 0)) msgs ++ ws ->
  exists log s',
    consume s = Ret null log s' /\
    stdout_bytes log = concat (map (fun m => printed (fst m) (snd m)) msgs) /\
    mq_receive_script (env s') = rest /\
    write_script (env s') = ws.
Proof.
  intros Hs He Hstop Hmsgs Hsize Hmem Hw.
  unfold consume. rewrite bind_set_chunk.
  eapply consume_loop_delivers; cbn [env shared]; eauto.
Qed.

Lemma consume_delivers_witness :
  exists log s',
    consume (consumer_state true closing) = Ret null log s' /\
    stdout_bytes log = concat [printed (bytes "hello") 2] /\
    mq_receive_script (env s') = [] /\
    write_script (env s') = [].
Proof.
  refine (consume_delivers (consumer_state true closing)
            [(bytes "hello", 2)] EBADF [] [] eq_refl (or_intror eq_refl)
            eq_refl _ _ _ eq_refl).
  - repeat constructor; vm_compute; intros X; discriminate X.
  - vm_compute. split; [intros X; discriminate X | reflexivity].
  - vm_compute. intros X; discriminate X.
Defined.

(** X22: when the buffer for a message cannot be allocated, [doReceive]
    writes one diagnostic and returns [FAIL_ALLOC] before it calls
    [mq_receive]: nothing is dequeued and nothing is printed.  The
    [receive] command then fails with that code without a retry, and the
    consumer thread ends with [data]. *)
Theorem receive_without_memory s :
  0 <= numbersMaxSize + msgsize (shared s) + 1 ->
  memory (env s) < numbersMaxSize + msgsize (shared s) + 1 ->
  let diagnostic :=
    guarded (consumerThreadExists (shared s)) stderrMutex
      [Cerr (line [bytes "Failed to allocate memory for consuming messages."])]
  in
  doReceive s = Ret FAIL_ALLOC diagnostic s /\
  receiveHandler s = Ret FAIL_ALLOC diagnostic s /\
  consume s
  = Ret data diagnostic (mkSt (shared s) [] (cin s) (env s)).
Proof.
  intros Hsize Hmem. cbv zeta.
  assert (D : forall c,
    doReceive (mkSt (shared s) c (cin s) (env s))
    = Ret FAIL_ALLOC
        (guarded (consumerThreadExists (shared s)) stderrMutex
           [Cerr (line [bytes "Failed to allocate memory for consuming messages."])])
        (mkSt (shared s) c (cin s) (env s))).
  { intros c. unfold doReceive. cbv zeta.
    rewrite bind_get_shared, bind_get_env, bind_get_chunk, bind_assert.
    cbn [shared env chunk].
    replace (0 <=? numbersMaxSize + msgsize (shared s) + 1) with true
      by (symmetry; apply Z.leb_le; exact Hsize).
    replace (memory (env s) <? numbersMaxSize + msgsize (shared s) + 1)
      with true by (symmetry; apply Z.ltb_lt; exact Hmem).
    unfold cerr. rewrite bind_locked_emit. unfold ret. cbn [log_then shared].
    rewrite app_nil_r. reflexivity. }
  assert (Ds : doReceive s
    = Ret FAIL_ALLOC
        (guarded (consumerThreadExists (shared s)) stderrMutex
           [Cerr (line [bytes "Failed to allocate memory for consuming messages."])])
        s).
  { specialize (D (chunk s)). destruct s; exact D. }
  split; [exact Ds|]. split.
  - rewrite receiveHandler_unfold, Ds. reflexivity.
  - unfold consume. rewrite bind_set_chunk, consume_loop_step, D. reflexivity.
Qed.

Lemma receive_without_memory_witness :
  let s := sample_state no_input
             (mkEnv [] [Message (bytes "hello") 2] [] [] [] [] 38) in
  let diagnostic :=
    [Cerr (line [bytes "Failed to allocate memory for consuming messages."])]
  in
  doReceive s = Ret FAIL_ALLOC diagnostic s /\
  receiveHandler s = Ret FAIL_ALLOC diagnostic s /\
  consume s = Ret data diagnostic (mkSt (shared s) [] (cin s) (env s)).
Proof.
  cbv zeta.
  refine (receive_without_memory
            (sample_state no_input
               (mkEnv [] [Message (bytes "hello") 2] [] [] [] [] 38)) _ _);
    vm_compute; first [reflexivity | intros X; discriminate X].
Defined.

(* ------------------------------------------------------------------ *)
(** * What [receive] prints, and [send] reads it back *)
(* ------------------------------------------------------------------ *)

Lemma stdout_bytes_debug_log sh pieces : stdout_bytes (debug_log sh pieces) = [].
Proof.
  unfold debug_log, guarded.
  destruct (debug (options sh)), (consumerThreadExists sh); reflexivity.
Qed.

Lemma receiveHandler_delivers errors : forall s payload priority rest error ws,
  mq_receive_script (env s)
  = map ReceiveError errors ++ Message payload priority :: rest ->
  Forall (fun e => e = EINTR \/ e = EBADF) errors ->
  0 <= priority <= UINT_MAX ->
  len payload <= msgsize (shared s) < 10 ^ 18 ->
  numbersMaxSize + msgsize (shared s) + 1 <= memory (env s) ->
  write_script (env s) = (len (printed payload priority), error) :: ws ->
  exists log s',
    receiveHandler s = Ret 0 log s' /\
    stdout_bytes log = printed payload priority /\
    mq_receive_script (env s') = rest /\
    write_script (env s') = ws.
Proof.
  induction errors as [|e errors IH];
    intros s payload priority rest error ws Hs He Hprio Hm Hmem Hw;
    rewrite receiveHandler_unfold; cbn [map app] in Hs.
  - destruct (doReceive_delivers s payload priority rest error ws
                Hs Hprio Hm Hmem Hw) as (l & chunk' & D & Out).
    rewrite D. change (0 =? FAIL_INTERRUPTED_OR_CLOSED) with false. cbv iota.
    eexists; eexists. split; [reflexivity|]. split; [exact Out|].
    split; reflexivity.
  - pose proof (len_nonneg payload) as Hp.
    inversion He as [|? ? He1 He']; subst.
    rewrite (doReceive_dequeue_failed s e _ Hs) by lia. cbv zeta.
    replace ((e =? EINTR) || (e =? EBADF)) with true
      by (symmetry; apply orb_true_iff;
          destruct He1 as [-> | ->]; [left | right]; reflexivity).
    change (FAIL_INTERRUPTED_OR_CLOSED =? FAIL_INTERRUPTED_OR_CLOSED) with true.
    cbv iota.
    edestruct (IH (mkSt (shared s)
                     (resize (chunk s)
                        (numbersMaxSize + msgsize (shared s) + 1))
                     (cin s)
                     (set_mq_receive_script
                        (map ReceiveError errors
                         ++ Message payload priority :: rest) (env s)))
                 payload priority rest error ws)
      as (l2 & s2 & R & Out & Rs & Ws);
      cbn [env shared mq_receive_script write_script memory
           set_mq_receive_script]; auto.
    rewrite R. cbn [log_then]. eexists; eexists. split; [reflexivity|].
    split; [|split; assumption].
    rewrite !stdout_bytes_app, stdout_bytes_debug_log, Out. reflexivity.
Qed.

(** X17: the [receive] command goes through every dequeue that is
    interrupted or finds the handle invalid, and then prints the message
    that arrives, once, as the priority, the size and the payload followed
    by a newline, when the message fits and [write] takes it whole; it
    returns 0 and has taken these answers of [mq_receive] and no other. *)
Theorem receiveHandler_prints s errors payload priority rest error ws :
  mq_receive_script (env s)
  = map ReceiveError errors ++ Message payload priority :: rest ->
  Forall (fun e => e = EINTR \/ e = EBADF) errors ->
  0 <= priority <= UINT_MAX ->
  len payload <= msgsize (shared s) < 10 ^ 18 ->
  numbersMaxSize + msgsize (shared s) + 1 <= memory (env s) ->
  write_script (env s) = (len (printed payload priority), error) :: ws ->
  exists log s',
    receiveHandler s = Ret 0 log s' /\
    stdout_bytes log = printed payload priority /\
    mq_receive_script (env s') = rest /\
    write_script (env s') = ws.
Proof. apply receiveHandler_delivers. Qed.

Lemma receiveHandler_prints_witness :
  exists log s',
    receiveHandler (sample_state no_input interrupted_once) = Ret 0 log s' /\
    stdout_bytes log = printed (bytes "hello") 2 /\
    mq_receive_script (env s') = [] /\
    write_script (env s') = [].
Proof.
  refine (receiveHandler_prints (sample_state no_input interrupted_once)
            [EINTR] (bytes "hello") 2 [] 0 [] eq_refl _ _ _ _ eq_refl).
  - constructor; [left; reflexivity | constructor].
  - vm_compute. split; intros X; discriminate X.
  - vm_compute. split; [intros X; discriminate X | reflexivity].
  - vm_compute. intros X; discriminate X.
Defined.

Lemma read_int_skip_space signed lo hi l :
  IStream.read_int signed lo hi (IStream.mk (SP :: l) false false)
  = IStream.read_int signed lo hi (IStream.mk l false false).
Proof. reflexivity. Qed.

(** The text [doReceive] prints for a message is the tail of a well-formed
    [send] command for the same message. *)
Lemma send_request_printed memory payload priority rest :
  0 <= priority <= UINT_MAX ->
  len payload <= SSIZE_MAX ->
  len payload <= memory ->
  send_request memory (IStream.of_bytes (printed payload priority ++ rest))
  = WellFormed priority (len payload) payload
      (IStream.mk (NL :: rest) false false).
Proof.
  intros Hprio Hlen Hmem. pose proof (len_nonneg payload) as Hp.
  unfold send_request, printed, IStream.of_bytes,
    IStream.read_unsigned, IStream.read_ssize_t.
  rewrite <- !app_assoc.
  rewrite read_int_decimal; [| lia | reflexivity].
  cbn [app]. rewrite read_int_skip_space.
  rewrite read_int_decimal; [| lia | reflexivity].
  replace (len payload <? 0) with false by (symmetry; apply Z.ltb_ge; lia).
  destruct (len payload =? 0) eqn:E0.
  - apply Z.eqb_eq in E0. destruct payload; [|unfold len in E0; simpl in E0; lia].
    reflexivity.
  - replace (memory <? len payload) with false
      by (symmetry; apply Z.ltb_ge; lia).
    unfold IStream.ignore, IStream.sentry, IStream.good.
    cbn [IStream.eofbit IStream.failbit IStream.data negb andb].
    unfold IStream.read, IStream.sentry, IStream.good.
    cbn [IStream.eofbit IStream.failbit IStream.data negb andb].
    rewrite firstn_len_app by reflexivity.
    replace (len payload <? len payload) with false
      by (symmetry; apply Z.ltb_irrefl).
    unfold IStream.fail. cbn [IStream.failbit orb].
    rewrite Z.eqb_refl. cbn [negb].
    unfold len. rewrite Nat2Z.id, skipn_app, Nat.sub_diag, skipn_all.
    reflexivity.
Qed.

(** X18: the line that [doReceive] prints for a message is accepted by
    [send]: from an input that begins with it the handler enqueues, once,
    the same payload with the same priority, acknowledges its size, and
    leaves the input at the newline that ends the line. *)
Theorem send_reads_what_receive_prints s payload priority rest error script :
  cin s = IStream.of_bytes (printed payload priority ++ rest) ->
  0 <= priority <= UINT_MAX ->
  len payload <= SSIZE_MAX ->
  len payload <= memory (env s) ->
  mq_send_script (env s) = (0, error) :: script ->
  exists log s',
    sendHandler s = Ret 0 log s' /\
    filter is_MqSend log = [MqSend payload priority 0] /\
    stdout_bytes log = bytes "ack " ++ print_Z (len payload) ++ [NL] /\
    cin s' = IStream.mk (NL :: rest) false false.
Proof.
  intros Hc Hprio Hlen Hmem Hsend.
  pose proof (send_request_printed (memory (env s)) payload priority rest
                Hprio Hlen Hmem) as R.
  rewrite <- Hc in R.
  apply sendHandler_request in R as (chunk' & _ & R). rewrite R, Hsend.
  cbn [mq_send_retry]. change (0 =? -1) with false. cbv iota zeta.
  cbn [log_then app].
  eexists; eexists. split; [reflexivity|].
  split; [|split; [|reflexivity]];
    unfold guarded; destruct (consumerThreadExists (shared s));
    cbn [app filter is_MqSend stdout_bytes]; unfold line; cbn [concat];
    rewrite ?app_nil_r, <- ?app_assoc; reflexivity.
Qed.

Lemma send_reads_what_receive_prints_witness :
  let s := mkSt (Shared_new 3 8 sample_options) []
             (IStream.of_bytes (printed (bytes "hello") 2 ++ bytes "count"))
             calm in
  exists log s',
    sendHandler s = Ret 0 log s' /\
    filter is_MqSend log = [MqSend (bytes "hello") 2 0] /\
    stdout_bytes log = bytes "ack " ++ print_Z (len (bytes "hello")) ++ [NL] /\
    cin s' = IStream.mk (NL :: bytes "count") false false.
Proof.
  cbv zeta.
  refine (send_reads_what_receive_prints
            (mkSt (Shared_new 3 8 sample_options) []
               (IStream.of_bytes (printed (bytes "hello") 2 ++ bytes "count"))
               calm)
            (bytes "hello") 2 (bytes "count") 0 [] eq_refl _ _ _ eq_refl).
  - vm_compute. split; intros X; discriminate X.
  - vm_compute. intros X; discriminate X.
  - vm_compute. intros X; discriminate X.
Defined.

(* ------------------------------------------------------------------ *)
(** * The end of the consumer thread *)
(* ------------------------------------------------------------------ *)

Lemma thread_after_app l1 : forall b t l2,
  thread_after b t (l1 ++ l2)
  = thread_after (fst (thread_after b t l1)) (snd (thread_after b t l1)) l2.
Proof.
  induction l1 as [|e l1 IH]; intros b t l2; [reflexivity|].
  destruct e; cbn [app thread_after]; apply IH.
Qed.

Lemma thread_after_none l : forall b t,
  Forall (fun e => is_PthreadCreate e = false) l -> thread_after b t l = (b, t).
Proof.
  induction l as [|e l IH]; intros b t F; [reflexivity|].
  inversion F as [|? ? He Hl]; subst.
  destruct e; try discriminate He; cbn [thread_after]; apply IH, Hl.
Qed.

Lemma io_no_thread l :
  Forall (fun e => io_event e = true) l ->
  Forall (fun e => is_PthreadCreate e = false) l /\
  filter is_thread_end l = [].
Proof.
  induction 1 as [|e l He _ [IH1 IH2]]; [split; [constructor | reflexivity]|].
  destruct e; try discriminate He; cbn [filter is_thread_end];
    (split; [constructor; [reflexivity | exact IH1] | exact IH2]).
Qed.

(** The thread [shared] records when the dispatch loop ends. *)
Lemma dispatch_thread fuel : forall s cr log s',
  dispatch fuel s = Ret cr log s' ->
  thread_after (consumerThreadExists (shared s)) (consumerThread (shared s)) log
  = (consumerThreadExists (shared s'), consumerThread (shared s')) /\
  filter is_thread_end log = [].
Proof.
  induction fuel as [|f IH]; intros s cr log s' H; [discriminate H|].
  cbn [dispatch] in H. rewrite bind_input in H.
  destruct (IStream.read_word (cin s)) as [[w|] c1]; cbn [fst snd] in H.
  2: { apply Ret_inj in H as (_ & <- & <-). split; reflexivity. }
  rewrite bind_set_chunk in H.
  assert (Step : forall (h : M Z) s0,
    (forall s rc lh s1, h s = Ret rc lh s1 ->
       thread_after (consumerThreadExists (shared s))
                    (consumerThread (shared s)) lh
       = (consumerThreadExists (shared s1), consumerThread (shared s1)) /\
       filter is_thread_end lh = []) ->
    HANDLE_COMMAND w h (dispatch f) s0 = Ret cr log s' ->
    thread_after (consumerThreadExists (shared s0))
                 (consumerThread (shared s0)) log
    = (consumerThreadExists (shared s'), consumerThread (shared s')) /\
    filter is_thread_end log = []).
  { intros h s0 Hh H0.
    apply HANDLE_COMMAND_inv in H0
      as (rc & lh & s1 & Hrun & [(_ & _ & -> & <-) | (-> & lr & Hr & ->)]);
      apply Hh in Hrun as (T & K).
    - rewrite thread_after_app, T, filter_app, K. split; reflexivity.
    - apply IH in Hr as (T2 & K2).
      rewrite thread_after_app, T, filter_app, K.
      cbn [fst snd thread_after app filter is_thread_end].
      split; [exact T2 | exact K2]. }
  assert (Q : forall (h : M Z), quiet h ->
    forall s rc lh s1, h s = Ret rc lh s1 ->
      thread_after (consumerThreadExists (shared s))
                   (consumerThread (shared s)) lh
      = (consumerThreadExists (shared s1), consumerThread (shared s1)) /\
      filter is_thread_end lh = []).
  { intros h Hq s0 rc lh s1 Hrun. apply Hq in Hrun as (F & Sh & _).
    apply io_no_thread in F as (F1 & F2).
    rewrite thread_after_none by exact F1. rewrite Sh.
    split; [reflexivity | exact F2]. }
  destruct (bytes_eqb w (bytes "send"));
    [exact (Step _ _ (Q _ quiet_sendHandler) H)|].
  destruct (bytes_eqb w (bytes "receive"));
    [exact (Step _ _ (Q _ quiet_receiveHandler) H)|].
  destruct (bytes_eqb w (bytes "consume")).
  { refine (Step consumeHandler _ _ H).
    intros s0 rc lh s1. rewrite consumeHandler_eq.
    destruct (pthread_create_script (env s0)) as [|[[rc' error] thread] rest];
      [intros X; discriminate X|].
    cbv zeta. destruct (rc' =? 0) eqn:E; intros X;
      apply Ret_inj in X as (_ & <- & <-);
      cbn [thread_after filter is_thread_end shared consumerThreadExists
           consumerThread set_consumerThread set_consumerThreadExists];
      rewrite E; split; reflexivity. }
  destruct (bytes_eqb w (bytes "count"));
    [exact (Step _ _ (Q _ quiet_countHandler) H)|].
  destruct (bytes_eqb w (bytes "msgsize"));
    [exact (Step _ _ (Q _ quiet_msgsizeHandler) H)|].
  destruct (bytes_eqb w (bytes "maxmsg"));
    [exact (Step _ _ (Q _ quiet_maxmsgHandler) H)|].
  destruct (bytes_eqb w (bytes "close")).
  { apply Ret_inj in H as (_ & <- & <-). split; reflexivity. }
  rewrite bind_emit in H. apply log_then_Ret_inv in H as (l2 & H & ->).
  unfold cerr in H. rewrite bind_locked_emit in H.
  apply log_then_Ret_inv in H as (l3 & H & ->).
  apply Ret_inj in H as (_ & <- & <-).
  cbn [shared]. unfold guarded.
  destruct (consumerThreadExists (shared s)) eqn:E;
    cbn [app thread_after filter is_thread_end];
    rewrite ?E; split; reflexivity.
Qed.

(** A session whose first query of the attributes succeeds: the state the
    loop starts in. *)
Lemma serve_start mq o w code log w' error attributes rest :
  serve mq o w = Ret code log w' ->
  mq_getattr_script (w_env w) = (0, error, attributes) :: rest ->
  exists dbg lloop cr s1 lclose cl s2,
    Forall (fun e => is_Cerr e = true) dbg /\
    dispatch (S (length (IStream.data (w_cin w))))
      (mkSt (Shared_new mq (mq_msgsize attributes) o) [] (w_cin w)
            (set_mq_getattr_script rest (w_env w)))
    = Ret cr lloop s1 /\
    closeHandler s1 = Ret cl lclose s2 /\
    log = MqGetattr 0 :: dbg ++ lloop ++ lclose
          ++ (if consumerThreadExists (shared s2)
              then [PthreadJoin (consumerThread (shared s2))] else []).
Proof.
  unfold serve. intros H Hq. rewrite Hq in H.
  change (negb (0 =? 0)) with false in H. cbv iota zeta in H.
  match type of H with
  | match log_then _ ?r with _ => _ end = _ => destruct r as [a l s| | |] eqn:R
  end; cbn [log_then] in H;
    [| discriminate H | discriminate H | discriminate H].
  apply Ret_inj in H as (_ & <- & _).
  apply bind_Ret_inv in R as (u & dbg & s0 & l2 & Hdbg & R & ->).
  apply bind_Ret_inv in R as (cr & lloop & s1 & l3 & Hloop & R & ->).
  apply bind_Ret_inv in R as (cl & lclose & s2 & l4 & Hclose & R & ->).
  rewrite bind_get_shared in R.
  exists dbg, lloop, cr, s1, lclose, cl, s2.
  assert (Fd : Forall (fun e => is_Cerr e = true) dbg /\
               s0 = mkSt (Shared_new mq (mq_msgsize attributes) o) []
                         (w_cin w) (set_mq_getattr_script rest (w_env w))).
  { destruct (debug o).
    - destruct (repr (queueName o)); [|discriminate Hdbg].
      unfold cerr, emit in Hdbg. apply Ret_inj in Hdbg as (_ & <- & <-).
      split; [repeat constructor | reflexivity].
    - apply Ret_inj in Hdbg as (_ & <- & <-). split; [constructor | reflexivity]. }
  destruct Fd as (Fd & ->).
  split; [exact Fd|]. split; [exact Hloop|]. split; [exact Hclose|].
  unfold when in R.
  destruct (consumerThreadExists (shared s2)).
  - rewrite bind_emit in R. apply log_then_Ret_inv in R as (l5 & R & ->).
    apply Ret_inj in R as (_ & <- & _). cbn [app]. reflexivity.
  - rewrite bind_ret in R. apply Ret_inj in R as (_ & <- & _). reflexivity.
Qed.

(** X19: [serve] ends the consumer thread that [shared] records when the
    loop ends, the one of the last [consume] command provided its creation
    succeeded: it sends the signal to that thread and then joins it, once
    each.  When the last creation failed, or there was no [consume], it
    signals and joins no thread. *)
Theorem serve_ends_last_thread mq o w code log w' :
  serve mq o w = Ret code log w' ->
  (exists error a rest, mq_getattr_script (w_env w) = (0, error, a) :: rest) ->
  filter is_thread_end log =
  (if fst (thread_after false 0 log)
   then [PthreadKill (snd (thread_after false 0 log));
         PthreadJoin (snd (thread_after false 0 log))]
   else []).
Proof.
  intros H (error & a & rest & Hq).
  destruct (serve_start _ _ _ _ _ _ _ _ _ H Hq)
    as (dbg & lloop & cr & s1 & lclose & cl & s2 & Fd & Hloop & Hclose & ->).
  apply dispatch_thread in Hloop as (T & K).
  cbn [shared Shared_new consumerThreadExists consumerThread] in T.
  assert (Dd : Forall (fun e => is_PthreadCreate e = false) dbg /\
               filter is_thread_end dbg = []).
  { clear -Fd. induction Fd as [|e l He _ [IH1 IH2]];
      [split; [constructor | reflexivity]|].
    destruct e; try discriminate He. cbn [filter is_thread_end].
    split; [constructor; [reflexivity | exact IH1] | exact IH2]. }
  destruct Dd as (Dd1 & Dd2).
  rewrite closeHandler_eq in Hclose. cbv zeta in Hclose.
  destruct (mq_close_script (env s1)) as [|[rc e] rest'].
  { destruct (consumerThreadExists (shared s1)); discriminate Hclose. }
  cbn [thread_after filter is_thread_end].
  rewrite !thread_after_app, !filter_app, Dd2, K.
  rewrite (thread_after_none dbg) by exact Dd1. cbn [fst snd].
  rewrite T. cbn [fst snd app].
  unfold guarded in Hclose.
  destruct (consumerThreadExists (shared s1)) eqn:E; cbn [log_then] in Hclose;
    apply Ret_inj in Hclose as (_ & <- & <-);
    cbn [shared set_stopped consumerThreadExists consumerThread];
    rewrite E; destruct (rc =? 0); reflexivity.
Qed.

Lemma serve_ends_last_thread_witness :
  let log := [MqGetattr 0; Sigaction; PthreadCreate 0 7;
              HandlerResult (bytes "consume") 0; Acquire stoppedMutex;
              SetStopped; MqClose 0; PthreadKill 7; Release stoppedMutex;
              PthreadJoin 7] in
  filter is_thread_end log =
  (if fst (thread_after false 0 log)
   then [PthreadKill (snd (thread_after false 0 log));
         PthreadJoin (snd (thread_after false 0 log))]
   else []).
Proof.
  cbv zeta.
  refine (serve_ends_last_thread 3 sample_options
            (sample_world "consume close" calm) 0 _
            (mkWorld (IStream.mk [] true false)
               (set_pthread_create_script [(0, 0, 8)]
                  (set_mq_close_script []
                     (set_mq_getattr_script [(0, 0, sample_attr)] calm)))) _ _).
  - vm_compute. reflexivity.
  - exists 0, sample_attr, [(0, 0, sample_attr)]. reflexivity.
Defined.

(* ------------------------------------------------------------------ *)
(** * Splicing the README into the source *)
(* ------------------------------------------------------------------ *)

Lemma terminated_after_newline x rest :
  terminated (x ++ NL :: rest) = terminated rest.
Proof.
  unfold terminated. rewrite rev_app_distr. cbn [rev]. rewrite <- app_assoc.
  destruct (rev rest); reflexivity.
Qed.

(** The lines of a file, each followed by a newline, are the file, with a
    newline added when its last line has none. *)
Lemma getlines_join file : forall acc,
  Forall (fun c => Ascii.eqb c NL = false) acc ->
  concat (map (fun l => l ++ [NL]) (SpliceReadme.getlines acc file))
  = (rev acc ++ file)
    ++ (if terminated (rev acc ++ file) then [] else [NL]).
Proof.
  induction file as [|c rest IH]; intros acc Ha; cbn [SpliceReadme.getlines].
  - rewrite app_nil_r. destruct acc as [|a acc]; [reflexivity|].
    cbn [map concat]. rewrite app_nil_r. f_equal.
    unfold terminated. rewrite rev_involutive.
    inversion Ha as [|? ? Hc _]; subst. rewrite Hc. reflexivity.
  - destruct (Ascii.eqb c NL) eqn:E.
    + apply Ascii.eqb_eq in E. subst c. cbn [map concat].
      rewrite (IH [] (Forall_nil _)). cbn [rev app].
      rewrite terminated_after_newline, <- !app_assoc. reflexivity.
    + rewrite (IH (c :: acc)) by (constructor; assumption).
      cbn [rev]. rewrite <- !app_assoc. reflexivity.
Qed.

Lemma splice_plain lines readme :
  ~ In SpliceReadme.placeholder lines ->
  SpliceReadme.splice lines readme
  = Some (concat (map (fun l => l ++ [NL]) lines)).
Proof.
  induction lines as [|line rest IH]; intros H; [reflexivity|].
  cbn [SpliceReadme.splice map concat].
  destruct (bytes_eqb line SpliceReadme.placeholder) eqn:E.
  - apply bytes_eqb_eq in E. exfalso. apply H. left. exact E.
  - cbn [negb]. rewrite IH by (intros X; apply H; right; exact X).
    rewrite <- app_assoc. reflexivity.
Qed.

(** X20: a source without the placeholder line is copied to standard
    output as it is, a newline added when its last line has none; the
    README is not looked at. *)
Theorem splice_copies_source source readme :
  ~ In SpliceReadme.placeholder (SpliceReadme.getlines [] source) ->
  SpliceReadme.main source readme
  = Some (source ++ (if terminated source then [] else [NL])).
Proof.
  intros H. unfold SpliceReadme.main. rewrite splice_plain by exact H.
  rewrite getlines_join by constructor. reflexivity.
Qed.

Lemma splice_copies_source_witness :
  SpliceReadme.main (bytes "int x;" ++ [NL] ++ bytes "int y;") (bytes "Hi")
  = Some ((bytes "int x;" ++ [NL] ++ bytes "int y;") ++ [NL]).
Proof.
  refine (splice_copies_source (bytes "int x;" ++ [NL] ++ bytes "int y;")
            (bytes "Hi") _).
  vm_compute. intros [X|[X|[]]]; discriminate X.
Defined.

Lemma Exists_high_app a b :
  Exists (fun ch => high ch = true) (a ++ b) <->
  Exists (fun ch => high ch = true) a \/ Exists (fun ch => high ch = true) b.
Proof. apply Exists_app. Qed.

Lemma quote_high lines :
  SpliceReadme.quote lines = None <->
  Exists (fun ch => high ch = true)
         (concat (map (fun l => l ++ [NL]) lines)).
Proof.
  induction lines as [|line rest IH]; cbn [SpliceReadme.quote map concat].
  - split; [intros X; discriminate X | intros X; inversion X].
  - rewrite Exists_high_app, <- IH, <- repr_high.
    destruct (repr (line ++ [NL])); [|tauto].
    destruct (SpliceReadme.quote rest); split;
      first [intros X; discriminate X | tauto | intros [X|X]; discriminate X].
Qed.

Lemma splice_high lines readme :
  SpliceReadme.splice lines readme = None <->
  In SpliceReadme.placeholder lines /\
  SpliceReadme.quote (SpliceReadme.getlines [] readme) = None.
Proof.
  induction lines as [|line rest IH]; cbn [SpliceReadme.splice In].
  - split; [intros X; discriminate X | intros [[] _]].
  - destruct (bytes_eqb line SpliceReadme.placeholder) eqn:E; cbn [negb].
    + apply bytes_eqb_eq in E. subst line.
      destruct (SpliceReadme.quote (SpliceReadme.getlines [] readme)).
      * change (repr [NL]) with (Some [DQ; BSL; "n"%char; DQ]).
        destruct (SpliceReadme.splice rest readme).
        -- split; [intros X; discriminate X | intros [_ X]; discriminate X].
        -- split; [intros _ | reflexivity].
           destruct IH as [IH _]. destruct (IH eq_refl) as [_ X].
           discriminate X.
      * split; [intros _; split; [left|]; reflexivity | reflexivity].
    + assert (N : SpliceReadme.placeholder <> line).
      { intros X. subst line. rewrite bytes_eqb_refl in E. discriminate E. }
      destruct (SpliceReadme.splice rest readme).
      * split; [intros X; discriminate X|].
        intros [[X|X] Q]; [exfalso; apply N; symmetry; exact X|].
        destruct IH as [_ IH]. specialize (IH (conj X Q)). discriminate IH.
      * split; [intros _ | reflexivity].
        destruct IH as [IH _]. destruct (IH eq_refl) as [X Q].
        split; [right; exact X | exact Q].
Qed.

(** X21: the tool aborts, on the [assert] of [repr], exactly when the
    source holds the placeholder line and the README holds a byte of value
    128 or more; in every other case it writes its output. *)
Theorem splice_aborts_on_high_bytes source readme :
  SpliceReadme.main source readme = None <->
  In SpliceReadme.placeholder (SpliceReadme.getlines [] source) /\
  Exists (fun ch => high ch = true) readme.
Proof.
  unfold SpliceReadme.main. rewrite splice_high, quote_high.
  rewrite getlines_join by constructor. cbn [rev app].
  rewrite Exists_high_app.
  split; intros [P Q]; (split; [exact P|]).
  - destruct Q as [Q|Q]; [exact Q|].
    destruct (terminated readme); inversion Q as [? ? X|? ? X]; subst;
      [discriminate X | inversion X].
  - left. exact Q.
Qed.

(* ------------------------------------------------------------------ *)
(** * A payload for which there is no memory *)
(* ------------------------------------------------------------------ *)

Lemma bind_Crash {A B} (m : M A) (k : A -> M B) s l :
  m s = Crash l -> bind m k s = Crash l.
Proof. intros H. unfold bind. rewrite H. reflexivity. Qed.

(** A [send] command that declares more bytes than can be allocated. *)
Lemma send_request_no_room memory priority size rest :
  0 <= priority <= UINT_MAX ->
  0 <= memory < size ->
  size <= SSIZE_MAX ->
  ends_numeral rest ->
  send_request memory
    (IStream.mk (SP :: decimal priority ++ SP :: decimal size ++ rest)
       false false)
  = TooLarge.
Proof.
  intros Hprio Hmem Hsize E.
  unfold send_request, IStream.read_unsigned, IStream.read_ssize_t.
  rewrite read_int_skip_space.
  rewrite read_int_decimal; [| lia | reflexivity].
  rewrite read_int_skip_space.
  rewrite read_int_decimal; [| lia | exact E].
  replace (size <? 0) with false by (symmetry; apply Z.ltb_ge; lia).
  replace (size =? 0) with false by (symmetry; apply Z.eqb_neq; lia).
  replace (memory <? size) with true by (symmetry; apply Z.ltb_lt; lia).
  reflexivity.
Qed.

Lemma read_word_send tail :
  IStream.read_word (IStream.of_bytes (bytes "send " ++ tail))
  = (Some (bytes "send"), IStream.mk (SP :: tail) false false).
Proof. reflexivity. Qed.

Lemma dispatch_send_no_room fuel s priority size rest :
  cin s = IStream.of_bytes
            (bytes "send " ++ decimal priority ++ SP :: decimal size ++ rest) ->
  0 <= priority <= UINT_MAX ->
  0 <= memory (env s) < size ->
  size <= SSIZE_MAX ->
  ends_numeral rest ->
  dispatch (S fuel) s = Crash [].
Proof.
  intros Hcin Hprio Hmem Hsize E.
  cbn [dispatch]. rewrite bind_input, Hcin, read_word_send. cbn [fst snd].
  rewrite bind_set_chunk.
  change (bytes_eqb (bytes "send") (bytes "send")) with true. cbv iota.
  unfold HANDLE_COMMAND. apply bind_Crash, sendHandler_too_large.
  cbn [env cin]. apply send_request_no_room; assumption.
Qed.

(** X23: a [send] command that declares a payload larger than what can be
    allocated ends the program at once, by the exception that
    [chunk.resize] throws and nothing catches: no diagnostic is written,
    nothing is enqueued, the queue is not closed and no result is
    returned. *)
Theorem serve_send_without_room mq o w error attributes answers priority size
  rest :
  mq_getattr_script (w_env w) = (0, error, attributes) :: answers ->
  debug o = false ->
  w_cin w
  = IStream.of_bytes
      (bytes "send " ++ decimal priority ++ SP :: decimal size ++ rest) ->
  0 <= priority <= UINT_MAX ->
  0 <= memory (w_env w) < size ->
  size <= SSIZE_MAX ->
  ends_numeral rest ->
  serve mq o w = Crash [MqGetattr 0].
Proof.
  intros Hattr Hdbg Hcin Hprio Hmem Hsize E.
  unfold serve. rewrite Hattr, Hdbg. cbn [negb Z.eqb]. cbv zeta iota.
  rewrite bind_ret.
  erewrite bind_Crash; [reflexivity|].
  eapply dispatch_send_no_room; [exact Hcin | exact Hprio | | exact Hsize
                                | exact E].
  exact Hmem.
Qed.

Lemma serve_send_without_room_witness :
  serve 3 sample_options (sample_world "send 0 99999 x" calm)
  = Crash [MqGetattr 0].
Proof.
  refine (serve_send_without_room 3 sample_options
            (sample_world "send 0 99999 x" calm) 0 sample_attr _ 0 99999
            (bytes " x") eq_refl eq_refl eq_refl _ _ _ _).
  all: vm_compute; repeat split; intros X; discriminate X.
Defined.
